(** * A verified model of [src/tree/splay_tree.py]

    The Python module implements a splay tree whose nodes carry [left],
    [right] and [parent] references and are mutated in place.  The model
    below keeps that shape: nodes live in a store (a finite map from object
    identities to node records), references are optional identities
    ([None] is Python's [None]), and every method is a computation in a small
    state-and-exception monad over the store and the tree's [root] field.

    Keys are integers ordered by [Z.lt]; values are Python values, among
    them [None].  Loops carry a fuel argument; every public method takes its
    fuel from the size of the store, and the theorems show that this is always
    enough on the trees the methods can build.  The interpreter's recursion
    limit and memory bounds are not modelled. *)

From stdpp Require Import gmap list strings sorting.
From Stdlib Require Import ZArith Lia.

Local Open Scope Z_scope.

(** ** Values, nodes and the store *)

Inductive pyval :=
| PyNone
| PyInt (z : Z)
| PyStr (s : string).

Global Instance pyval_eq_dec : EqDecision pyval.
Proof. solve_decision. Defined.

(** [class Node]: the five attributes set by [__init__]. *)
Record Node := mkNode {
  key : Z;
  value : pyval;
  left : option nat;
  right : option nat;
  parent : option nat
}.

(** The store of node objects together with the [root] attribute of the one
    [SplayTree] object under study. *)
Record State := mkState {
  mem : gmap nat Node;
  root : option nat
}.

(** [SplayTree.__init__] *)
Definition init : State := mkState ∅ None.

(** ** The monad: state threading, [AttributeError], and fuel exhaustion *)

Inductive result (A : Type) :=
| Ok (a : A) (s : State)
| AttributeError
| OutOfFuel.
Arguments Ok {A} a s.
Arguments AttributeError {A}.
Arguments OutOfFuel {A}.

Definition M (A : Type) := State → result A.

Definition ret {A} (a : A) : M A := λ s, Ok a s.

Definition bind {A B} (m : M A) (f : A → M B) : M B :=
  λ s, match m s with
       | Ok a s' => f a s'
       | AttributeError => AttributeError
       | OutOfFuel => OutOfFuel
       end.

Definition out_of_fuel {A} : M A := λ _, OutOfFuel.

Notation "x <- m1 ;; m2" := (bind m1 (λ x, m2))
  (at level 100, m1 at next level, right associativity).
Notation "m1 ;;; m2" := (bind m1 (λ _, m2))
  (at level 100, right associativity).

(** Attribute reads and writes.  Reading or writing an attribute of [None]
    raises [AttributeError]. *)
Definition deref (p : option nat) : M Node :=
  λ s, match p with
       | None => AttributeError
       | Some a => match mem s !! a with
                   | Some n => Ok n s
                   | None => AttributeError
                   end
       end.

Definition store (p : option nat) (n : Node) : M unit :=
  λ s, match p with
       | None => AttributeError
       | Some a => Ok tt (mkState (<[a := n]> (mem s)) (root s))
       end.

Definition get_key p : M Z := n <- deref p;; ret (key n).
Definition get_value p : M pyval := n <- deref p;; ret (value n).
Definition get_left p : M (option nat) := n <- deref p;; ret (left n).
Definition get_right p : M (option nat) := n <- deref p;; ret (right n).
Definition get_parent p : M (option nat) := n <- deref p;; ret (parent n).

Definition set_value p (v : pyval) : M unit :=
  n <- deref p;; store p (mkNode (key n) v (left n) (right n) (parent n)).
Definition set_left p (q : option nat) : M unit :=
  n <- deref p;; store p (mkNode (key n) (value n) q (right n) (parent n)).
Definition set_right p (q : option nat) : M unit :=
  n <- deref p;; store p (mkNode (key n) (value n) (left n) q (parent n)).
Definition set_parent p (q : option nat) : M unit :=
  n <- deref p;; store p (mkNode (key n) (value n) (left n) (right n) q).

Definition get_root : M (option nat) := λ s, Ok (root s) s.
Definition set_root (q : option nat) : M unit := λ s, Ok tt (mkState (mem s) q).

(** [Node(key, value)]: a new object, distinct from every object in the
    store, with [left], [right] and [parent] all [None]. *)
Definition new_node (k : Z) (v : pyval) : M (option nat) :=
  λ s, let a := fresh (dom (mem s)) in
       Ok (Some a) (mkState (<[a := mkNode k v None None None]> (mem s)) (root s)).

(** Identity comparison of two references ([==] on [Node] objects, which
    define no [__eq__]). *)
Definition same (p q : option nat) : bool := bool_decide (p = q).

(** Truth value of a reference: a [Node] is true, [None] is false. *)
Definition truthy (p : option nat) : bool :=
  match p with Some _ => true | None => false end.

(** Fuel for a loop started in state [s]: one more than the number of
    objects in the store. *)
Definition fuel_of (s : State) : nat := S (size (mem s)).

Definition with_fuel {A} (f : nat → M A) : M A := λ s, f (fuel_of s) s.

(** ** Rotations *)

(** [SplayTree._rotate_right] *)
Definition _rotate_right (x : option nat) : M (option nat) :=
  y <- get_left x;;
  yr <- get_right y;;
  set_left x yr;;;
  yr <- get_right y;;
  (if truthy yr then set_parent yr x else ret tt);;;
  xp <- get_parent x;;
  set_parent y xp;;;
  xp <- get_parent x;;
  (if negb (truthy xp) then set_root y
   else
     xpr <- get_right xp;;
     if same x xpr then set_right xp y else set_left xp y);;;
  set_right y x;;;
  set_parent x y;;;
  ret y.

(** [SplayTree._rotate_left] *)
Definition _rotate_left (x : option nat) : M (option nat) :=
  y <- get_right x;;
  yl <- get_left y;;
  set_right x yl;;;
  yl <- get_left y;;
  (if truthy yl then set_parent yl x else ret tt);;;
  xp <- get_parent x;;
  set_parent y xp;;;
  xp <- get_parent x;;
  (if negb (truthy xp) then set_root y
   else
     xpl <- get_left xp;;
     if same x xpl then set_left xp y else set_right xp y);;;
  set_left y x;;;
  set_parent x y;;;
  ret y.

(** ** Splay *)

(** One iteration of the [while node.parent] loop of [_splay], entered with
    [parent = node.parent] known to be a node. *)
Definition splay_step (node parent : option nat) : M unit :=
  grandparent <- get_parent parent;;
  if negb (truthy grandparent) then
    pl <- get_left parent;;
    if same node pl then _rotate_right parent;;; ret tt
    else _rotate_left parent;;; ret tt
  else
    pl <- get_left parent;;
    c1 <- (if same node pl then gl <- get_left grandparent;; ret (same parent gl)
          else ret false);;
    if c1 then _rotate_right grandparent;;; _rotate_right parent;;; ret tt
    else
      pr <- get_right parent;;
      c2 <- (if same node pr then gr <- get_right grandparent;; ret (same parent gr)
            else ret false);;
      if c2 then _rotate_left grandparent;;; _rotate_left parent;;; ret tt
      else
        pl <- get_left parent;;
        c3 <- (if same node pl then gr <- get_right grandparent;; ret (same parent gr)
              else ret false);;
        if c3 then _rotate_right parent;;; _rotate_left grandparent;;; ret tt
        else _rotate_left parent;;; _rotate_right grandparent;;; ret tt.

Fixpoint splay_loop (fuel : nat) (node : option nat) : M unit :=
  match fuel with
  | O => out_of_fuel
  | S fuel' =>
      parent <- get_parent node;;
      if truthy parent then splay_step node parent;;; splay_loop fuel' node
      else ret tt
  end.

(** [SplayTree._splay] *)
Definition _splay (node : option nat) : M (option nat) :=
  if negb (truthy node) then ret None
  else with_fuel (λ fuel, splay_loop fuel node);;; ret node.

(** ** Insert, find, and the internal descent *)

Fixpoint insert_loop (fuel : nat) (k : Z) (v : pyval) (current : option nat) : M unit :=
  match fuel with
  | O => out_of_fuel
  | S fuel' =>
      ck <- get_key current;;
      if k =? ck then
        set_value current v;;; _splay current;;; ret tt
      else if k <? ck then
        cl <- get_left current;;
        if negb (truthy cl) then
          n <- new_node k v;;
          set_left current n;;;
          cl <- get_left current;;
          set_parent cl current;;;
          cl <- get_left current;;
          _splay cl;;; ret tt
        else insert_loop fuel' k v cl
      else
        cr <- get_right current;;
        if negb (truthy cr) then
          n <- new_node k v;;
          set_right current n;;;
          cr <- get_right current;;
          set_parent cr current;;;
          cr <- get_right current;;
          _splay cr;;; ret tt
        else insert_loop fuel' k v cr
  end.

(** [SplayTree.insert] *)
Definition insert (k : Z) (v : pyval) : M unit :=
  r <- get_root;;
  if negb (truthy r) then
    n <- new_node k v;; set_root n
  else
    current <- get_root;;
    with_fuel (λ fuel, insert_loop fuel k v current).

(** [insert(key)] with the default argument [value=None]. *)
Definition insert_default (k : Z) : M unit := insert k PyNone.

Fixpoint find_loop (fuel : nat) (k : Z) (current : option nat) : M pyval :=
  match fuel with
  | O => out_of_fuel
  | S fuel' =>
      if negb (truthy current) then ret PyNone
      else
        ck <- get_key current;;
        if k =? ck then
          _splay current;;; get_value current
        else if k <? ck then
          cl <- get_left current;;
          if negb (truthy cl) then _splay current;;; ret PyNone
          else find_loop fuel' k cl
        else
          cr <- get_right current;;
          if negb (truthy cr) then _splay current;;; ret PyNone
          else find_loop fuel' k cr
  end.

(** [SplayTree.find]; the result [PyNone] is Python's [None]. *)
Definition find (k : Z) : M pyval :=
  r <- get_root;;
  if negb (truthy r) then ret PyNone
  else
    current <- get_root;;
    with_fuel (λ fuel, find_loop fuel k current).

Fixpoint find_node_loop (fuel : nat) (k : Z) (current : option nat) : M (option nat) :=
  match fuel with
  | O => out_of_fuel
  | S fuel' =>
      if negb (truthy current) then ret None
      else
        ck <- get_key current;;
        if k =? ck then ret current
        else if k <? ck then
          cl <- get_left current;;
          if negb (truthy cl) then ret current
          else find_node_loop fuel' k cl
        else
          cr <- get_right current;;
          if negb (truthy cr) then ret current
          else find_node_loop fuel' k cr
  end.

(** [SplayTree._find_node] *)
Definition _find_node (k : Z) : M (option nat) :=
  r <- get_root;;
  if negb (truthy r) then ret None
  else
    current <- get_root;;
    with_fuel (λ fuel, find_node_loop fuel k current).

(** ** Delete *)

(** [while left_max.right: left_max = left_max.right] *)
Fixpoint rightmost_loop (fuel : nat) (current : option nat) : M (option nat) :=
  match fuel with
  | O => out_of_fuel
  | S fuel' =>
      cr <- get_right current;;
      if truthy cr then rightmost_loop fuel' cr else ret current
  end.

(** [while current.left: current = current.left] *)
Fixpoint leftmost_loop (fuel : nat) (current : option nat) : M (option nat) :=
  match fuel with
  | O => out_of_fuel
  | S fuel' =>
      cl <- get_left current;;
      if truthy cl then leftmost_loop fuel' cl else ret current
  end.

(** The part of [delete] after [self._splay(node)]: unlink the node that is
    now at the root. *)
Definition delete_root (node : option nat) : M unit :=
  nl <- get_left node;;
  if negb (truthy nl) then
    nr <- get_right node;;
    set_root nr;;;
    r <- get_root;;
    if truthy r then set_parent r None else ret tt
  else
    nr <- get_right node;;
    if negb (truthy nr) then
      nl <- get_left node;;
      set_root nl;;;
      r <- get_root;;
      if truthy r then set_parent r None else ret tt
    else
      nl <- get_left node;;
      left_max <- with_fuel (λ fuel, rightmost_loop fuel nl);;
      _splay left_max;;;
      nr <- get_right node;;
      set_right left_max nr;;;
      nr <- get_right node;;
      set_parent nr left_max;;;
      set_root left_max.

(** [SplayTree.delete] *)
Definition delete (k : Z) : M bool :=
  node <- _find_node k;;
  if negb (truthy node) then ret false
  else
    nk <- get_key node;;
    if negb (nk =? k) then ret false
    else
      _splay node;;;
      delete_root node;;;
      ret true.

(** ** Traversal, emptiness, extrema *)

(** [SplayTree._inorder]; the list [acc] is the Python list [result], to
    which pairs are appended. *)
Fixpoint _inorder (fuel : nat) (node : option nat) (acc : list (Z * pyval))
  : M (list (Z * pyval)) :=
  match fuel with
  | O => out_of_fuel
  | S fuel' =>
      if truthy node then
        nl <- get_left node;;
        acc1 <- _inorder fuel' nl acc;;
        k <- get_key node;;
        v <- get_value node;;
        nr <- get_right node;;
        _inorder fuel' nr (acc1 ++ [(k, v)])
      else ret acc
  end.

(** [SplayTree.inorder] *)
Definition inorder : M (list (Z * pyval)) :=
  r <- get_root;;
  with_fuel (λ fuel, _inorder fuel r []).

(** [SplayTree.is_empty] *)
Definition is_empty : M bool :=
  r <- get_root;; ret (negb (truthy r)).

(** [SplayTree.minimum]; [None] is Python's [None], [Some (k, v)] the tuple. *)
Definition minimum : M (option (Z * pyval)) :=
  r <- get_root;;
  if negb (truthy r) then ret None
  else
    current <- get_root;;
    current <- with_fuel (λ fuel, leftmost_loop fuel current);;
    _splay current;;;
    k <- get_key current;;
    v <- get_value current;;
    ret (Some (k, v)).

(** [SplayTree.maximum] *)
Definition maximum : M (option (Z * pyval)) :=
  r <- get_root;;
  if negb (truthy r) then ret None
  else
    current <- get_root;;
    current <- with_fuel (λ fuel, rightmost_loop fuel current);;
    _splay current;;;
    k <- get_key current;;
    v <- get_value current;;
    ret (Some (k, v)).

(** ** Running sequences of operations *)

Inductive op :=
| OInsert (k : Z) (v : pyval)
| OFind (k : Z)
| ODelete (k : Z)
| OMinimum
| OMaximum.

Definition exec {A} (m : M A) (s : State) : option State :=
  match m s with Ok _ s' => Some s' | _ => None end.

Definition run_op (o : op) (s : State) : option State :=
  match o with
  | OInsert k v => exec (insert k v) s
  | OFind k => exec (find k) s
  | ODelete k => exec (delete k) s
  | OMinimum => exec minimum s
  | OMaximum => exec maximum s
  end.

Fixpoint run (ops : list op) (s : State) : option State :=
  match ops with
  | [] => Some s
  | o :: ops' => match run_op o s with
                 | Some s' => run ops' s'
                 | None => None
                 end
  end.

(** States reachable from the empty tree by the public operations. *)
Inductive reachable : State → Prop :=
| reachable_init : reachable init
| reachable_step s o s' : reachable s → run_op o s = Some s' → reachable s'.


(** * Abstraction: the tree a store represents *)

(** A binary tree whose nodes are labelled with the identity of the node
    object, its key and its value. *)
Inductive tree :=
| Leaf
| T (l : tree) (a : nat) (k : Z) (v : pyval) (r : tree).

Definition ptr (t : tree) : option nat :=
  match t with Leaf => None | T _ a _ _ _ => Some a end.

Fixpoint addrs (t : tree) : list nat :=
  match t with
  | Leaf => []
  | T l a _ _ r => addrs l ++ a :: addrs r
  end.

Fixpoint items (t : tree) : list (Z * pyval) :=
  match t with
  | Leaf => []
  | T l _ k v r => items l ++ (k, v) :: items r
  end.

Fixpoint height (t : tree) : nat :=
  match t with
  | Leaf => O
  | T l _ _ _ r => S (Nat.max (height l) (height r))
  end.

(** [rep h t par]: in store [h], the objects named in [t] have exactly the
    fields [t] prescribes, the root of [t] having parent reference [par]. *)
Fixpoint rep (h : gmap nat Node) (t : tree) (par : option nat) : Prop :=
  match t with
  | Leaf => True
  | T l a k v r =>
      h !! a = Some (mkNode k v (ptr l) (ptr r) par)
      ∧ rep h l (Some a) ∧ rep h r (Some a)
  end.

(** One layer of context around a subtree: the subtree is the left child of
    a node ([FL]) or its right child ([FR]). *)
Inductive frame :=
| FL (a : nat) (k : Z) (v : pyval) (r : tree)
| FR (l : tree) (a : nat) (k : Z) (v : pyval).

Definition frame_addr (f : frame) : nat :=
  match f with FL a _ _ _ => a | FR _ a _ _ => a end.

Definition fill (f : frame) (t : tree) : tree :=
  match f with
  | FL a k v r => T t a k v r
  | FR l a k v => T l a k v t
  end.

(** A context lists the frames from the hole upwards to the root. *)
Fixpoint plug (c : list frame) (t : tree) : tree :=
  match c with
  | [] => t
  | f :: c' => plug c' (fill f t)
  end.

Definition ctx_ptr (c : list frame) : option nat :=
  match c with [] => None | f :: _ => Some (frame_addr f) end.

Fixpoint ctx_root (c : list frame) (hole : option nat) : option nat :=
  match c with
  | [] => hole
  | f :: c' => ctx_root c' (Some (frame_addr f))
  end.

Definition frame_addrs (f : frame) : list nat :=
  match f with
  | FL a _ _ r => a :: addrs r
  | FR l a _ _ => a :: addrs l
  end.

Fixpoint ctx_addrs (c : list frame) : list nat :=
  match c with
  | [] => []
  | f :: c' => frame_addrs f ++ ctx_addrs c'
  end.

Fixpoint rep_ctx (h : gmap nat Node) (c : list frame) (hole : option nat) : Prop :=
  match c with
  | [] => True
  | FL a k v r :: c' =>
      h !! a = Some (mkNode k v hole (ptr r) (ctx_ptr c'))
      ∧ rep h r (Some a) ∧ rep_ctx h c' (Some a)
  | FR l a k v :: c' =>
      h !! a = Some (mkNode k v (ptr l) hole (ctx_ptr c'))
      ∧ rep h l (Some a) ∧ rep_ctx h c' (Some a)
  end.

(** [repz s c t]: state [s] holds the tree [plug c t], seen as the subtree
    [t] inside the context [c]; no object occurs twice. *)
Definition repz (s : State) (c : list frame) (t : tree) : Prop :=
  rep (mem s) t (ctx_ptr c)
  ∧ rep_ctx (mem s) c (ptr t)
  ∧ root s = ctx_root c (ptr t)
  ∧ NoDup (addrs t ++ ctx_addrs c).

Definition keys (t : tree) : list Z := (items t).*1.

(** The ordering invariant, on the in-order key sequence. *)
Definition ascending (l : list Z) : Prop := StronglySorted Z.lt l.

(** The ordering invariant as the data model words it: at every node, the
    keys to the left are smaller and the keys to the right are larger. *)
Fixpoint bst (t : tree) : Prop :=
  match t with
  | Leaf => True
  | T l _ k _ r =>
      bst l ∧ bst r ∧ (∀ x, x ∈ keys l → x < k) ∧ (∀ x, x ∈ keys r → k < x)
  end.

(** A well-formed state: it holds some tree, and the tree is ordered. *)
Definition wf (s : State) : Prop :=
  ∃ t, repz s [] t ∧ ascending (keys t).

(** Two footprints share no object. *)
Definition disj (l k : list nat) : Prop := ∀ x, x ∈ l → x ∉ k.

(** ** What the methods do to the represented tree *)

(** The tree that bottom-up splaying builds: the node in focus has subtrees
    [l] and [r] and sits in context [c]; the result is the pair of subtrees
    it has once it is the root.  The cases are those of [_splay]: zig,
    zig-zig and zig-zag, each in its two orientations. *)
Fixpoint splay_z (c : list frame) (l r : tree) : tree * tree :=
  match c with
  | [] => (l, r)
  | FL p kp vp C :: [] => (l, T r p kp vp C)
  | FR A p kp vp :: [] => (T A p kp vp l, r)
  | FL p kp vp C :: FL g kg vg D :: c' =>
      splay_z c' l (T r p kp vp (T C g kg vg D))
  | FR B p kp vp :: FR A g kg vg :: c' =>
      splay_z c' (T (T A g kg vg B) p kp vp l) r
  | FL p kp vp C :: FR A g kg vg :: c' =>
      splay_z c' (T A g kg vg l) (T r p kp vp C)
  | FR A p kp vp :: FL g kg vg D :: c' =>
      splay_z c' (T A p kp vp l) (T r g kg vg D)
  end.

(** The tree obtained by splaying the focus of a zipper. *)
Definition splay_tree (z : list frame * tree) : tree :=
  match z.2 with
  | Leaf => plug z.1 Leaf
  | T l a k v r => T (splay_z z.1 l r).1 a k v (splay_z z.1 l r).2
  end.

(** The search path for [k], as followed by [find], [_find_node] and
    [insert]: the zipper ends at the node holding [k], or at the last node
    before the search would leave the tree. *)
Fixpoint descend (k : Z) (t : tree) (c : list frame) : list frame * tree :=
  match t with
  | Leaf => (c, Leaf)
  | T l a ka va r =>
      if k =? ka then (c, t)
      else if k <? ka then
        match l with
        | Leaf => (c, t)
        | T _ _ _ _ _ => descend k l (FL a ka va r :: c)
        end
      else
        match r with
        | Leaf => (c, t)
        | T _ _ _ _ _ => descend k r (FR l a ka va :: c)
        end
  end.

(** What [find] returns when its descent ends at the root of [t]. *)
Definition found_value (k : Z) (t : tree) : pyval :=
  match t with
  | Leaf => PyNone
  | T _ _ ka va _ => if k =? ka then va else PyNone
  end.

(** The zipper [insert] builds before it splays: the search path for [k],
    ending at the node whose value is overwritten or at a new leaf [n]. *)
Fixpoint insert_desc (k : Z) (v : pyval) (n : nat) (t : tree) (c : list frame)
  : list frame * tree :=
  match t with
  | Leaf => (c, T Leaf n k v Leaf)
  | T l a ka va r =>
      if k =? ka then (c, T l a ka v r)
      else if k <? ka then insert_desc k v n l (FL a ka va r :: c)
      else insert_desc k v n r (FR l a ka va :: c)
  end.

(** The walk of [minimum]: left children until there is none. *)
Fixpoint leftmost (t : tree) (c : list frame) : list frame * tree :=
  match t with
  | Leaf => (c, Leaf)
  | T l a k v r =>
      match l with
      | Leaf => (c, t)
      | T _ _ _ _ _ => leftmost l (FL a k v r :: c)
      end
  end.

(** The walk of [maximum] and of [delete]'s search for [left_max]: right
    children until there is none. *)
Fixpoint rightmost (t : tree) (c : list frame) : list frame * tree :=
  match t with
  | Leaf => (c, Leaf)
  | T l a k v r =>
      match r with
      | Leaf => (c, t)
      | T _ _ _ _ _ => rightmost r (FR l a k v :: c)
      end
  end.

(** Frames of a right spine: the subtree in the hole is a right child. *)
Definition is_FR (f : frame) : Prop :=
  match f with FR _ _ _ _ => True | FL _ _ _ _ => False end.

(** The tree left once the root [T L _ _ _ R] has been unlinked. *)
Definition join (L R : tree) : tree :=
  match L, R with
  | Leaf, _ => R
  | _, Leaf => L
  | _, _ =>
      match (rightmost L []).2 with
      | T ml m km vm _ => T (splay_z (rightmost L []).1 ml Leaf).1 m km vm R
      | Leaf => Leaf
      end
  end.

(** The tree [delete] leaves, given the zipper its descent ends at. *)
Definition unlink (t : tree) : tree :=
  match t with
  | Leaf => Leaf
  | T L _ _ _ R => join L R
  end.

(** The pair stored at the root: what [minimum] and [maximum] return. *)
Definition root_item (t : tree) : option (Z * pyval) :=
  match t with Leaf => None | T _ _ k v _ => Some (k, v) end.

(** ** The tree as an ordered association list *)

(** Association-list lookup: the value stored under a key. *)
Fixpoint assoc (k : Z) (l : list (Z * pyval)) : option pyval :=
  match l with
  | [] => None
  | (k', v') :: l' => if k =? k' then Some v' else assoc k l'
  end.

(** Textbook search in an ordered tree. *)
Fixpoint tfind (k : Z) (t : tree) : option pyval :=
  match t with
  | Leaf => None
  | T l _ ka va r =>
      if k =? ka then Some va else if k <? ka then tfind k l else tfind k r
  end.

(** The value at the root of [t] if the root holds [k]. *)
Definition hit (k : Z) (t : tree) : option pyval :=
  match t with
  | Leaf => None
  | T _ _ ka va _ => if k =? ka then Some va else None
  end.

(** Insertion into an association list ordered by key. *)
Fixpoint upsert (k : Z) (v : pyval) (l : list (Z * pyval)) : list (Z * pyval) :=
  match l with
  | [] => [(k, v)]
  | (k', v') :: l' =>
      if k =? k' then (k, v) :: l'
      else if k <? k' then (k, v) :: l
      else (k', v') :: upsert k v l'
  end.

(** Textbook insertion into an ordered tree, [n] naming the new node. *)
Fixpoint tins (k : Z) (v : pyval) (n : nat) (t : tree) : tree :=
  match t with
  | Leaf => T Leaf n k v Leaf
  | T l a ka va r =>
      if k =? ka then T l a ka v r
      else if k <? ka then T (tins k v n l) a ka va r
      else T l a ka va (tins k v n r)
  end.

(** Removal of the entry for [k] from an association list. *)
Fixpoint remove_key (k : Z) (l : list (Z * pyval)) : list (Z * pyval) :=
  match l with
  | [] => []
  | (k', v') :: l' => if k =? k' then l' else (k', v') :: remove_key k l'
  end.

(** [contents s l]: state [s] holds a tree without sharing whose in-order
    sequence of pairs is [l], with keys strictly ascending. *)
Definition contents (s : State) (l : list (Z * pyval)) : Prop :=
  ∃ t, repz s [] t ∧ items t = l ∧ ascending l.*1.

(** The node at the root of the tree. *)
Definition root_node (s : State) : option Node :=
  match root s with
  | Some a => mem s !! a
  | None => None
  end.

(** The effect of an operation on the association list. *)
Definition apply_op (o : op) (l : list (Z * pyval)) : list (Z * pyval) :=
  match o with
  | OInsert k v => upsert k v l
  | ODelete k => remove_key k l
  | OFind _ | OMinimum | OMaximum => l
  end.

(** ** Vocabulary of the stated properties *)

(** The nodes of the tree: those reached from [root] by [left] and [right]
    references. *)
Inductive in_tree (s : State) : nat → Prop :=
| in_tree_root a : root s = Some a → in_tree s a
| in_tree_left a n c :
    in_tree s a → mem s !! a = Some n → left n = Some c → in_tree s c
| in_tree_right a n c :
    in_tree s a → mem s !! a = Some n → right n = Some c → in_tree s c.

(** The parent-link invariant of the data model. *)
Definition parent_links (s : State) : Prop :=
  (∀ a, root s = Some a → ∃ n, mem s !! a = Some n ∧ parent n = None)
  ∧ (∀ a n c, in_tree s a → mem s !! a = Some n → left n = Some c →
       ∃ nc, mem s !! c = Some nc ∧ parent nc = Some a)
  ∧ (∀ a n c, in_tree s a → mem s !! a = Some n → right n = Some c →
       ∃ nc, mem s !! c = Some nc ∧ parent nc = Some a).

(** An operation that inserts or deletes the key [k]. *)
Definition touches (k : Z) (o : op) : Prop :=
  match o with
  | OInsert k' _ => k' = k
  | ODelete k' => k' = k
  | OFind _ | OMinimum | OMaximum => False
  end.

(** ** Vocabulary of the further properties *)

(** The node objects of a tree in in-order, each with the pair it holds. *)
Fixpoint cells (t : tree) : list (nat * (Z * pyval)) :=
  match t with
  | Leaf => []
  | T l a k v r => cells l ++ (a, (k, v)) :: cells r
  end.

(** A computation that creates no node object: the set of objects in the
    store is the same afterwards. *)
Definition no_alloc {A} (m : M A) : Prop :=
  ∀ s a s', m s = Ok a s' → dom (mem s') = dom (mem s).

(** ** Concrete trees *)

(** The tree built by [insert(10, "ten")] and then [insert(5, "five")]: the
    node holding 5 is the root and the node holding 10 its right child. *)
Definition demo1 : State :=
  default init (run_op (OInsert 10 (PyStr "ten")) init).
Definition demo : State :=
  default init (run_op (OInsert 5 (PyStr "five")) demo1).
Definition demo_items : list (Z * pyval) :=
  [(5, PyStr "five"); (10, PyStr "ten")].

(** The tree with keys 5, 10 and 15 after [find(10)]: the root holds 10 and
    has both children. *)
Definition demo3_ops : list op :=
  [OInsert 10 (PyStr "ten"); OInsert 5 (PyStr "five");
   OInsert 15 (PyStr "fifteen"); OFind 10].
Definition demo3 : State := default init (run demo3_ops init).
Definition demo3_items : list (Z * pyval) :=
  [(5, PyStr "five"); (10, PyStr "ten"); (15, PyStr "fifteen")].

(** * Basic facts about the monad and the primitives *)

Lemma bind_ok {A B} (m : M A) (f : A → M B) s a s1 :
  m s = Ok a s1 → bind m f s = f a s1.
Proof. unfold bind. intros ->. reflexivity. Qed.

Lemma bind_assoc {A B C} (m : M A) (f : A → M B) (g : B → M C) s :
  bind (bind m f) g s = bind m (λ x, bind (f x) g) s.
Proof. unfold bind. destruct (m s); reflexivity. Qed.

Lemma get_key_ok s a n : mem s !! a = Some n → get_key (Some a) s = Ok (key n) s.
Proof. unfold get_key, bind, deref, ret. intros ->. reflexivity. Qed.

Lemma get_value_ok s a n : mem s !! a = Some n → get_value (Some a) s = Ok (value n) s.
Proof. unfold get_value, bind, deref, ret. intros ->. reflexivity. Qed.

Lemma get_left_ok s a n : mem s !! a = Some n → get_left (Some a) s = Ok (left n) s.
Proof. unfold get_left, bind, deref, ret. intros ->. reflexivity. Qed.

Lemma get_right_ok s a n : mem s !! a = Some n → get_right (Some a) s = Ok (right n) s.
Proof. unfold get_right, bind, deref, ret. intros ->. reflexivity. Qed.

Lemma get_parent_ok s a n : mem s !! a = Some n → get_parent (Some a) s = Ok (parent n) s.
Proof. unfold get_parent, bind, deref, ret. intros ->. reflexivity. Qed.

Lemma set_value_ok s a n v :
  mem s !! a = Some n →
  set_value (Some a) v s
  = Ok tt (mkState (<[a := mkNode (key n) v (left n) (right n) (parent n)]> (mem s)) (root s)).
Proof. unfold set_value, bind, deref, store. intros ->. reflexivity. Qed.

Lemma set_left_ok s a n q :
  mem s !! a = Some n →
  set_left (Some a) q s
  = Ok tt (mkState (<[a := mkNode (key n) (value n) q (right n) (parent n)]> (mem s)) (root s)).
Proof. unfold set_left, bind, deref, store. intros ->. reflexivity. Qed.

Lemma set_right_ok s a n q :
  mem s !! a = Some n →
  set_right (Some a) q s
  = Ok tt (mkState (<[a := mkNode (key n) (value n) (left n) q (parent n)]> (mem s)) (root s)).
Proof. unfold set_right, bind, deref, store. intros ->. reflexivity. Qed.

Lemma set_parent_ok s a n q :
  mem s !! a = Some n →
  set_parent (Some a) q s
  = Ok tt (mkState (<[a := mkNode (key n) (value n) (left n) (right n) q]> (mem s)) (root s)).
Proof. unfold set_parent, bind, deref, store. intros ->. reflexivity. Qed.

Lemma new_node_ok s k v :
  new_node k v s
  = Ok (Some (fresh (dom (mem s))))
       (mkState (<[fresh (dom (mem s)) := mkNode k v None None None]> (mem s)) (root s)).
Proof. reflexivity. Qed.

Lemma same_refl p : same p p = true.
Proof. unfold same. apply bool_decide_eq_true_2. reflexivity. Qed.

Lemma same_ne p q : p ≠ q → same p q = false.
Proof. unfold same. apply bool_decide_eq_false_2. Qed.

(** * Footprints and framing *)

Lemma ptr_addrs t a : ptr t = Some a → a ∈ addrs t.
Proof. destruct t; simpl; [done|]. intros [= ->]. set_solver. Qed.

Lemma same_ptr_ne x t : x ∉ addrs t → same (Some x) (ptr t) = false.
Proof.
  intros H. apply same_ne. intros E. symmetry in E.
  apply ptr_addrs in E. done.
Qed.

(** A representation only depends on the objects in its footprint. *)
Lemma rep_agree h h' t : ∀ par,
  (∀ a, a ∈ addrs t → h' !! a = h !! a) → rep h t par → rep h' t par.
Proof.
  induction t as [|l IHl a k v r IHr]; intros par Hag; simpl; [done|].
  intros (Ha & Hl & Hr). split_and!.
  - rewrite Hag; [done|]. simpl. set_solver.
  - apply IHl; [|done]. intros b Hb. apply Hag. simpl. set_solver.
  - apply IHr; [|done]. intros b Hb. apply Hag. simpl. set_solver.
Qed.

Lemma rep_ctx_agree h h' c : ∀ hole,
  (∀ a, a ∈ ctx_addrs c → h' !! a = h !! a) → rep_ctx h c hole → rep_ctx h' c hole.
Proof.
  induction c as [|[a k v r|l a k v] c IH]; intros hole Hag; simpl; [done| |].
  - intros (Ha & Hr & Hc). split_and!.
    + rewrite Hag; [done|]. simpl. set_solver.
    + eapply rep_agree; [|done]. intros b Hb. apply Hag. simpl. set_solver.
    + apply IH; [|done]. intros b Hb. apply Hag. simpl. set_solver.
  - intros (Ha & Hr & Hc). split_and!.
    + rewrite Hag; [done|]. simpl. set_solver.
    + eapply rep_agree; [|done]. intros b Hb. apply Hag. simpl. set_solver.
    + apply IH; [|done]. intros b Hb. apply Hag. simpl. set_solver.
Qed.

Lemma True_iff (P : Prop) : P → P ↔ True.
Proof. tauto. Qed.

Lemma NoDup_app_disj (l k : list nat) :
  NoDup (l ++ k) ↔ NoDup l ∧ disj l k ∧ NoDup k.
Proof. apply NoDup_app. Qed.
Lemma disj_nil_l k : disj [] k.
Proof. unfold disj. set_solver. Qed.
Lemma disj_nil_r l : disj l [].
Proof. unfold disj. set_solver. Qed.
Lemma disj_cons_l a l k : disj (a :: l) k ↔ (a ∉ k) ∧ disj l k.
Proof. unfold disj. set_solver. Qed.
Lemma disj_cons_r a l k : disj l (a :: k) ↔ (a ∉ l) ∧ disj l k.
Proof. unfold disj. set_solver. Qed.
Lemma disj_app_l l1 l2 k : disj (l1 ++ l2) k ↔ disj l1 k ∧ disj l2 k.
Proof. unfold disj. set_solver. Qed.
Lemma disj_app_r l k1 k2 : disj l (k1 ++ k2) ↔ disj l k1 ∧ disj l k2.
Proof. unfold disj. set_solver. Qed.

Ltac nd_split H :=
  repeat (rewrite ?NoDup_app_disj, ?NoDup_cons, ?NoDup_nil,
            ?disj_app_l, ?disj_app_r, ?disj_cons_l, ?disj_cons_r,
            ?(True_iff _ (disj_nil_l _)), ?(True_iff _ (disj_nil_r _)),
            ?not_elem_of_app, ?not_elem_of_cons, ?not_elem_of_nil in H);
  destruct_and? H.

Ltac ne_tac := first [ congruence | intros ?; subst; contradiction ].

(** Look a reference up through a stack of updates. *)
Ltac lk :=
  cbn [mem root];
  repeat first [ apply lookup_insert_eq | rewrite lookup_insert_ne by ne_tac ];
  eauto.

(** Run the next primitive of a monadic computation. *)
Ltac step :=
  first
    [ rewrite bind_assoc
    | erewrite bind_ok by
        (first [ eapply get_left_ok | eapply get_right_ok | eapply get_parent_ok
               | eapply get_key_ok | eapply get_value_ok
               | eapply set_left_ok | eapply set_right_ok | eapply set_parent_ok
               | eapply set_value_ok ]; lk)
    | rewrite (bind_ok _ _ _ _ _ (new_node_ok _ _ _))
    | rewrite (bind_ok (ret _) _ _ _ _ eq_refl)
    | rewrite (bind_ok (set_root _) _ _ _ _ eq_refl)
    | rewrite (bind_ok get_root _ _ _ _ eq_refl) ];
  cbn [left right parent key value truthy negb mem root ptr];
  rewrite ?same_refl, ?same_ptr_ne by done.

Ltac frame_tac :=
  let a := fresh "a" in
  let Ha := fresh "Ha" in
  intros a Ha; cbn [mem];
  rewrite ?lookup_insert_ne; [reflexivity | ne_tac ..].

Ltac fin :=
  unfold ret; eexists; split; [reflexivity|]; cbn [mem root];
  split_and!; try done; try (by lk);
  try (eapply rep_agree; [|eassumption]; frame_tac);
  try (eapply rep_ctx_agree; [|eassumption]; frame_tac).

(** * Rotations on the represented tree *)

Lemma addrs_rot A y ky vy B x kx vx C :
  addrs (T A y ky vy (T B x kx vx C)) = addrs (T (T A y ky vy B) x kx vx C).
Proof. simpl. rewrite <- app_assoc. reflexivity. Qed.

Lemma rotate_right_spec s c A y ky vy B x kx vx C :
  repz s c (T (T A y ky vy B) x kx vx C) →
  ∃ s', _rotate_right (Some x) s = Ok (Some y) s'
        ∧ repz s' c (T A y ky vy (T B x kx vx C)).
Proof.
  destruct s as [h rt]. unfold repz. rewrite addrs_rot.
  intros ((Hx & (Hy & HA & HB) & HC) & Hc & Hrt & Hnd).
  generalize Hnd. generalize (addrs (T (T A y ky vy B) x kx vx C) ++ ctx_addrs c).
  intros L HL.
  unfold _rotate_right.
  destruct B as [|Bl b kb vb Br]; destruct c as [|[p kp vp S|S p kp vp] c']; simpl in *.
  all: try destruct HB as (Hb & HBl & HBr).
  all: try destruct Hc as (Hp & HS & Hc).
  all: nd_split Hnd.
  all: repeat step; fin.
Qed.

Lemma rotate_left_spec s c A x kx vx B y ky vy C :
  repz s c (T A x kx vx (T B y ky vy C)) →
  ∃ s', _rotate_left (Some x) s = Ok (Some y) s'
        ∧ repz s' c (T (T A x kx vx B) y ky vy C).
Proof.
  destruct s as [h rt]. unfold repz. rewrite <- addrs_rot.
  intros ((Hx & HA & (Hy & HB & HC)) & Hc & Hrt & Hnd).
  generalize Hnd. generalize (addrs (T A x kx vx (T B y ky vy C)) ++ ctx_addrs c).
  intros L HL.
  unfold _rotate_left.
  destruct B as [|Bl b kb vb Br]; destruct c as [|[p kp vp S|S p kp vp] c']; simpl in *.
  all: try destruct HB as (Hb & HBl & HBr).
  all: try destruct Hc as (Hp & HS & Hc).
  all: nd_split Hnd.
  all: repeat step; fin.
Qed.

(** Moving the focus one frame up. *)
Lemma repz_fill s f c t : repz s (f :: c) t ↔ repz s c (fill f t).
Proof.
  unfold repz. destruct f as [a k v r|l a k v]; simpl.
  - rewrite <- !app_assoc. simpl. tauto.
  - assert ((addrs l ++ a :: addrs t) ++ ctx_addrs c
            ≡ₚ addrs t ++ a :: addrs l ++ ctx_addrs c) as ->.
    { rewrite <- app_assoc. simpl. rewrite <- !Permutation_middle.
      constructor. rewrite !app_assoc. apply Permutation_app_tail, Permutation_app_comm. }
    tauto.
Qed.

(** * Splay on the represented tree *)

Lemma list_ind2 {A} (P : list A → Prop) :
  P [] → (∀ x, P [x]) → (∀ x y l, P l → P (x :: y :: l)) → ∀ l, P l.
Proof.
  intros H0 H1 H2. fix IH 1. intros [|x [|y l]]; [done|done|].
  apply H2, IH.
Qed.

Lemma splay_loop_spec c : ∀ s l a k v r fuel,
  (length c < fuel)%nat →
  repz s c (T l a k v r) →
  ∃ s', splay_loop fuel (Some a) s = Ok tt s'
        ∧ repz s' [] (T (splay_z c l r).1 a k v (splay_z c l r).2).
Proof.
  induction c as [|f|f g c IH] using list_ind2; intros s l a k v r fuel Hfuel Hrep.
  - destruct fuel as [|fuel]; [simpl in Hfuel; lia|].
    destruct Hrep as ((Ha & Hl & Hr) & Hc & Hrt & Hnd). simpl in *.
    step. exists s. split; [reflexivity|]. unfold repz. simpl. done.
  - destruct fuel as [|[|fuel]]; [simpl in Hfuel; lia..|].
    pose proof Hrep as Hrep0.
    destruct Hrep as ((Ha & Hl & Hr) & Hc & Hrt & Hnd).
    apply (proj1 (repz_fill _ _ _ _)) in Hrep0.
    destruct f as [p kp vp C|A p kp vp]; simpl in *.
    + destruct Hc as (Hp & HC & _). nd_split Hnd.
      cbn [splay_loop]. step. unfold splay_step. repeat step.
      destruct (rotate_right_spec _ _ _ _ _ _ _ _ _ _ _ Hrep0) as (s1 & E1 & R1).
      rewrite (bind_ok _ _ _ _ _ E1). repeat step.
      pose proof R1 as ((Ha1 & _) & _). simpl in Ha1.
      step. exists s1. done.
    + destruct Hc as (Hp & HC & _). nd_split Hnd.
      cbn [splay_loop]. step. unfold splay_step. repeat step.
      destruct (rotate_left_spec _ _ _ _ _ _ _ _ _ _ _ Hrep0) as (s1 & E1 & R1).
      rewrite (bind_ok _ _ _ _ _ E1). repeat step.
      pose proof R1 as ((Ha1 & _) & _). simpl in Ha1.
      step. exists s1. done.
  - destruct fuel as [|fuel]; [simpl in Hfuel; lia|].
    assert (length c < fuel)%nat as Hfuel' by (simpl in Hfuel; lia).
    pose proof Hrep as Hrep1. apply (proj1 (repz_fill _ _ _ _)) in Hrep1.
    pose proof Hrep1 as Hrep2. apply (proj1 (repz_fill _ _ _ _)) in Hrep2.
    destruct Hrep as ((Ha & Hl & Hr) & Hc & Hrt & Hnd).
    destruct f as [p kp vp C|B p kp vp]; destruct g as [g kg vg D|A g kg vg]; simpl in *.
    all: destruct Hc as (Hp & HC & Hg & HD & Hc); nd_split Hnd.
    all: cbn [splay_loop]; step; unfold splay_step; repeat step.
    + destruct (rotate_right_spec _ _ _ _ _ _ _ _ _ _ _ Hrep2) as (s1 & E1 & R1).
      rewrite (bind_ok _ _ _ _ _ E1). 
      destruct (rotate_right_spec _ _ _ _ _ _ _ _ _ _ _ R1) as (s2 & E2 & R2).
      rewrite bind_assoc, (bind_ok _ _ _ _ _ E2). step.
      apply IH; done.
    + destruct (rotate_right_spec _ _ _ _ _ _ _ _ _ _ _ Hrep1) as (s1 & E1 & R1).
      rewrite (bind_ok _ _ _ _ _ E1). apply (proj1 (repz_fill _ _ _ _)) in R1. simpl in R1.
      destruct (rotate_left_spec _ _ _ _ _ _ _ _ _ _ _ R1) as (s2 & E2 & R2).
      rewrite bind_assoc, (bind_ok _ _ _ _ _ E2). step.
      apply IH; done.
    + destruct (rotate_left_spec _ _ _ _ _ _ _ _ _ _ _ Hrep1) as (s1 & E1 & R1).
      rewrite (bind_ok _ _ _ _ _ E1). apply (proj1 (repz_fill _ _ _ _)) in R1. simpl in R1.
      destruct (rotate_right_spec _ _ _ _ _ _ _ _ _ _ _ R1) as (s2 & E2 & R2).
      rewrite bind_assoc, (bind_ok _ _ _ _ _ E2). step.
      apply IH; done.
    + destruct (rotate_left_spec _ _ _ _ _ _ _ _ _ _ _ Hrep2) as (s1 & E1 & R1).
      rewrite (bind_ok _ _ _ _ _ E1). 
      destruct (rotate_left_spec _ _ _ _ _ _ _ _ _ _ _ R1) as (s2 & E2 & R2).
      rewrite bind_assoc, (bind_ok _ _ _ _ _ E2). step.
      apply IH; done.
Qed.

(** * Every represented object is in the store *)

Lemma rep_lookup h t : ∀ par a, rep h t par → a ∈ addrs t → is_Some (h !! a).
Proof.
  induction t as [|l IHl b k v r IHr]; intros par a; simpl; [set_solver|].
  intros (Hb & Hl & Hr) Ha.
  apply elem_of_app in Ha as [Ha|Ha]; [eauto|].
  apply elem_of_cons in Ha as [->|Ha]; eauto.
Qed.

Lemma rep_ctx_lookup h c : ∀ hole a, rep_ctx h c hole → a ∈ ctx_addrs c → is_Some (h !! a).
Proof.
  induction c as [|[b k v r|l b k v] c IH]; intros hole a; simpl; [set_solver| |].
  all: intros (Hb & Hr & Hc) Ha.
  all: apply elem_of_cons in Ha as [->|Ha]; [eauto|].
  all: apply elem_of_app in Ha as [Ha|Ha]; [eapply rep_lookup; eauto|eauto].
Qed.

Lemma repz_lookup s c t a :
  repz s c t → a ∈ addrs t ++ ctx_addrs c → is_Some (mem s !! a).
Proof.
  intros (Ht & Hc & _ & _) Ha. apply elem_of_app in Ha as [Ha|Ha].
  - eapply rep_lookup; eauto.
  - eapply rep_ctx_lookup; eauto.
Qed.

Lemma NoDup_length_size (h : gmap nat Node) (L : list nat) :
  NoDup L → (∀ a, a ∈ L → is_Some (h !! a)) → (length L ≤ size h)%nat.
Proof.
  intros Hnd Hin.
  rewrite <- (size_list_to_set (C := gset nat) L) by done.
  rewrite <- size_dom. apply subseteq_size.
  intros a Ha. apply elem_of_list_to_set in Ha. apply elem_of_dom. auto.
Qed.

Lemma repz_size s c t :
  repz s c t → (length (addrs t) + length (ctx_addrs c) ≤ size (mem s))%nat.
Proof.
  intros H. rewrite <- length_app. apply NoDup_length_size.
  - apply H.
  - intros a. eapply repz_lookup; eauto.
Qed.

Lemma length_ctx_addrs c : (length c ≤ length (ctx_addrs c))%nat.
Proof.
  induction c as [|[a k v r|l a k v] c IH]; simpl; [lia| |].
  all: rewrite length_app; lia.
Qed.

Lemma height_addrs t : (height t ≤ length (addrs t))%nat.
Proof.
  induction t as [|l IHl a k v r IHr]; simpl; [lia|].
  rewrite length_app. simpl. lia.
Qed.

Lemma splay_spec s c l a k v r :
  repz s c (T l a k v r) →
  ∃ s', _splay (Some a) s = Ok (Some a) s'
        ∧ repz s' [] (splay_tree (c, T l a k v r)).
Proof.
  intros Hrep. unfold _splay. cbn [truthy negb].
  destruct (splay_loop_spec c s l a k v r (fuel_of s)) as (s' & E & R); [|done|].
  - pose proof (repz_size _ _ _ Hrep). pose proof (length_ctx_addrs c).
    unfold fuel_of. lia.
  - erewrite bind_ok by (unfold with_fuel; exact E). exists s'. done.
Qed.

Lemma items_plug_ext c : ∀ t1 t2, items t1 = items t2 → items (plug c t1) = items (plug c t2).
Proof.
  induction c as [|[a k v r|l a k v] c IH]; intros t1 t2 E; simpl; [done| |].
  all: apply IH; simpl; by rewrite E.
Qed.

Lemma addrs_plug_ext c : ∀ t1 t2, addrs t1 = addrs t2 → addrs (plug c t1) = addrs (plug c t2).
Proof.
  induction c as [|[a k v r|l a k v] c IH]; intros t1 t2 E; simpl; [done| |].
  all: apply IH; simpl; by rewrite E.
Qed.

Lemma splay_z_items c : ∀ l a k v r,
  items (T (splay_z c l r).1 a k v (splay_z c l r).2) = items (plug c (T l a k v r)).
Proof.
  induction c as [|f|f g c IH] using list_ind2; intros l a k v r.
  - done.
  - destruct f; simpl; rewrite <- ?app_assoc; done.
  - destruct f, g; cbn [splay_z plug fill]; rewrite IH; apply items_plug_ext; simpl;
      rewrite <- ?app_assoc; simpl; rewrite <- ?app_assoc; done.
Qed.

Lemma splay_z_addrs c : ∀ l a k v r,
  addrs (T (splay_z c l r).1 a k v (splay_z c l r).2) = addrs (plug c (T l a k v r)).
Proof.
  induction c as [|f|f g c IH] using list_ind2; intros l a k v r.
  - done.
  - destruct f; simpl; rewrite <- ?app_assoc; done.
  - destruct f, g; cbn [splay_z plug fill]; rewrite IH; apply addrs_plug_ext; simpl;
      rewrite <- ?app_assoc; simpl; rewrite <- ?app_assoc; done.
Qed.

Lemma splay_tree_items z : items (splay_tree z) = items (plug z.1 z.2).
Proof. destruct z as [c [|l a k v r]]; [done|]. apply splay_z_items. Qed.

Lemma splay_tree_addrs z : addrs (splay_tree z) = addrs (plug z.1 z.2).
Proof. destruct z as [c [|l a k v r]]; [done|]. apply splay_z_addrs. Qed.

Lemma splay_tree_ptr c t : t ≠ Leaf → ptr (splay_tree (c, t)) = ptr t.
Proof. destruct t; done. Qed.

(** * Descents *)

Lemma repz_down_l s c l a k v r :
  repz s c (T l a k v r) → repz s (FL a k v r :: c) l.
Proof. intros H. apply repz_fill. exact H. Qed.

Lemma repz_down_r s c l a k v r :
  repz s c (T l a k v r) → repz s (FR l a k v :: c) r.
Proof. intros H. apply repz_fill. exact H. Qed.

Lemma descend_repz k s t : ∀ c,
  repz s c t → repz s (descend k t c).1 (descend k t c).2.
Proof.
  induction t as [|l IHl a ka va r IHr]; intros c H; simpl; [done|].
  destruct (k =? ka); [done|]. destruct (k <? ka).
  - destruct l; [done|]. apply IHl, repz_down_l, H.
  - destruct r; [done|]. apply IHr, repz_down_r, H.
Qed.

Lemma descend_plug k t : ∀ c,
  plug (descend k t c).1 (descend k t c).2 = plug c t.
Proof.
  induction t as [|l IHl a ka va r IHr]; intros c; simpl; [done|].
  destruct (k =? ka); [done|]. destruct (k <? ka).
  - destruct l; [done|]. rewrite IHl. done.
  - destruct r; [done|]. rewrite IHr. done.
Qed.

Lemma descend_nonleaf k t : ∀ c, t ≠ Leaf → (descend k t c).2 ≠ Leaf.
Proof.
  induction t as [|l IHl a ka va r IHr]; intros c H; simpl; [done|].
  destruct (k =? ka); [done|]. destruct (k <? ka).
  - destruct l; [done|]. apply IHl. done.
  - destruct r; [done|]. apply IHr. done.
Qed.

Lemma find_node_loop_spec k s t : ∀ c fuel,
  (height t < fuel)%nat →
  repz s c t →
  find_node_loop fuel k (ptr t) s = Ok (ptr (descend k t c).2) s.
Proof.
  induction t as [|l IHl a ka va r IHr]; intros c fuel Hfuel Hrep.
  - destruct fuel; [simpl in Hfuel; lia|]. done.
  - destruct fuel as [|fuel]; [simpl in Hfuel; lia|]. simpl in Hfuel.
    pose proof Hrep as ((Ha & Hl & Hr) & _).
    cbn [find_node_loop ptr truthy negb descend]. step.
    destruct (k =? ka); [done|]. destruct (k <? ka).
    + step. destruct l as [|ll la lk lv lr]; [done|].
      cbn [truthy negb ptr]. change (Some la) with (ptr (T ll la lk lv lr)).
      apply IHl; [lia|]. apply repz_down_l, Hrep.
    + step. destruct r as [|rl ra rk rv rr]; [done|].
      cbn [truthy negb ptr]. change (Some ra) with (ptr (T rl ra rk rv rr)).
      apply IHr; [lia|]. apply repz_down_r, Hrep.
Qed.

Lemma find_loop_spec k s t : ∀ c fuel,
  t ≠ Leaf →
  (height t < fuel)%nat →
  repz s c t →
  ∃ s', find_loop fuel k (ptr t) s = Ok (found_value k (descend k t c).2) s'
        ∧ repz s' [] (splay_tree (descend k t c)).
Proof.
  induction t as [|l IHl a ka va r IHr]; intros c fuel Hne Hfuel Hrep; [done|].
  destruct fuel as [|fuel]; [simpl in Hfuel; lia|]. simpl in Hfuel.
  pose proof Hrep as ((Ha & Hl & Hr) & _).
  cbn [find_loop ptr truthy negb descend]. step.
  destruct (k =? ka) eqn:Ek.
  - destruct (splay_spec _ _ _ _ _ _ _ Hrep) as (s' & E & R).
    rewrite (bind_ok _ _ _ _ _ E).
    pose proof R as ((Ha' & _) & _).
    erewrite get_value_ok by exact Ha'. simpl. rewrite Ek. eauto.
  - destruct (k <? ka).
    + step. destruct l as [|ll la lk lv lr].
      * cbn [truthy negb ptr].
        destruct (splay_spec _ _ _ _ _ _ _ Hrep) as (s' & E & R).
        rewrite (bind_ok _ _ _ _ _ E). simpl. rewrite Ek. eauto.
      * cbn [truthy negb ptr]. change (Some la) with (ptr (T ll la lk lv lr)).
        apply IHl; [done|lia|]. apply repz_down_l, Hrep.
    + step. destruct r as [|rl ra rk rv rr].
      * cbn [truthy negb ptr].
        destruct (splay_spec _ _ _ _ _ _ _ Hrep) as (s' & E & R).
        rewrite (bind_ok _ _ _ _ _ E). simpl. rewrite Ek. eauto.
      * cbn [truthy negb ptr]. change (Some ra) with (ptr (T rl ra rk rv rr)).
        apply IHr; [done|lia|]. apply repz_down_r, Hrep.
Qed.

(** * Insertion *)

Lemma fresh_not_in s c t :
  repz s c t → fresh (dom (mem s)) ∉ addrs t ++ ctx_addrs c.
Proof.
  intros H Hin. eapply repz_lookup in Hin; [|exact H].
  apply elem_of_dom in Hin. exact (is_fresh _ Hin).
Qed.

Lemma repz_set_value s c l a k v v' r :
  repz s c (T l a k v r) →
  repz (mkState (<[a := mkNode k v' (ptr l) (ptr r) (ctx_ptr c)]> (mem s)) (root s))
       c (T l a k v' r).
Proof.
  intros ((Ha & Hl & Hr) & Hc & Hrt & Hnd). unfold repz. simpl in *.
  split_and!; try done; try (by lk).
  all: nd_split Hnd.
  - eapply rep_agree; [|eassumption]. frame_tac.
  - eapply rep_agree; [|eassumption]. frame_tac.
  - eapply rep_ctx_agree; [|eassumption]. frame_tac.
Qed.

Lemma insert_leaf_l s c a ka va r k v n :
  repz s c (T Leaf a ka va r) →
  n ∉ addrs (T Leaf a ka va r) ++ ctx_addrs c →
  repz (mkState
          (<[n := mkNode k v None None (Some a)]>
             (<[a := mkNode ka va (Some n) (ptr r) (ctx_ptr c)]>
                (<[n := mkNode k v None None None]> (mem s))))
          (root s))
       (FL a ka va r :: c) (T Leaf n k v Leaf).
Proof.
  intros ((Ha & Hl & Hr) & Hc & Hrt & Hnd) Hn. unfold repz. simpl in *.
  assert (NoDup (n :: a :: addrs r ++ ctx_addrs c)) as Hnd'.
  { apply NoDup_cons. split; [exact Hn|exact Hnd]. }
  nd_split Hn. nd_split Hnd.
  split_and!; try done; try (by lk).
  - eapply rep_agree; [|eassumption]. frame_tac.
  - eapply rep_ctx_agree; [|eassumption]. frame_tac.
Qed.

Lemma insert_leaf_r s c l a ka va k v n :
  repz s c (T l a ka va Leaf) →
  n ∉ addrs (T l a ka va Leaf) ++ ctx_addrs c →
  repz (mkState
          (<[n := mkNode k v None None (Some a)]>
             (<[a := mkNode ka va (ptr l) (Some n) (ctx_ptr c)]>
                (<[n := mkNode k v None None None]> (mem s))))
          (root s))
       (FR l a ka va :: c) (T Leaf n k v Leaf).
Proof.
  intros ((Ha & Hl & Hr) & Hc & Hrt & Hnd) Hn. unfold repz. simpl in *.
  assert (NoDup (n :: a :: addrs l ++ ctx_addrs c)) as Hnd'.
  { apply NoDup_cons. split.
    - clear -Hn. set_solver.
    - revert Hnd. rewrite <- !app_assoc. simpl. rewrite <- Permutation_middle. done. }
  nd_split Hn. nd_split Hnd.
  split_and!; try done; try (by lk).
  - eapply rep_agree; [|eassumption]. frame_tac.
  - eapply rep_ctx_agree; [|eassumption]. frame_tac.
Qed.

Lemma insert_loop_spec k v s n t : ∀ c fuel,
  t ≠ Leaf →
  (height t < fuel)%nat →
  repz s c t →
  n = fresh (dom (mem s)) →
  ∃ s', insert_loop fuel k v (ptr t) s = Ok tt s'
        ∧ repz s' [] (splay_tree (insert_desc k v n t c)).
Proof.
  induction t as [|l IHl a ka va r IHr]; intros c fuel Hne Hfuel Hrep Hn; [done|].
  destruct fuel as [|fuel]; [simpl in Hfuel; lia|]. simpl in Hfuel.
  pose proof Hrep as ((Ha & Hl & Hr) & _ & _ & Hnd).
  cbn [insert_loop ptr truthy negb insert_desc]. step.
  destruct (k =? ka) eqn:Ek.
  - step. 
    destruct (splay_spec _ _ _ _ _ _ _ (repz_set_value _ _ _ _ _ _ v _ Hrep)) as (s' & E & R).
    rewrite (bind_ok _ _ _ _ _ E). exists s'. split; [reflexivity|exact R].
  - destruct (k <? ka).
    + step. destruct l as [|ll la lk lv lr].
      * cbn [truthy negb ptr insert_desc].
        pose proof (fresh_not_in _ _ _ Hrep) as Hfr. rewrite <- Hn in Hfr.
        pose proof (insert_leaf_l _ _ _ _ _ _ k v n Hrep Hfr) as Hrep'.
        simpl in Hfr. nd_split Hfr.
        step. rewrite <- Hn. repeat step.
        destruct (splay_spec _ _ _ _ _ _ _ Hrep') as (s' & E & R).
        rewrite (bind_ok _ _ _ _ _ E). exists s'. split; [reflexivity|exact R].
      * cbn [truthy negb ptr]. change (Some la) with (ptr (T ll la lk lv lr)).
        apply IHl; [done|lia| |done]. apply repz_down_l, Hrep.
    + step. destruct r as [|rl ra rk rv rr].
      * cbn [truthy negb ptr insert_desc].
        pose proof (fresh_not_in _ _ _ Hrep) as Hfr. rewrite <- Hn in Hfr.
        pose proof (insert_leaf_r _ _ _ _ _ _ k v n Hrep Hfr) as Hrep'.
        simpl in Hfr. nd_split Hfr.
        step. rewrite <- Hn. repeat step.
        destruct (splay_spec _ _ _ _ _ _ _ Hrep') as (s' & E & R).
        rewrite (bind_ok _ _ _ _ _ E). exists s'. split; [reflexivity|exact R].
      * cbn [truthy negb ptr]. change (Some ra) with (ptr (T rl ra rk rv rr)).
        apply IHr; [done|lia| |done]. apply repz_down_r, Hrep.
Qed.

(** * Extremal nodes *)

Lemma leftmost_repz s t : ∀ c,
  repz s c t → repz s (leftmost t c).1 (leftmost t c).2.
Proof.
  induction t as [|l IHl a k v r IHr]; intros c H; simpl; [done|].
  destruct l; [done|]. apply IHl, repz_down_l, H.
Qed.

Lemma rightmost_repz s t : ∀ c,
  repz s c t → repz s (rightmost t c).1 (rightmost t c).2.
Proof.
  induction t as [|l IHl a k v r IHr]; intros c H; simpl; [done|].
  destruct r; [done|]. apply IHr, repz_down_r, H.
Qed.

Lemma leftmost_plug t : ∀ c, plug (leftmost t c).1 (leftmost t c).2 = plug c t.
Proof.
  induction t as [|l IHl a k v r IHr]; intros c; simpl; [done|].
  destruct l; [done|]. rewrite IHl. done.
Qed.

Lemma rightmost_plug t : ∀ c, plug (rightmost t c).1 (rightmost t c).2 = plug c t.
Proof.
  induction t as [|l IHl a k v r IHr]; intros c; simpl; [done|].
  destruct r; [done|]. rewrite IHr. done.
Qed.

Lemma leftmost_shape t : ∀ c, t ≠ Leaf →
  ∃ a k v r, (leftmost t c).2 = T Leaf a k v r.
Proof.
  induction t as [|l IHl a k v r IHr]; intros c H; simpl; [done|].
  destruct l; [eauto|]. apply IHl. done.
Qed.

Lemma rightmost_shape t : ∀ c, t ≠ Leaf →
  ∃ l a k v, (rightmost t c).2 = T l a k v Leaf.
Proof.
  induction t as [|l IHl a k v r IHr]; intros c H; simpl; [done|].
  destruct r; [eauto|]. apply IHr. done.
Qed.

Lemma leftmost_loop_spec s t : ∀ c fuel,
  t ≠ Leaf →
  (height t < fuel)%nat →
  repz s c t →
  leftmost_loop fuel (ptr t) s = Ok (ptr (leftmost t c).2) s.
Proof.
  induction t as [|l IHl a k v r IHr]; intros c fuel Hne Hfuel Hrep; [done|].
  destruct fuel as [|fuel]; [simpl in Hfuel; lia|]. simpl in Hfuel.
  pose proof Hrep as ((Ha & Hl & Hr) & _).
  cbn [leftmost_loop ptr leftmost]. step.
  destruct l as [|ll la lk lv lr]; [reflexivity|].
  cbn [truthy ptr]. change (Some la) with (ptr (T ll la lk lv lr)).
  apply IHl; [done|lia|]. apply repz_down_l, Hrep.
Qed.

Lemma rightmost_loop_spec s t : ∀ c fuel,
  t ≠ Leaf →
  (height t < fuel)%nat →
  repz s c t →
  rightmost_loop fuel (ptr t) s = Ok (ptr (rightmost t c).2) s.
Proof.
  induction t as [|l IHl a k v r IHr]; intros c fuel Hne Hfuel Hrep; [done|].
  destruct fuel as [|fuel]; [simpl in Hfuel; lia|]. simpl in Hfuel.
  pose proof Hrep as ((Ha & Hl & Hr) & _).
  cbn [rightmost_loop ptr rightmost]. step.
  destruct r as [|rl ra rk rv rr]; [reflexivity|].
  cbn [truthy ptr]. change (Some ra) with (ptr (T rl ra rk rv rr)).
  apply IHr; [done|lia|]. apply repz_down_r, Hrep.
Qed.

(** * In-order traversal *)

Lemma _inorder_spec s t : ∀ par fuel acc,
  (height t < fuel)%nat →
  rep (mem s) t par →
  _inorder fuel (ptr t) acc s = Ok (acc ++ items t) s.
Proof.
  induction t as [|l IHl a k v r IHr]; intros par fuel acc Hfuel Hrep.
  - destruct fuel; [simpl in Hfuel; lia|]. simpl. by rewrite app_nil_r.
  - destruct fuel as [|fuel]; [simpl in Hfuel; lia|]. simpl in Hfuel.
    destruct Hrep as (Ha & Hl & Hr).
    cbn [_inorder ptr truthy]. step.
    rewrite (bind_ok _ _ _ _ _ (IHl _ fuel acc ltac:(lia) Hl)).
    repeat step. rewrite (IHr _ fuel _ ltac:(lia) Hr).
    rewrite <- !app_assoc. reflexivity.
Qed.

Lemma fuel_height s c t : repz s c t → (height t < fuel_of s)%nat.
Proof.
  intros H. pose proof (repz_size _ _ _ H). pose proof (height_addrs t).
  unfold fuel_of. lia.
Qed.

Lemma inorder_spec s t : repz s [] t → inorder s = Ok (items t) s.
Proof.
  intros H. unfold inorder. step. unfold with_fuel.
  pose proof (fuel_height _ _ _ H) as Hf.
  destruct H as (Ht & _ & Hrt & _). simpl in Hrt. rewrite Hrt.
  erewrite _inorder_spec; [done|exact Hf|exact Ht].
Qed.

(** * Deletion *)

Lemma rightmost_app t : ∀ c,
  rightmost t c = ((rightmost t []).1 ++ c, (rightmost t []).2).
Proof.
  induction t as [|l IHl a k v r IHr]; intros c; simpl; [done|].
  destruct r as [|rl ra rk rv rr]; [done|].
  rewrite (IHr (FR l a k v :: c)), (IHr [FR l a k v]). simpl.
  by rewrite <- app_assoc.
Qed.

Lemma rightmost_spine t : ∀ c, Forall is_FR c → Forall is_FR (rightmost t c).1.
Proof.
  induction t as [|l IHl a k v r IHr]; intros c Hc; simpl; [done|].
  destruct r as [|rl ra rk rv rr]; [done|].
  apply IHr. constructor; done.
Qed.

Lemma splay_z_spine cL : Forall is_FR cL → ∀ l a k v R,
  splay_z (cL ++ [FL a k v R]) l Leaf = ((splay_z cL l Leaf).1, T Leaf a k v R).
Proof.
  induction cL as [|f|f g c IH] using list_ind2; intros HF l a k v R.
  - done.
  - destruct f; [by inversion HF|]. done.
  - inversion HF as [|? ? Hf HF']; subst. inversion HF' as [|? ? Hg HF'']; subst.
    destruct f; [done|]. destruct g; [done|].
    cbn [app splay_z]. apply IH. done.
Qed.

Lemma splay_z_spine_snd cL : Forall is_FR cL → ∀ l, (splay_z cL l Leaf).2 = Leaf.
Proof.
  induction cL as [|f|f g c IH] using list_ind2; intros HF l.
  - done.
  - destruct f; [by inversion HF|]. done.
  - inversion HF as [|? ? Hf HF']; subst. inversion HF' as [|? ? Hg HF'']; subst.
    destruct f; [done|]. destruct g; [done|].
    cbn [splay_z]. apply IH. done.
Qed.

Ltac nd_goal :=
  repeat (rewrite ?NoDup_app_disj, ?NoDup_cons, ?NoDup_nil,
            ?disj_app_l, ?disj_app_r, ?disj_cons_l, ?disj_cons_r,
            ?(True_iff _ (disj_nil_l _)), ?(True_iff _ (disj_nil_r _)),
            ?not_elem_of_app, ?not_elem_of_cons, ?not_elem_of_nil);
  split_and?; try done; try congruence.

Lemma rep_reparent h l a k v r par par' :
  rep h (T l a k v r) par → a ∉ addrs l → a ∉ addrs r →
  rep (<[a := mkNode k v (ptr l) (ptr r) par']> h) (T l a k v r) par'.
Proof.
  intros (Ha & Hl & Hr) Hal Har. simpl. split_and!.
  - apply lookup_insert_eq.
  - eapply rep_agree; [|eassumption]. frame_tac.
  - eapply rep_agree; [|eassumption]. frame_tac.
Qed.

Lemma delete_root_spec s L a k v R :
  repz s [] (T L a k v R) →
  ∃ s', delete_root (Some a) s = Ok tt s' ∧ repz s' [] (join L R).
Proof.
  intros Hrep. pose proof Hrep as ((Ha & HL & HR) & _ & Hrt & Hnd).
  unfold delete_root. step.
  destruct L as [|ll la lk lv lr]; cbn [ptr truthy negb].
  - repeat step. destruct R as [|rl ra rk rv rr]; cbn [ptr truthy negb join].
    + eexists. split; [reflexivity|]. unfold repz. simpl. split_and!; try done. constructor.
    + destruct HR as (Hra & Hrl & Hrr). simpl in Hnd. nd_split Hnd.
      erewrite set_parent_ok by lk.
      eexists. split; [reflexivity|]. unfold repz. simpl. split_and!; try done; try (by lk).
      * eapply rep_agree; [|eassumption]. frame_tac.
      * eapply rep_agree; [|eassumption]. frame_tac.
      * nd_goal.
  - step. destruct R as [|rl ra rk rv rr]; cbn [ptr truthy negb join].
    + destruct HL as (Hla & Hll & Hlr). simpl in Hnd. nd_split Hnd.
      repeat step. erewrite set_parent_ok by lk.
      eexists. split; [reflexivity|]. unfold repz. simpl. split_and!; try done; try (by lk).
      * eapply rep_agree; [|eassumption]. frame_tac.
      * eapply rep_agree; [|eassumption]. frame_tac.
      * nd_goal.
    + step.
      set (L := T ll la lk lv lr) in *. set (R := T rl ra rk rv rr) in *.
      assert (L ≠ Leaf) as HLne by done.
      pose proof (repz_down_l _ _ _ _ _ _ _ Hrep) as HrepL.
      pose proof (rightmost_repz _ _ _ HrepL) as Hrm.
      pose proof (rightmost_loop_spec s L [FL a k v R] (fuel_of s) HLne
                    (fuel_height _ _ _ HrepL) HrepL) as Erm.
      change (Some la) with (ptr L).
      erewrite bind_ok by (unfold with_fuel; exact Erm).
      rewrite rightmost_app in Hrm. rewrite rightmost_app. cbn [fst snd] in *.
      destruct (rightmost_shape L [] HLne) as (ml & m & km & vm & Eshape).
      rewrite Eshape in *. cbn [ptr].
      destruct (splay_spec _ _ _ _ _ _ _ Hrm) as (s1 & E1 & R1).
      rewrite (bind_ok _ _ _ _ _ E1).
      unfold splay_tree in R1. cbn [fst snd] in R1.
      rewrite splay_z_spine in R1 by (apply rightmost_spine; constructor).
      cbn [fst snd] in R1.
      set (l' := (splay_z (rightmost L []).1 ml Leaf).1) in *.
      clear Erm Hrm HrepL Hrep Ha HL HR Hrt Hnd E1.
      destruct R1 as ((Hm & Hl' & (Ha & _ & HR)) & _ & Hrt & Hnd).
      subst R. destruct HR as (Hra & Hrl & Hrr). simpl in Hnd. nd_split Hnd.
      repeat step.
      eexists. split; [reflexivity|]. unfold repz. simpl. split_and!; try done; try (by lk).
      * eapply rep_agree; [|eassumption]. frame_tac.
      * eapply rep_agree; [|eassumption]. frame_tac.
      * eapply rep_agree; [|eassumption]. frame_tac.
      * nd_goal.
Qed.

(** * The public methods on the represented tree *)

Lemma repz_root s t : repz s [] t → root s = ptr t.
Proof. intros (_ & _ & H & _). exact H. Qed.

Lemma repz_root_node s l a k v r :
  repz s [] (T l a k v r) →
  mem s !! a = Some (mkNode k v (ptr l) (ptr r) None).
Proof. intros ((H & _) & _). exact H. Qed.

Lemma _find_node_spec k s t :
  repz s [] t → _find_node k s = Ok (ptr (descend k t []).2) s.
Proof.
  intros H. unfold _find_node. step. rewrite (repz_root _ _ H).
  destruct t as [|l a ka va r]; [done|]. cbn [ptr truthy negb]. step.
  rewrite (repz_root _ _ H). unfold with_fuel.
  apply (find_node_loop_spec k s (T l a ka va r) []); [|done].
  eapply fuel_height, H.
Qed.

Lemma find_spec_empty k s : repz s [] Leaf → find k s = Ok PyNone s.
Proof. intros H. unfold find. step. rewrite (repz_root _ _ H). done. Qed.

Lemma find_spec k s t :
  t ≠ Leaf →
  repz s [] t →
  ∃ s', find k s = Ok (found_value k (descend k t []).2) s'
        ∧ repz s' [] (splay_tree (descend k t [])).
Proof.
  intros Hne H. unfold find. step. rewrite (repz_root _ _ H).
  destruct t as [|l a ka va r]; [done|]. cbn [ptr truthy negb]. step.
  rewrite (repz_root _ _ H). unfold with_fuel.
  apply (find_loop_spec k s (T l a ka va r) []); [done| |done].
  eapply fuel_height, H.
Qed.

Lemma insert_spec k v s t :
  repz s [] t →
  ∃ s', insert k v s = Ok tt s'
        ∧ repz s' [] (splay_tree (insert_desc k v (fresh (dom (mem s))) t [])).
Proof.
  intros H. unfold insert. step. rewrite (repz_root _ _ H).
  destruct t as [|l a ka va r]; cbn [ptr truthy negb].
  - step. eexists. split; [reflexivity|].
    unfold repz, splay_tree. simpl. split_and!; try done; try (by lk).
    apply NoDup_singleton.
  - step. rewrite (repz_root _ _ H). unfold with_fuel.
    apply (insert_loop_spec k v s _ (T l a ka va r) []); [done| |done|done].
    eapply fuel_height, H.
Qed.

Lemma delete_spec_absent k s t :
  repz s [] t →
  match (descend k t []).2 with
  | Leaf => True
  | T _ _ ka _ _ => ka ≠ k
  end →
  delete k s = Ok false s.
Proof.
  intros H Hk. unfold delete.
  rewrite (bind_ok _ _ _ _ _ (_find_node_spec k s t H)).
  pose proof (descend_repz k s t [] H) as Hd.
  destruct (descend k t []).2 as [|l a ka va r]; [done|].
  cbn [ptr truthy negb]. destruct Hd as ((Ha & _) & _). step.
  apply Z.eqb_neq in Hk. rewrite Hk. done.
Qed.

Lemma delete_spec_present k s t l a v r :
  repz s [] t →
  (descend k t []).2 = T l a k v r →
  ∃ s', delete k s = Ok true s'
        ∧ repz s' [] (unlink (splay_tree (descend k t []))).
Proof.
  intros H Hk. unfold delete.
  rewrite (bind_ok _ _ _ _ _ (_find_node_spec k s t H)).
  pose proof (descend_repz k s t [] H) as Hd.
  unfold splay_tree. rewrite Hk in *.
  cbn [ptr truthy negb]. pose proof Hd as ((Ha & _) & _). step.
  rewrite Z.eqb_refl. cbn [negb].
  destruct (splay_spec _ _ _ _ _ _ _ Hd) as (s1 & E1 & R1).
  rewrite (bind_ok _ _ _ _ _ E1).
  destruct (delete_root_spec _ _ _ _ _ _ R1) as (s2 & E2 & R2).
  rewrite (bind_ok _ _ _ _ _ E2). exists s2. done.
Qed.

Lemma minimum_spec_empty s : repz s [] Leaf → minimum s = Ok None s.
Proof. intros H. unfold minimum. step. rewrite (repz_root _ _ H). done. Qed.

Lemma maximum_spec_empty s : repz s [] Leaf → maximum s = Ok None s.
Proof. intros H. unfold maximum. step. rewrite (repz_root _ _ H). done. Qed.

Lemma minimum_spec s t :
  t ≠ Leaf →
  repz s [] t →
  ∃ s', minimum s = Ok (root_item (leftmost t []).2) s'
        ∧ repz s' [] (splay_tree (leftmost t [])).
Proof.
  intros Hne H. unfold minimum. step. rewrite (repz_root _ _ H).
  destruct t as [|l a ka va r]; [done|]. cbn [ptr truthy negb]. step.
  rewrite (repz_root _ _ H).
  pose proof (leftmost_loop_spec s _ [] (fuel_of s) Hne (fuel_height _ _ _ H) H) as E.
  erewrite bind_ok by (unfold with_fuel; exact E).
  pose proof (leftmost_repz _ _ _ H) as Hd.
  destruct (leftmost_shape _ [] Hne) as (a' & k' & v' & r' & Es).
  unfold splay_tree. rewrite Es in *. cbn [ptr snd].
  destruct (splay_spec _ _ _ _ _ _ _ Hd) as (s1 & E1 & R1).
  rewrite (bind_ok _ _ _ _ _ E1).
  unfold splay_tree in R1. cbn [fst snd] in R1.
  pose proof (repz_root_node _ _ _ _ _ _ R1) as Ha'.
  repeat step. exists s1. done.
Qed.

Lemma maximum_spec s t :
  t ≠ Leaf →
  repz s [] t →
  ∃ s', maximum s = Ok (root_item (rightmost t []).2) s'
        ∧ repz s' [] (splay_tree (rightmost t [])).
Proof.
  intros Hne H. unfold maximum. step. rewrite (repz_root _ _ H).
  destruct t as [|l a ka va r]; [done|]. cbn [ptr truthy negb]. step.
  rewrite (repz_root _ _ H).
  pose proof (rightmost_loop_spec s _ [] (fuel_of s) Hne (fuel_height _ _ _ H) H) as E.
  erewrite bind_ok by (unfold with_fuel; exact E).
  pose proof (rightmost_repz _ _ _ H) as Hd.
  destruct (rightmost_shape _ [] Hne) as (l' & a' & k' & v' & Es).
  unfold splay_tree. rewrite Es in *. cbn [ptr snd].
  destruct (splay_spec _ _ _ _ _ _ _ Hd) as (s1 & E1 & R1).
  rewrite (bind_ok _ _ _ _ _ E1).
  unfold splay_tree in R1. cbn [fst snd] in R1.
  pose proof (repz_root_node _ _ _ _ _ _ R1) as Ha'.
  repeat step. exists s1. done.
Qed.

(** * The ordering invariant and the contents of a tree *)

Lemma keys_node l a k v r : keys (T l a k v r) = keys l ++ k :: keys r.
Proof. unfold keys. simpl. by rewrite fmap_app. Qed.

Lemma ascending_app xs ys :
  ascending (xs ++ ys)
  ↔ ascending xs ∧ ascending ys ∧ (∀ x y, x ∈ xs → y ∈ ys → x < y).
Proof. unfold ascending. rewrite StronglySorted_app. tauto. Qed.

Lemma ascending_cons x xs :
  ascending (x :: xs) ↔ ascending xs ∧ (∀ y, y ∈ xs → x < y).
Proof. unfold ascending. rewrite StronglySorted_cons, Forall_forall. tauto. Qed.

Lemma ascending_node l a k v r :
  ascending (keys (T l a k v r))
  ↔ ascending (keys l) ∧ ascending (keys r)
    ∧ (∀ x, x ∈ keys l → x < k) ∧ (∀ x, x ∈ keys r → k < x).
Proof.
  rewrite keys_node, ascending_app, ascending_cons. split.
  - intros (Hl & (Hr & Hkr) & Hlr). split_and!; try done.
    intros x Hx. apply (Hlr x k Hx). set_solver.
  - intros (Hl & Hr & Hlk & Hkr). split_and!; try done.
    intros x y Hx Hy. apply elem_of_cons in Hy as [->|Hy]; [auto|].
    specialize (Hlk x Hx). specialize (Hkr y Hy). lia.
Qed.

Lemma ascending_bst t : ascending (keys t) ↔ bst t.
Proof.
  induction t as [|l IHl a k v r IHr].
  - simpl. split; [done|]. intros _. constructor.
  - rewrite ascending_node. simpl. rewrite IHl, IHr. tauto.
Qed.

Lemma ascending_NoDup l : ascending l → NoDup l.
Proof.
  induction l as [|x l IH]; [constructor|].
  rewrite ascending_cons. intros (Hl & Hx). constructor; [|auto].
  intros Hin. specialize (Hx x Hin). lia.
Qed.

Lemma assoc_None k l : k ∉ l.*1 → assoc k l = None.
Proof.
  induction l as [|[k' v'] l IH]; simpl; [done|].
  intros H. apply not_elem_of_cons in H as (Hne & H).
  apply Z.eqb_neq in Hne. rewrite Hne. auto.
Qed.

Lemma assoc_Some_elem k v l : assoc k l = Some v → (k, v) ∈ l.
Proof.
  induction l as [|[k' v'] l IH]; simpl; [done|].
  destruct (k =? k') eqn:E.
  - apply Z.eqb_eq in E as ->. intros [= ->]. set_solver.
  - intros H. set_solver.
Qed.

Lemma assoc_is_Some k l : k ∈ l.*1 ↔ is_Some (assoc k l).
Proof.
  induction l as [|[k' v'] l IH]; simpl.
  - split; [set_solver|]. intros [? ?]. done.
  - destruct (k =? k') eqn:E.
    + apply Z.eqb_eq in E as ->. split; [eauto|set_solver].
    + apply Z.eqb_neq in E. rewrite <- IH. set_solver.
Qed.

Lemma assoc_app k xs ys :
  assoc k (xs ++ ys) = match assoc k xs with Some v => Some v | None => assoc k ys end.
Proof.
  induction xs as [|[k' v'] xs IH]; simpl; [done|].
  destruct (k =? k'); done.
Qed.

Lemma descend_tfind k t : ∀ c, hit k (descend k t c).2 = tfind k t.
Proof.
  induction t as [|l IHl a ka va r IHr]; intros c; simpl; [done|].
  destruct (k =? ka) eqn:E; [simpl; by rewrite E|].
  destruct (k <? ka).
  - destruct l; [simpl; by rewrite E|]. apply IHl.
  - destruct r; [simpl; by rewrite E|]. apply IHr.
Qed.

Lemma tfind_assoc k t : ascending (keys t) → tfind k t = assoc k (items t).
Proof.
  induction t as [|l IHl a ka va r IHr]; [done|].
  rewrite ascending_node. intros (Hl & Hr & Hlk & Hkr).
  simpl. rewrite assoc_app. simpl.
  destruct (k =? ka) eqn:E.
  - apply Z.eqb_eq in E as ->. rewrite (assoc_None ka (items l)); [done|].
    intros Hin. specialize (Hlk _ Hin). lia.
  - destruct (k <? ka) eqn:E'.
    + apply Z.ltb_lt in E'. rewrite IHl by done.
      destruct (assoc k (items l)); [done|]. rewrite (assoc_None k (items r)); [done|].
      intros Hin. specialize (Hkr _ Hin). lia.
    + apply Z.ltb_ge in E'. apply Z.eqb_neq in E.
      rewrite IHr by done. rewrite (assoc_None k (items l)); [done|].
      intros Hin. specialize (Hlk _ Hin). lia.
Qed.

Lemma found_value_hit k t : found_value k t = default PyNone (hit k t).
Proof. destruct t; simpl; [done|]. destruct (k =? k0); done. Qed.

(** ** Contents after an insertion *)

Lemma insert_desc_plug k v n t : ∀ c,
  plug (insert_desc k v n t c).1 (insert_desc k v n t c).2 = plug c (tins k v n t).
Proof.
  induction t as [|l IHl a ka va r IHr]; intros c; simpl; [done|].
  destruct (k =? ka); [done|]. destruct (k <? ka).
  - rewrite IHl. done.
  - rewrite IHr. done.
Qed.

Lemma insert_desc_root k v n t : ∀ c,
  ∃ l a r, (insert_desc k v n t c).2 = T l a k v r.
Proof.
  induction t as [|l IHl a ka va r IHr]; intros c; simpl; [eauto|].
  destruct (k =? ka) eqn:E.
  - apply Z.eqb_eq in E as ->. eauto.
  - destruct (k <? ka); eauto.
Qed.

Lemma upsert_app_l k v xs y ys :
  k < y.1 → upsert k v (xs ++ y :: ys) = upsert k v xs ++ y :: ys.
Proof.
  intros Hlt. induction xs as [|[k' v'] xs IH]; simpl.
  - destruct y as [ky vy]. simpl in *.
    assert ((k =? ky) = false) as -> by (apply Z.eqb_neq; lia).
    assert ((k <? ky) = true) as -> by (apply Z.ltb_lt; lia). done.
  - destruct (k =? k'); [done|]. destruct (k <? k'); [done|]. by rewrite IH.
Qed.

Lemma upsert_app_r k v xs ys :
  (∀ x, x ∈ xs.*1 → x < k) → upsert k v (xs ++ ys) = xs ++ upsert k v ys.
Proof.
  induction xs as [|[k' v'] xs IH]; intros H; simpl; [done|].
  assert (k' < k) as Hk by (apply H; set_solver).
  assert ((k =? k') = false) as -> by (apply Z.eqb_neq; lia).
  assert ((k <? k') = false) as -> by (apply Z.ltb_ge; lia).
  rewrite IH; [done|]. intros x Hx. apply H. set_solver.
Qed.

Lemma tins_items k v n t :
  ascending (keys t) → items (tins k v n t) = upsert k v (items t).
Proof.
  induction t as [|l IHl a ka va r IHr]; [done|].
  rewrite ascending_node. intros (Hl & Hr & Hlk & Hkr). simpl.
  destruct (k =? ka) eqn:E.
  - apply Z.eqb_eq in E as ->. simpl.
    rewrite upsert_app_r by done. simpl. by rewrite Z.eqb_refl.
  - destruct (k <? ka) eqn:E'; simpl.
    + apply Z.ltb_lt in E'. rewrite upsert_app_l by done. by rewrite IHl.
    + rewrite upsert_app_r.
      * simpl. rewrite E, E'. by rewrite IHr.
      * apply Z.ltb_ge in E'. intros x Hx. specialize (Hlk x Hx). lia.
Qed.

Lemma upsert_keys k v l x : x ∈ (upsert k v l).*1 ↔ x = k ∨ x ∈ l.*1.
Proof.
  induction l as [|[k' v'] l IH]; simpl.
  - set_solver.
  - destruct (k =? k') eqn:E.
    + apply Z.eqb_eq in E as ->. set_solver.
    + destruct (k <? k'); set_solver.
Qed.

Lemma upsert_ascending k v l : ascending l.*1 → ascending (upsert k v l).*1.
Proof.
  induction l as [|[k' v'] l IH]; simpl.
  - intros _. apply ascending_cons. split; [constructor|set_solver].
  - rewrite ascending_cons. intros (Hl & Hk').
    destruct (k =? k') eqn:E.
    + apply Z.eqb_eq in E as ->. simpl. apply ascending_cons. done.
    + destruct (k <? k') eqn:E'; simpl.
      * apply Z.ltb_lt in E'. apply ascending_cons. split.
        -- apply ascending_cons. done.
        -- intros y Hy. apply elem_of_cons in Hy as [->|Hy]; [done|].
           specialize (Hk' y Hy). lia.
      * apply Z.ltb_ge in E'. apply Z.eqb_neq in E.
        apply ascending_cons. split; [auto|].
        intros y Hy. apply upsert_keys in Hy as [->|Hy]; [lia|auto].
Qed.

Lemma upsert_assoc_eq k v l : assoc k (upsert k v l) = Some v.
Proof.
  induction l as [|[k' v'] l IH]; simpl.
  - by rewrite Z.eqb_refl.
  - destruct (k =? k') eqn:E; simpl.
    + by rewrite Z.eqb_refl.
    + destruct (k <? k'); simpl; [by rewrite Z.eqb_refl|]. by rewrite E.
Qed.

Lemma upsert_assoc_ne k k' v l : k' ≠ k → assoc k' (upsert k v l) = assoc k' l.
Proof.
  intros Hne. apply Z.eqb_neq in Hne.
  induction l as [|[k0 v0] l IH]; simpl.
  - by rewrite Hne.
  - destruct (k =? k0) eqn:E; simpl.
    + apply Z.eqb_eq in E as <-. by rewrite Hne.
    + destruct (k <? k0); simpl; [by rewrite Hne|]. by rewrite IH.
Qed.

Lemma upsert_length_absent k v l :
  k ∉ l.*1 → length (upsert k v l) = S (length l).
Proof.
  induction l as [|[k' v'] l IH]; simpl; [done|].
  intros H. apply not_elem_of_cons in H as (Hne & H).
  apply Z.eqb_neq in Hne. rewrite Hne.
  destruct (k <? k'); simpl; [done|]. by rewrite IH.
Qed.

Lemma upsert_length_present k v l :
  ascending l.*1 → k ∈ l.*1 → length (upsert k v l) = length l.
Proof.
  induction l as [|[k' v'] l IH]; simpl; [set_solver|].
  rewrite ascending_cons. intros (Hl & Hk') Hin.
  destruct (k =? k') eqn:E; [done|]. apply Z.eqb_neq in E.
  apply elem_of_cons in Hin as [->|Hin]; [done|].
  specialize (Hk' k Hin).
  assert ((k <? k') = false) as -> by (apply Z.ltb_ge; lia).
  simpl. by rewrite IH.
Qed.

(** ** Contents after a deletion *)

Lemma rightmost_splay_items L ml m km vm x :
  (rightmost L []).2 = T ml m km vm x →
  x = Leaf ∧ items (splay_z (rightmost L []).1 ml Leaf).1 ++ [(km, vm)] = items L.
Proof.
  intros Es.
  assert (L ≠ Leaf) as HL by (intros ->; done).
  destruct (rightmost_shape L [] HL) as (ml' & m' & km' & vm' & Es').
  rewrite Es in Es'. injection Es' as -> -> -> -> ->. split; [done|].
  pose proof (rightmost_plug L []) as Hp.
  pose proof (rightmost_spine L [] ltac:(constructor)) as Hs.
  destruct (rightmost L []) as [cL tL]. simpl in *. subst tL.
  pose proof (splay_z_items cL ml' m' km' vm' Leaf) as Hi.
  rewrite Hp in Hi. rewrite splay_z_spine_snd in Hi by done.
  rewrite <- Hi. done.
Qed.

Lemma join_items L R : items (join L R) = items L ++ items R.
Proof.
  destruct L as [|ll la lk lv lr]; [done|].
  destruct R as [|rl ra rk rv rr]; [simpl; by rewrite app_nil_r|].
  unfold join.
  destruct (rightmost (T ll la lk lv lr) []).2 as [|ml m km vm x] eqn:Es.
  - destruct (rightmost_shape (T ll la lk lv lr) [] ltac:(done)) as (? & ? & ? & ? & E).
    rewrite E in Es. done.
  - apply rightmost_splay_items in Es as (-> & Hi).
    rewrite <- Hi.
    change (items (T ?l m km vm ?R)) with (items l ++ (km, vm) :: items R).
    rewrite <- app_assoc. done.
Qed.

Lemma remove_key_app k v xs ys :
  k ∉ xs.*1 → remove_key k (xs ++ (k, v) :: ys) = xs ++ ys.
Proof.
  induction xs as [|[k' v'] xs IH]; simpl; intros H.
  - by rewrite Z.eqb_refl.
  - apply not_elem_of_cons in H as (Hne & H).
    apply Z.eqb_neq in Hne. rewrite Hne. by rewrite IH.
Qed.

Lemma remove_key_absent k l : k ∉ l.*1 → remove_key k l = l.
Proof.
  induction l as [|[k' v'] l IH]; simpl; intros H; [done|].
  apply not_elem_of_cons in H as (Hne & H).
  apply Z.eqb_neq in Hne. rewrite Hne. by rewrite IH.
Qed.

Lemma remove_key_keys k l x :
  ascending l.*1 → x ∈ (remove_key k l).*1 ↔ x ∈ l.*1 ∧ x ≠ k.
Proof.
  induction l as [|[k' v'] l IH]; simpl.
  - set_solver.
  - rewrite ascending_cons. intros (Hl & Hk').
    destruct (k =? k') eqn:E.
    + apply Z.eqb_eq in E as ->. split.
      * intros Hx. specialize (Hk' x Hx). split; [set_solver|lia].
      * intros (Hx & Hne). set_solver.
    + apply Z.eqb_neq in E. simpl. rewrite !elem_of_cons, IH by done.
      split; [|tauto]. intros [->|?]; [split; [auto|congruence]|tauto].
Qed.

Lemma remove_key_ascending k l : ascending l.*1 → ascending (remove_key k l).*1.
Proof.
  induction l as [|[k' v'] l IH]; simpl; [done|].
  intros H. pose proof H as H'. apply ascending_cons in H' as (Hl & Hk').
  destruct (k =? k'); [done|]. simpl. apply ascending_cons. split; [auto|].
  intros y Hy. apply remove_key_keys in Hy as (Hy & _); auto.
Qed.

Lemma remove_key_assoc_eq k l : ascending l.*1 → assoc k (remove_key k l) = None.
Proof.
  intros H. apply assoc_None. intros Hin.
  apply remove_key_keys in Hin as (_ & Hne); done.
Qed.

Lemma remove_key_assoc_ne k k' l : k' ≠ k → assoc k' (remove_key k l) = assoc k' l.
Proof.
  intros Hne. apply Z.eqb_neq in Hne.
  induction l as [|[k0 v0] l IH]; simpl; [done|].
  destruct (k =? k0) eqn:E; simpl.
  - apply Z.eqb_eq in E as <-. by rewrite Hne.
  - by rewrite IH.
Qed.

Lemma remove_key_length k l :
  k ∈ l.*1 → S (length (remove_key k l)) = length l.
Proof.
  induction l as [|[k' v'] l IH]; simpl; [set_solver|].
  intros Hin. destruct (k =? k') eqn:E; [done|]. apply Z.eqb_neq in E.
  apply elem_of_cons in Hin as [->|Hin]; [done|]. simpl. by rewrite IH.
Qed.

(** ** Extremal entries *)

Lemma items_nonempty t : t ≠ Leaf → items t ≠ [].
Proof. destruct t; [done|]. intros _. simpl. by destruct (items t1). Qed.

Lemma leftmost_head t : ∀ c, t ≠ Leaf → root_item (leftmost t c).2 = head (items t).
Proof.
  induction t as [|l IHl a k v r IHr]; intros c H; [done|]. simpl.
  destruct l as [|ll la lk lv lr]; [done|].
  rewrite IHl by done.
  pose proof (items_nonempty (T ll la lk lv lr) ltac:(done)) as Hne.
  destruct (items (T ll la lk lv lr)); done.
Qed.

Lemma rightmost_last t : ∀ c, t ≠ Leaf → root_item (rightmost t c).2 = last (items t).
Proof.
  induction t as [|l IHl a k v r IHr]; intros c H; [done|]. simpl.
  destruct r as [|rl ra rk rv rr].
  - simpl. by rewrite last_snoc.
  - rewrite IHr by done.
    pose proof (items_nonempty (T rl ra rk rv rr) ltac:(done)) as Hne.
    rewrite last_app. rewrite last_cons.
    destruct (last (items (T rl ra rk rv rr))) eqn:E; [done|].
    apply last_None in E. done.
Qed.

Lemma head_elem {A} (l : list A) x : head l = Some x → x ∈ l.
Proof. destruct l; simpl; [done|]. intros [= ->]. set_solver. Qed.

Lemma last_elem {A} (l : list A) x : last l = Some x → x ∈ l.
Proof.
  intros H. apply last_Some in H as (l' & ->). set_solver.
Qed.

Lemma ascending_head_min (l : list (Z * pyval)) k v x :
  ascending l.*1 → head l = Some (k, v) → x ∈ l.*1 → k ≤ x.
Proof.
  destruct l as [|[k' v'] l]; simpl; [done|].
  rewrite ascending_cons. intros (_ & Hk) [= -> ->] Hx.
  apply elem_of_cons in Hx as [->|Hx]; [lia|]. specialize (Hk x Hx). lia.
Qed.

Lemma ascending_last_max (l : list (Z * pyval)) k v x :
  ascending l.*1 → last l = Some (k, v) → x ∈ l.*1 → x ≤ k.
Proof.
  intros Hasc Hl Hx. apply last_Some in Hl as (l' & ->).
  rewrite fmap_app in Hasc, Hx. simpl in *.
  apply ascending_app in Hasc as (_ & _ & Hlt).
  apply elem_of_app in Hx as [Hx|Hx].
  - specialize (Hlt x k Hx). assert (x < k) by (apply Hlt; set_solver). lia.
  - assert (x = k) as -> by set_solver. lia.
Qed.

(** * The tree as an ordered association list *)

Lemma contents_wf s : wf s ↔ ∃ l, contents s l.
Proof.
  split.
  - intros (t & H & Ha). exists (items t), t. done.
  - intros (l & t & H & <- & Ha). exists t. done.
Qed.

Lemma contents_init : contents init [].
Proof.
  exists Leaf. split_and!; [|done|constructor].
  unfold repz. simpl. split_and!; try done. constructor.
Qed.

Lemma contents_inorder s l : contents s l → inorder s = Ok l s.
Proof. intros (t & H & <- & _). by apply inorder_spec. Qed.

Lemma contents_nil_root s l : contents s l → (root s = None ↔ l = []).
Proof.
  intros (t & H & <- & _). rewrite (repz_root _ _ H).
  destruct t as [|tl a k v tr]; simpl; [done|].
  split; [done|]. intros E. by destruct (items tl).
Qed.

Lemma hit_assoc k t :
  ascending (keys t) → hit k (descend k t []).2 = assoc k (items t).
Proof. intros H. rewrite descend_tfind. by apply tfind_assoc. Qed.

Lemma hit_Some k t v :
  hit k t = Some v → ∃ l a r, t = T l a k v r.
Proof.
  destruct t as [|l a ka va r]; simpl; [done|].
  destruct (k =? ka) eqn:E; [|done]. apply Z.eqb_eq in E as ->.
  intros [= ->]. eauto.
Qed.

Lemma find_contents k s l :
  contents s l → l ≠ [] →
  ∃ s' a n,
    find k s = Ok (default PyNone (assoc k l)) s'
    ∧ contents s' l
    ∧ _find_node k s = Ok (Some a) s
    ∧ root s' = Some a
    ∧ mem s' !! a = Some n
    ∧ (k ∈ l.*1 → key n = k).
Proof.
  intros (t & H & <- & Ha) Hne.
  assert (t ≠ Leaf) as Ht by (intros ->; done).
  destruct (find_spec k s t Ht H) as (s' & E & R).
  rewrite found_value_hit, hit_assoc in E by done.
  pose proof (_find_node_spec k s t H) as En.
  pose proof (descend_nonleaf k t [] Ht) as Hd.
  pose proof (splay_tree_items (descend k t [])) as Hi.
  rewrite descend_plug in Hi. simpl in Hi.
  pose proof (hit_assoc k t Ha) as Hh.
  unfold splay_tree in *.
  destruct (descend k t []).2 as [|dl a ka va dr]; [done|].
  exists s', a, (mkNode ka va (ptr (splay_z (descend k t []).1 dl dr).1)
                   (ptr (splay_z (descend k t []).1 dl dr).2) None).
  split_and!; try done.
  - eexists. split_and!; [exact R|exact Hi|done].
  - apply (repz_root _ _ R).
  - apply (repz_root_node _ _ _ _ _ _ R).
  - intros Hin. apply assoc_is_Some in Hin as (v & Hv).
    rewrite Hv in Hh. apply hit_Some in Hh as (? & ? & ? & [= _ _ -> _ _]). done.
Qed.

Lemma find_contents_empty k s : contents s [] → find k s = Ok PyNone s.
Proof.
  intros (t & H & Hi & _). apply find_spec_empty.
  destruct t; [done|]. simpl in Hi. by destruct (items t1).
Qed.

Lemma insert_desc_ptr k v n t : ∀ c,
  ptr (insert_desc k v n t c).2
  = match hit k (descend k t c).2 with
    | Some _ => ptr (descend k t c).2
    | None => Some n
    end.
Proof.
  induction t as [|l IHl a ka va r IHr]; intros c; simpl; [done|].
  destruct (k =? ka) eqn:E; [simpl; by rewrite E|].
  destruct (k <? ka).
  - destruct l; [simpl; by rewrite E|]. apply IHl.
  - destruct r; [simpl; by rewrite E|]. apply IHr.
Qed.

Lemma insert_contents k v s l :
  contents s l →
  ∃ s' a,
    insert k v s = Ok tt s'
    ∧ contents s' (upsert k v l)
    ∧ root s' = Some a
    ∧ (∃ nl nr, mem s' !! a = Some (mkNode k v nl nr None))
    ∧ (k ∈ l.*1 → _find_node k s = Ok (Some a) s)
    ∧ (k ∉ l.*1 → a = fresh (dom (mem s))).
Proof.
  intros (t & H & <- & Ha).
  destruct (insert_spec k v s t H) as (s' & E & R).
  set (n := fresh (dom (mem s))) in *.
  pose proof (splay_tree_items (insert_desc k v n t [])) as Hi.
  rewrite insert_desc_plug in Hi. simpl in Hi. rewrite tins_items in Hi by done.
  destruct (insert_desc_root k v n t []) as (dl & a & dr & Ed).
  unfold splay_tree in *. rewrite Ed in *.
  exists s', a. split_and!; try done.
  - eexists. split_and!; [exact R|exact Hi|]. by apply upsert_ascending.
  - apply (repz_root _ _ R).
  - eexists _, _. apply (repz_root_node _ _ _ _ _ _ R).
  - intros Hin. rewrite (_find_node_spec k s t H). f_equal.
    pose proof (insert_desc_ptr k v n t []) as Hp. rewrite Ed in Hp.
    rewrite hit_assoc in Hp by done.
    apply assoc_is_Some in Hin as (v' & Hv). rewrite Hv in Hp. done.
  - intros Hin.
    pose proof (insert_desc_ptr k v n t []) as Hp. rewrite Ed in Hp.
    rewrite hit_assoc in Hp by done.
    rewrite assoc_None in Hp by done. by injection Hp.
Qed.

Lemma delete_contents_absent k s l :
  contents s l → k ∉ l.*1 → delete k s = Ok false s.
Proof.
  intros (t & H & <- & Ha) Hk.
  apply (delete_spec_absent k s t H).
  pose proof (hit_assoc k t Ha) as Hh. rewrite assoc_None in Hh by done.
  destruct (descend k t []).2 as [|dl a ka va dr]; [done|].
  simpl in Hh. intros <-. by rewrite Z.eqb_refl in Hh.
Qed.

Lemma unlink_items k t l a v r :
  ascending (keys t) →
  (descend k t []).2 = T l a k v r →
  items (unlink (splay_tree (descend k t []))) = remove_key k (items t).
Proof.
  intros Ha Hd.
  pose proof (splay_tree_items (descend k t [])) as Hi.
  rewrite descend_plug in Hi. simpl in Hi.
  unfold splay_tree in *. rewrite Hd in *. simpl unlink.
  rewrite join_items. rewrite <- Hi. simpl.
  rewrite remove_key_app; [done|].
  unfold keys in Ha. rewrite <- Hi in Ha. simpl in Ha.
  rewrite fmap_app in Ha. apply ascending_app in Ha as (_ & _ & Hlt).
  intros Hin. specialize (Hlt k k Hin). simpl in Hlt.
  assert (k < k) by (apply Hlt; set_solver). lia.
Qed.

Lemma delete_contents_present k s l :
  contents s l → k ∈ l.*1 →
  ∃ s', delete k s = Ok true s' ∧ contents s' (remove_key k l).
Proof.
  intros (t & H & <- & Ha) Hk.
  pose proof (hit_assoc k t Ha) as Hh.
  apply assoc_is_Some in Hk as (v & Hv). rewrite Hv in Hh.
  apply hit_Some in Hh as (dl & a & dr & Hd).
  destruct (delete_spec_present k s t dl a v dr H Hd) as (s' & E & R).
  exists s'. split; [done|]. eexists. split_and!; [exact R| |].
  - by eapply unlink_items.
  - by apply remove_key_ascending.
Qed.

Lemma minimum_contents s l :
  contents s l → l ≠ [] →
  ∃ s' a k v,
    minimum s = Ok (Some (k, v)) s'
    ∧ contents s' l
    ∧ head l = Some (k, v)
    ∧ with_fuel (λ fuel, leftmost_loop fuel (root s)) s = Ok (Some a) s
    ∧ root s' = Some a
    ∧ (∃ nl nr, mem s' !! a = Some (mkNode k v nl nr None)).
Proof.
  intros (t & H & <- & Ha) Hne.
  assert (t ≠ Leaf) as Ht by (intros ->; done).
  destruct (minimum_spec s t Ht H) as (s' & E & R).
  pose proof (leftmost_loop_spec s t [] (fuel_of s) Ht (fuel_height _ _ _ H) H) as El.
  pose proof (splay_tree_items (leftmost t [])) as Hi.
  rewrite leftmost_plug in Hi. simpl in Hi.
  pose proof (leftmost_head t [] Ht) as Hh.
  destruct (leftmost_shape t [] Ht) as (a & k & v & r & Es).
  unfold splay_tree in *. rewrite Es in *. simpl in Hh, E, El.
  exists s', a, k, v. split_and!; try done.
  - eexists. split_and!; [exact R|exact Hi|done].
  - unfold with_fuel. rewrite (repz_root _ _ H). exact El.
  - apply (repz_root _ _ R).
  - eexists _, _. apply (repz_root_node _ _ _ _ _ _ R).
Qed.

Lemma maximum_contents s l :
  contents s l → l ≠ [] →
  ∃ s' a k v,
    maximum s = Ok (Some (k, v)) s'
    ∧ contents s' l
    ∧ last l = Some (k, v)
    ∧ with_fuel (λ fuel, rightmost_loop fuel (root s)) s = Ok (Some a) s
    ∧ root s' = Some a
    ∧ (∃ nl nr, mem s' !! a = Some (mkNode k v nl nr None)).
Proof.
  intros (t & H & <- & Ha) Hne.
  assert (t ≠ Leaf) as Ht by (intros ->; done).
  destruct (maximum_spec s t Ht H) as (s' & E & R).
  pose proof (rightmost_loop_spec s t [] (fuel_of s) Ht (fuel_height _ _ _ H) H) as El.
  pose proof (splay_tree_items (rightmost t [])) as Hi.
  rewrite rightmost_plug in Hi. simpl in Hi.
  pose proof (rightmost_last t [] Ht) as Hh.
  destruct (rightmost_shape t [] Ht) as (l & a & k & v & Es).
  unfold splay_tree in *. rewrite Es in *. simpl in Hh, E, El.
  exists s', a, k, v. split_and!; try done.
  - eexists. split_and!; [exact R|exact Hi|done].
  - unfold with_fuel. rewrite (repz_root _ _ H). exact El.
  - apply (repz_root _ _ R).
  - eexists _, _. apply (repz_root_node _ _ _ _ _ _ R).
Qed.

Lemma minimum_contents_empty s : contents s [] → minimum s = Ok None s.
Proof.
  intros (t & H & Hi & _). apply minimum_spec_empty.
  destruct t; [done|]. simpl in Hi. by destruct (items t1).
Qed.

Lemma maximum_contents_empty s : contents s [] → maximum s = Ok None s.
Proof.
  intros (t & H & Hi & _). apply maximum_spec_empty.
  destruct t; [done|]. simpl in Hi. by destruct (items t1).
Qed.

(** ** Sequences of operations *)

Lemma run_op_contents o s l :
  contents s l → ∃ s', run_op o s = Some s' ∧ contents s' (apply_op o l).
Proof.
  intros H. destruct o as [k v|k|k| |]; simpl; unfold exec.
  - destruct (insert_contents k v s l H) as (s' & a & E & Hc & _). rewrite E. eauto.
  - destruct l as [|x l].
    + rewrite (find_contents_empty k s H). eauto.
    + destruct (find_contents k s (x :: l) H ltac:(done)) as (s' & a & n & E & Hc & _).
      rewrite E. eauto.
  - destruct (decide (k ∈ l.*1)) as [Hin|Hnin].
    + destruct (delete_contents_present k s l H Hin) as (s' & E & Hc). rewrite E. eauto.
    + rewrite (delete_contents_absent k s l H Hnin).
      rewrite remove_key_absent by done. eauto.
  - destruct l as [|x l].
    + rewrite (minimum_contents_empty s H). eauto.
    + destruct (minimum_contents s (x :: l) H ltac:(done)) as (s' & a & k & v & E & Hc & _).
      rewrite E. eauto.
  - destruct l as [|x l].
    + rewrite (maximum_contents_empty s H). eauto.
    + destruct (maximum_contents s (x :: l) H ltac:(done)) as (s' & a & k & v & E & Hc & _).
      rewrite E. eauto.
Qed.

Lemma run_contents ops : ∀ s l,
  contents s l →
  ∃ s', run ops s = Some s' ∧ contents s' (foldl (λ l o, apply_op o l) l ops).
Proof.
  induction ops as [|o ops IH]; intros s l H; simpl; [eauto|].
  destruct (run_op_contents o s l H) as (s1 & E & H1). rewrite E.
  apply IH. exact H1.
Qed.

Lemma reachable_contents s : reachable s → ∃ l, contents s l.
Proof.
  induction 1 as [|s o s' _ (l & IH) E].
  - exists []. apply contents_init.
  - destruct (run_op_contents o s l IH) as (s1 & E1 & H1).
    rewrite E in E1. injection E1 as ->. eauto.
Qed.

Lemma run_reachable ops : ∀ s s', reachable s → run ops s = Some s' → reachable s'.
Proof.
  induction ops as [|o ops IH]; intros s s' Hr; simpl.
  - intros [= ->]. done.
  - destruct (run_op o s) as [s1|] eqn:E; [|done].
    apply IH. by eapply reachable_step.
Qed.

(** * Parent links *)

Lemma ptr_Some t a : ptr t = Some a → ∃ l k v r, t = T l a k v r.
Proof. destruct t; simpl; [done|]. intros [= ->]. eauto. Qed.

Lemma in_tree_rep s t a :
  repz s [] t → in_tree s a → ∃ l k v r par, rep (mem s) (T l a k v r) par.
Proof.
  intros H Hin. induction Hin as [a Hr|a n c _ IH Ha Hl|a n c _ IH Ha Hr].
  - rewrite (repz_root _ _ H) in Hr. apply ptr_Some in Hr as (l & k & v & r & ->).
    exists l, k, v, r, None. apply H.
  - destruct IH as (l & k & v & r & par & (Ha' & Hl' & Hr')).
    rewrite Ha in Ha'. injection Ha' as ->. simpl in Hl.
    apply ptr_Some in Hl as (ll & lk & lv & lr & ->). eauto 10.
  - destruct IH as (l & k & v & r & par & (Ha' & Hl' & Hr')).
    rewrite Ha in Ha'. injection Ha' as ->. simpl in Hr.
    apply ptr_Some in Hr as (ll & lk & lv & lr & ->). eauto 10.
Qed.

Lemma repz_parent_links s t : repz s [] t → parent_links s.
Proof.
  intros H. split_and!.
  - intros a Hr. rewrite (repz_root _ _ H) in Hr.
    apply ptr_Some in Hr as (l & k & v & r & ->).
    eexists. split; [apply (repz_root_node _ _ _ _ _ _ H)|done].
  - intros a n c Hin Ha Hl.
    destruct (in_tree_rep _ _ _ H Hin) as (l & k & v & r & par & (Ha' & Hl' & Hr')).
    rewrite Ha in Ha'. injection Ha' as ->. simpl in Hl.
    apply ptr_Some in Hl as (ll & lk & lv & lr & ->).
    destruct Hl' as (Hc & _). eauto.
  - intros a n c Hin Ha Hr.
    destruct (in_tree_rep _ _ _ H Hin) as (l & k & v & r & par & (Ha' & Hl' & Hr')).
    rewrite Ha in Ha'. injection Ha' as ->. simpl in Hr.
    apply ptr_Some in Hr as (ll & lk & lv & lr & ->).
    destruct Hr' as (Hc & _). eauto.
Qed.

Lemma contents_parent_links s l : contents s l → parent_links s.
Proof. intros (t & H & _). by eapply repz_parent_links. Qed.

(** * The steps of a successful deletion *)

Lemma delete_steps k s t l a v r :
  repz s [] t →
  (descend k t []).2 = T l a k v r →
  ∃ s1 s2,
    _find_node k s = Ok (Some a) s
    ∧ _splay (Some a) s = Ok (Some a) s1
    ∧ repz s1 [] (splay_tree (descend k t []))
    ∧ delete_root (Some a) s1 = Ok tt s2
    ∧ repz s2 [] (unlink (splay_tree (descend k t [])))
    ∧ delete k s = Ok true s2.
Proof.
  intros H Hk. unfold delete.
  pose proof (_find_node_spec k s t H) as En.
  rewrite (bind_ok _ _ _ _ _ En).
  pose proof (descend_repz k s t [] H) as Hd.
  unfold splay_tree. rewrite Hk in *.
  cbn [ptr truthy negb] in *. pose proof Hd as ((Ha & _) & _). step.
  rewrite Z.eqb_refl. cbn [negb].
  destruct (splay_spec _ _ _ _ _ _ _ Hd) as (s1 & E1 & R1).
  rewrite (bind_ok _ _ _ _ _ E1).
  destruct (delete_root_spec _ _ _ _ _ _ R1) as (s2 & E2 & R2).
  rewrite (bind_ok _ _ _ _ _ E2). exists s1, s2. done.
Qed.

Lemma delete_root_both s L a k v R :
  repz s [] (T L a k v R) → L ≠ Leaf → R ≠ Leaf →
  ∃ l' m km vm,
    with_fuel (λ fuel, rightmost_loop fuel (ptr L)) s = Ok (Some m) s
    ∧ join L R = T l' m km vm R
    ∧ last (items L) = Some (km, vm).
Proof.
  intros H HL HR.
  pose proof (repz_down_l _ _ _ _ _ _ _ H) as HrepL.
  pose proof (rightmost_loop_spec s L [FL a k v R] (fuel_of s) HL
                (fuel_height _ _ _ HrepL) HrepL) as Erm.
  rewrite rightmost_app in Erm. cbn [snd] in Erm.
  pose proof (rightmost_last L [] HL) as Hlast.
  destruct (rightmost_shape L [] HL) as (ml & m & km & vm & Es).
  unfold join. rewrite Es in *. simpl in Erm, Hlast.
  destruct L; [done|]. destruct R; [done|].
  eexists _, m, km, vm. split_and!; done.
Qed.

(** * Where the descent ends *)

Lemma descend_miss k t : ∀ c l a ka va r,
  (descend k t c).2 = T l a ka va r → ka ≠ k →
  (k < ka ∧ l = Leaf) ∨ (ka < k ∧ r = Leaf).
Proof.
  induction t as [|tl IHl ta tk tv tr IHr]; intros c l a ka va r; simpl; [done|].
  destruct (k =? tk) eqn:E.
  - apply Z.eqb_eq in E as ->. simpl. intros [= -> -> -> -> ->]. done.
  - apply Z.eqb_neq in E. destruct (k <? tk) eqn:E'.
    + apply Z.ltb_lt in E'. destruct tl as [|? ? ? ? ?].
      * simpl. intros [= <- <- <- <- <-] _. by left.
      * apply IHl.
    + apply Z.ltb_ge in E'. destruct tr as [|? ? ? ? ?].
      * simpl. intros [= <- <- <- <- <-] _. right. split; [lia|done].
      * apply IHr.
Qed.

Lemma repz_in_tree s c : ∀ l a k v r, repz s c (T l a k v r) → in_tree s a.
Proof.
  induction c as [|f c IH]; intros l a k v r H.
  - apply in_tree_root. apply (repz_root _ _ H).
  - pose proof H as (_ & Hc & _).
    apply (proj1 (repz_fill _ _ _ _)) in H.
    destruct f as [p kp vp C|A p kp vp]; simpl in *.
    + destruct Hc as (Hp & _). eapply in_tree_left; [by eapply IH|exact Hp|done].
    + destruct Hc as (Hp & _). eapply in_tree_right; [by eapply IH|exact Hp|done].
Qed.

Lemma find_node_contents k s l :
  contents s l → l ≠ [] →
  ∃ a n,
    _find_node k s = Ok (Some a) s
    ∧ in_tree s a
    ∧ mem s !! a = Some n
    ∧ (k ∈ l.*1 → key n = k ∧ assoc k l = Some (value n))
    ∧ (k ∉ l.*1 → (k < key n ∧ left n = None) ∨ (key n < k ∧ right n = None)).
Proof.
  intros (t & H & <- & Ha) Hne.
  assert (t ≠ Leaf) as Ht by (intros ->; done).
  pose proof (_find_node_spec k s t H) as En.
  pose proof (descend_nonleaf k t [] Ht) as Hd.
  pose proof (descend_repz k s t [] H) as Hz.
  pose proof (hit_assoc k t Ha) as Hh.
  pose proof (descend_miss k t []) as Hm.
  destruct (descend k t []).2 as [|dl a ka va dr]; [done|].
  pose proof Hz as ((Hn & _) & _).
  exists a, (mkNode ka va (ptr dl) (ptr dr) (ctx_ptr (descend k t []).1)).
  split_and!; try done.
  - by eapply repz_in_tree.
  - intros Hin. apply assoc_is_Some in Hin as (v & Hv). rewrite Hv in Hh.
    pose proof Hh as Hh'. apply hit_Some in Hh' as (? & ? & ? & [= _ _ -> -> _]).
    simpl. done.
  - intros Hnin. rewrite assoc_None in Hh by done. simpl in Hh.
    destruct (k =? ka) eqn:E; [done|]. apply Z.eqb_neq in E.
    destruct (Hm dl a ka va dr eq_refl ltac:(congruence)) as [(? & ->)|(? & ->)]; simpl; auto.
Qed.

Lemma reachable_inorder s l : reachable s → inorder s = Ok l s → contents s l.
Proof.
  intros Hr Hi. destruct (reachable_contents s Hr) as (l0 & Hc).
  rewrite (contents_inorder _ _ Hc) in Hi. by injection Hi as <-.
Qed.

Lemma assoc_elem k v (l : list (Z * pyval)) :
  ascending l.*1 → (k, v) ∈ l → assoc k l = Some v.
Proof.
  induction l as [|[k' v'] l IH]; simpl; [set_solver|].
  rewrite ascending_cons. intros (Hl & Hk') Hin.
  apply elem_of_cons in Hin as [[= <- <-]|Hin]; [by rewrite Z.eqb_refl|].
  assert (k' < k) as Hlt by (apply Hk'; by apply (list_elem_of_fmap_2' fst l (k, v))).
  assert ((k =? k') = false) as -> by (apply Z.eqb_neq; lia). auto.
Qed.

(** * The specification's properties *)

Lemma apply_op_assoc k o l : ¬ touches k o → assoc k (apply_op o l) = assoc k l.
Proof.
  destruct o as [k' v'|k'|k'| |]; simpl; intros H; try done.
  - apply upsert_assoc_ne. congruence.
  - apply remove_key_assoc_ne. congruence.
Qed.

Lemma foldl_apply_op_assoc k ops : ∀ l,
  Forall (λ o, ¬ touches k o) ops →
  assoc k (foldl (λ l o, apply_op o l) l ops) = assoc k l.
Proof.
  induction ops as [|o ops IH]; intros l H; simpl; [done|].
  inversion H as [|? ? Ho Hops]; subst.
  rewrite IH by done. by apply apply_op_assoc.
Qed.

Lemma contents_ascending s l : contents s l → ascending l.*1.
Proof. intros (t & _ & _ & H). exact H. Qed.

Lemma assoc_Some_nonempty k v l : assoc k l = Some v → l ≠ [].
Proof. by destruct l. Qed.

(** C1 (order invariant).  Whatever sequence of public operations, and so
    whatever sequence of inserts and deletes, is applied to the empty tree,
    every operation returns, and afterwards [inorder()] returns the stored
    pairs with their keys in strictly ascending order; the stored tree
    satisfies the ordering invariant at every node. *)
Theorem C1_inorder_strictly_ascending (ops : list op) :
  ∃ s l t,
    run ops init = Some s
    ∧ inorder s = Ok l s
    ∧ ascending l.*1
    ∧ repz s [] t ∧ items t = l ∧ bst t.
Proof.
  destruct (run_contents ops init [] contents_init) as (s & E & Hc).
  pose proof (contents_inorder _ _ Hc) as Hi.
  destruct Hc as (t & H & Ht & Ha).
  eexists s, _, t. split_and!; try done.
  apply ascending_bst. unfold keys. by rewrite Ht.
Qed.

(** C2 (insert, then find).  In a reachable tree, [insert(k, v)] returns,
    and right afterwards [find(k)] returns [v].  If [k] was absent the
    number of keys grows by exactly one; if it was present the number is
    unchanged and the node that held [k] now holds [v].  After any further
    operations that neither delete nor re-insert [k], [find(k)] still
    returns [v]. *)
Theorem C2_insert_then_find s k v :
  reachable s →
  ∃ l s1 l1 s2,
    inorder s = Ok l s
    ∧ insert k v s = Ok tt s1
    ∧ inorder s1 = Ok l1 s1
    ∧ find k s1 = Ok v s2
    ∧ (k ∉ l.*1 → length l1 = S (length l))
    ∧ (k ∈ l.*1 →
         length l1 = length l
         ∧ ∃ a n n1,
             _find_node k s = Ok (Some a) s
             ∧ mem s !! a = Some n ∧ key n = k
             ∧ mem s1 !! a = Some n1 ∧ key n1 = k ∧ value n1 = v)
    ∧ (∀ ops, Forall (λ o, ¬ touches k o) ops →
         ∃ s3 s4, run ops s1 = Some s3 ∧ find k s3 = Ok v s4).
Proof.
  intros Hr. destruct (reachable_contents s Hr) as (l & Hc).
  destruct (insert_contents k v s l Hc) as (s1 & a & Ei & Hc1 & Hrt & (nl & nr & Ha1) & Hin & _).
  assert (upsert k v l ≠ []) as Hne
    by (eapply assoc_Some_nonempty, upsert_assoc_eq).
  destruct (find_contents k s1 _ Hc1 Hne) as (s2 & a2 & n2 & Ef & _).
  rewrite upsert_assoc_eq in Ef. simpl in Ef.
  exists l, s1, (upsert k v l), s2. split_and!.
  - by apply contents_inorder.
  - done.
  - by apply contents_inorder.
  - done.
  - apply upsert_length_absent.
  - intros Hk. split.
    + apply upsert_length_present; [by eapply contents_ascending|done].
    + assert (l ≠ []) as Hl by (intros ->; set_solver).
      destruct (find_node_contents k s l Hc Hl) as (a0 & n & En & _ & Hn & Hkey & _).
      rewrite (Hin Hk) in En. injection En as <-.
      destruct (Hkey Hk) as (Hkn & _).
      exists a, n, (mkNode k v nl nr None). split_and!; auto.
  - intros ops Hops.
    destruct (run_contents ops s1 _ Hc1) as (s3 & E3 & Hc3).
    pose proof (foldl_apply_op_assoc k ops (upsert k v l) Hops) as Ha.
    rewrite upsert_assoc_eq in Ha.
    destruct (find_contents k s3 _ Hc3 (assoc_Some_nonempty _ _ _ Ha))
      as (s4 & a4 & n4 & E4 & _).
    rewrite Ha in E4. eauto.
Qed.

(** C3 (delete of a present key).  In a reachable tree that contains [k],
    [delete(k)] finds the node holding [k], splays it to the root, unlinks
    it and returns [True]; afterwards [k] is not in the tree, [find(k)]
    returns [None], and there is exactly one key fewer.  If the splayed
    root has both children, the new root is the node with the largest key
    of its left subtree (the one the right-child walk from the left child
    ends at), the former right child is that node's right child, and the
    former right child's parent link points to the new root. *)
Theorem C3_delete_present s k l :
  reachable s →
  inorder s = Ok l s →
  k ∈ l.*1 →
  ∃ a s1 s2 l2 s3,
    _find_node k s = Ok (Some a) s
    ∧ _splay (Some a) s = Ok (Some a) s1
    ∧ root s1 = Some a
    ∧ delete_root (Some a) s1 = Ok tt s2
    ∧ delete k s = Ok true s2
    ∧ inorder s2 = Ok l2 s2
    ∧ (k ∉ l2.*1)
    ∧ find k s2 = Ok PyNone s3
    ∧ S (length l2) = length l
    ∧ (∀ n lp rp,
         mem s1 !! a = Some n → left n = Some lp → right n = Some rp →
         ∃ m nm nr,
           with_fuel (λ fuel, rightmost_loop fuel (Some lp)) s1 = Ok (Some m) s1
           ∧ root s2 = Some m
           ∧ mem s2 !! m = Some nm
           ∧ parent nm = None
           ∧ right nm = Some rp
           ∧ mem s2 !! rp = Some nr
           ∧ parent nr = Some m
           ∧ key nm < k
           ∧ (∀ k', k' ∈ l.*1 → k' < k → k' ≤ key nm)).
Proof.
  intros Hr Hi Hk. pose proof (reachable_inorder s l Hr Hi) as Hc.
  destruct Hc as (t & H & <- & Ha).
  pose proof (hit_assoc k t Ha) as Hh.
  pose proof Hk as Hk'. apply assoc_is_Some in Hk' as (v & Hv). rewrite Hv in Hh.
  apply hit_Some in Hh as (dl & a & dr & Hd).
  destruct (delete_steps k s t dl a v dr H Hd) as (s1 & s2 & En & Es & R1 & Er & R2 & Ed).
  pose proof (unlink_items k t dl a v dr Ha Hd) as Hu.
  pose proof (splay_tree_items (descend k t [])) as Hit.
  rewrite descend_plug in Hit. simpl in Hit.
  unfold splay_tree in *. rewrite Hd in *. cbn [fst snd unlink] in *.
  set (L := (splay_z (descend k t []).1 dl dr).1) in *.
  set (R := (splay_z (descend k t []).1 dl dr).2) in *.
  assert (contents s2 (remove_key k (items t))) as Hc2.
  { eexists. split_and!; [exact R2|exact Hu|by apply remove_key_ascending]. }
  assert (k ∉ (remove_key k (items t)).*1) as Hnk.
  { intros Hin. apply remove_key_keys in Hin as (_ & Hne); done. }
  assert (∃ s3, find k s2 = Ok PyNone s3) as (s3 & Ef).
  { destruct (remove_key k (items t)) as [|x l2] eqn:El2.
    - exists s2. by apply find_contents_empty.
    - destruct (find_contents k s2 _ Hc2 ltac:(done)) as (s3 & ? & ? & Ef & _).
      rewrite assoc_None in Ef by done. eauto. }
  exists a, s1, s2, (remove_key k (items t)), s3. split_and!; try done.
  - apply (repz_root _ _ R1).
  - by apply contents_inorder.
  - by apply remove_key_length.
  - intros n lp rp Hn Hl Hrp.
    pose proof (repz_root_node _ _ _ _ _ _ R1) as Hn'.
    rewrite Hn in Hn'. injection Hn' as ->. simpl in Hl, Hrp.
    assert (L ≠ Leaf) as HL by (intros E; rewrite E in Hl; done).
    assert (R ≠ Leaf) as HR by (intros E; rewrite E in Hrp; done).
    destruct (delete_root_both _ _ _ _ _ _ R1 HL HR) as (l' & m & km & vm & Erm & Ej & Hlast).
    rewrite Hl in Erm. rewrite Ej in R2.
    apply ptr_Some in Hrp as (rl & rk & rv & rr & ER).
    pose proof (repz_root_node _ _ _ _ _ _ R2) as Hm.
    pose proof R2 as ((_ & _ & HRrep) & _). rewrite ER in HRrep.
    destruct HRrep as (Hrpn & _).
    assert ((items t).*1 = keys L ++ k :: keys R) as Hkeys.
    { unfold keys. rewrite <- Hit. simpl. by rewrite fmap_app. }
    rewrite Hkeys in Ha. apply ascending_app in Ha as (HaL & HaR & Hlt).
    apply ascending_cons in HaR as (HaR & HkR).
    assert (km ∈ keys L) as Hkm.
    { apply last_elem in Hlast. by apply (list_elem_of_fmap_2' fst _ (km, vm)). }
    eexists m, _, _. split_and!; [done|apply (repz_root _ _ R2)|exact Hm|done| |exact Hrpn|done| |].
    + simpl. by rewrite ER.
    + simpl. apply Hlt; [done|set_solver].
    + intros k' Hk'in Hk'lt. simpl. rewrite Hkeys in Hk'in.
      apply elem_of_app in Hk'in as [Hin|Hin].
      * eapply ascending_last_max; [exact HaL|exact Hlast|exact Hin].
      * apply elem_of_cons in Hin as [->|Hin]; [lia|]. specialize (HkR k' Hin). lia.
Qed.

(** C4 (delete of an absent key).  In a reachable tree that does not
    contain [k], [delete(k)] returns [False] and the state after the call is
    the state before it: no field of any node and not the root reference has
    changed, so [inorder()] is the same. *)
Theorem C4_delete_absent s k l :
  reachable s →
  inorder s = Ok l s →
  k ∉ l.*1 →
  delete k s = Ok false s.
Proof.
  intros Hr Hi Hk. pose proof (reachable_inorder s l Hr Hi) as Hc.
  by eapply delete_contents_absent.
Qed.

(** C5 (splay postcondition).  In a reachable tree, a [find(k)] for a key
    that is present, and any [insert(k, v)], leave a node with key [k] at
    the root; and [_splay(None)] returns [None] and changes nothing. *)
Theorem C5_root_after_access s k l :
  reachable s →
  inorder s = Ok l s →
  (k ∈ l.*1 →
     ∃ v s' n, find k s = Ok v s' ∧ root_node s' = Some n ∧ key n = k)
  ∧ (∀ v, ∃ s' n, insert k v s = Ok tt s' ∧ root_node s' = Some n ∧ key n = k)
  ∧ (∀ s0, _splay None s0 = Ok None s0).
Proof.
  intros Hr Hi. pose proof (reachable_inorder s l Hr Hi) as Hc. split_and!.
  - intros Hk. assert (l ≠ []) as Hl by (intros ->; set_solver).
    destruct (find_contents k s l Hc Hl) as (s' & a & n & Ef & _ & _ & Hrt & Hn & Hkey).
    eexists _, s', n. split_and!; [exact Ef| |auto].
    unfold root_node. by rewrite Hrt.
  - intros v.
    destruct (insert_contents k v s l Hc) as (s1 & a & Ei & _ & Hrt & (nl & nr & Ha1) & _).
    eexists s1, _. split_and!; [exact Ei| |].
    + unfold root_node. rewrite Hrt. exact Ha1.
    + done.
  - done.
Qed.

(** C6 (find of an absent key).  In a reachable, non-empty tree that does
    not contain [k], the descent for [k] ends at a node of the tree where the
    search falls off (the child on [k]'s side is missing); [find(k)] returns
    [None], leaves that node at the root, and [inorder()] is unchanged. *)
Theorem C6_find_miss s k l :
  reachable s →
  inorder s = Ok l s →
  l ≠ [] →
  k ∉ l.*1 →
  ∃ a n s',
    _find_node k s = Ok (Some a) s
    ∧ in_tree s a
    ∧ mem s !! a = Some n
    ∧ ((k < key n ∧ left n = None) ∨ (key n < k ∧ right n = None))
    ∧ find k s = Ok PyNone s'
    ∧ root s' = Some a
    ∧ inorder s' = Ok l s'.
Proof.
  intros Hr Hi Hl Hk. pose proof (reachable_inorder s l Hr Hi) as Hc.
  destruct (find_node_contents k s l Hc Hl) as (a & n & En & Hin & Hn & _ & Hmiss).
  destruct (find_contents k s l Hc Hl) as (s' & a' & n' & Ef & Hc' & En' & Hrt & _).
  rewrite En in En'. injection En' as <-.
  rewrite assoc_None in Ef by done.
  exists a, n, s'. split_and!; auto. by apply contents_inorder.
Qed.

(** C8 (parent links).  In every reachable tree the root's parent reference
    is [None] and every child of a node of the tree points back to that node
    through its parent reference; every operation returns and yields a tree
    with the same property. *)
Theorem C8_parent_links s :
  reachable s →
  parent_links s
  ∧ ∀ o, ∃ s', run_op o s = Some s' ∧ parent_links s'.
Proof.
  intros Hr. destruct (reachable_contents s Hr) as (l & Hc). split.
  - by eapply contents_parent_links.
  - intros o. destruct (run_op_contents o s l Hc) as (s' & E & Hc').
    exists s'. split; [done|]. by eapply contents_parent_links.
Qed.

(** C9 (empty tree and extrema).  On a tree whose root is [None],
    [minimum()], [maximum()] and [find(k)] return [None] and leave the state
    as it was.  On a reachable, non-empty tree, [minimum()] returns a stored
    pair whose key is at most every key of the tree, and [maximum()] a
    stored pair whose key is at least every key. *)
Theorem C9_empty_and_extrema s l :
  reachable s →
  inorder s = Ok l s →
  (root s = None →
     minimum s = Ok None s ∧ maximum s = Ok None s
     ∧ ∀ k, find k s = Ok PyNone s)
  ∧ (root s ≠ None →
     ∃ kmin vmin s1 kmax vmax s2,
       minimum s = Ok (Some (kmin, vmin)) s1
       ∧ (kmin, vmin) ∈ l ∧ (∀ x, x ∈ l.*1 → kmin ≤ x)
       ∧ maximum s = Ok (Some (kmax, vmax)) s2
       ∧ (kmax, vmax) ∈ l ∧ (∀ x, x ∈ l.*1 → x ≤ kmax)).
Proof.
  intros Hr Hi. pose proof (reachable_inorder s l Hr Hi) as Hc. split.
  - intros Hrt. apply (contents_nil_root _ _ Hc) in Hrt as ->. split_and!.
    + by apply minimum_contents_empty.
    + by apply maximum_contents_empty.
    + intros k. by apply find_contents_empty.
  - intros Hrt. assert (l ≠ []) as Hl.
    { intros E. apply Hrt. by apply (contents_nil_root _ _ Hc). }
    destruct (minimum_contents s l Hc Hl) as (s1 & a1 & kmin & vmin & E1 & _ & Hh & _).
    destruct (maximum_contents s l Hc Hl) as (s2 & a2 & kmax & vmax & E2 & _ & Hla & _).
    exists kmin, vmin, s1, kmax, vmax, s2. split_and!; try done.
    + by apply head_elem.
    + intros x Hx. eapply ascending_head_min; [by eapply contents_ascending|done..].
    + by apply last_elem.
    + intros x Hx. eapply ascending_last_max; [by eapply contents_ascending|done..].
Qed.

(** C10 (a stored [None] looks like a miss).  In a reachable tree,
    [find(k)] returns [None] when [k] is absent; and after [insert(k)] with
    the default value, [k] is stored with value [None] and [find(k)]
    returns [None] as well. *)
Theorem C10_none_is_ambiguous s k l :
  reachable s →
  inorder s = Ok l s →
  (k ∉ l.*1 → ∃ s', find k s = Ok PyNone s')
  ∧ (∃ s1 l1 s2,
       insert_default k s = Ok tt s1
       ∧ inorder s1 = Ok l1 s1
       ∧ (k, PyNone) ∈ l1
       ∧ find k s1 = Ok PyNone s2).
Proof.
  intros Hr Hi. pose proof (reachable_inorder s l Hr Hi) as Hc. split.
  - intros Hk. destruct l as [|x l'].
    + exists s. by apply find_contents_empty.
    + destruct (find_contents k s _ Hc ltac:(done)) as (s' & ? & ? & Ef & _).
      rewrite assoc_None in Ef by done. eauto.
  - unfold insert_default.
    destruct (insert_contents k PyNone s l Hc) as (s1 & a & Ei & Hc1 & _).
    pose proof (upsert_assoc_eq k PyNone l) as Ha.
    destruct (find_contents k s1 _ Hc1 (assoc_Some_nonempty _ _ _ Ha))
      as (s2 & ? & ? & Ef & _).
    rewrite Ha in Ef.
    eexists s1, _, s2. split_and!; [done|by apply contents_inorder| |done].
    by apply assoc_Some_elem.
Qed.

(** * Facts about the concrete trees *)

Lemma demo1_reachable : reachable demo1.
Proof.
  apply (reachable_step init (OInsert 10 (PyStr "ten"))); [apply reachable_init|].
  vm_compute. reflexivity.
Qed.

Lemma demo_reachable : reachable demo.
Proof.
  apply (reachable_step demo1 (OInsert 5 (PyStr "five"))); [apply demo1_reachable|].
  vm_compute. reflexivity.
Qed.

Lemma demo_inorder : inorder demo = Ok demo_items demo.
Proof. vm_compute. reflexivity. Qed.

Lemma demo_nonempty : demo_items ≠ [].
Proof. discriminate. Qed.

Lemma demo_has_10 : 10 ∈ demo_items.*1.
Proof. compute_done. Qed.

Lemma demo_lacks_7 : 7 ∉ demo_items.*1.
Proof. compute_done. Qed.

Lemma demo_root : root demo ≠ None.
Proof. vm_compute. discriminate. Qed.

Lemma demo3_reachable : reachable demo3.
Proof.
  apply (run_reachable demo3_ops init demo3 reachable_init).
  vm_compute. reflexivity.
Qed.

Lemma demo3_inorder : inorder demo3 = Ok demo3_items demo3.
Proof. vm_compute. reflexivity. Qed.

Lemma demo3_has_10 : 10 ∈ demo3_items.*1.
Proof. compute_done. Qed.

Example demo_find_node_7 : _find_node 7 demo = Ok (Some 0%nat) demo.
Proof. vm_compute. reflexivity. Qed.

Example demo_delete_7 : delete 7 demo = Ok false demo.
Proof. vm_compute. reflexivity. Qed.

Example demo_root_is_5 : root demo = Some 1%nat.
Proof. vm_compute. reflexivity. Qed.

(** C7 as claimed fails: on the tree [demo], [delete(7)] ends its descent at
    the node holding 10 and returns [False]; the root is still the node
    holding 5. *)
Lemma C7_delete_miss_does_not_splay :
  ¬ (∀ s k l a b s',
       reachable s → inorder s = Ok l s → l ≠ [] → k ∉ l.*1 →
       _find_node k s = Ok (Some a) s →
       delete k s = Ok b s' →
       root s' = Some a).
Proof.
  intros H.
  specialize (H demo 7 demo_items 0%nat false demo demo_reachable demo_inorder
                demo_nonempty demo_lacks_7 demo_find_node_7 demo_delete_7).
  rewrite demo_root_is_5 in H. discriminate.
Qed.

Lemma C2_witness :
  reachable demo
  ∧ ∃ l s1 l1 s2,
      inorder demo = Ok l demo
      ∧ insert 7 (PyStr "seven") demo = Ok tt s1
      ∧ inorder s1 = Ok l1 s1
      ∧ find 7 s1 = Ok (PyStr "seven") s2
      ∧ (7 ∉ l.*1 → length l1 = S (length l))
      ∧ (7 ∈ l.*1 →
           length l1 = length l
           ∧ ∃ a n n1,
               _find_node 7 demo = Ok (Some a) demo
               ∧ mem demo !! a = Some n ∧ key n = 7
               ∧ mem s1 !! a = Some n1 ∧ key n1 = 7 ∧ value n1 = PyStr "seven")
      ∧ (∀ ops, Forall (λ o, ¬ touches 7 o) ops →
           ∃ s3 s4, run ops s1 = Some s3 ∧ find 7 s3 = Ok (PyStr "seven") s4).
Proof.
  split; [exact demo_reachable|].
  exact (C2_insert_then_find demo 7 (PyStr "seven") demo_reachable).
Defined.

Lemma C3_witness :
  reachable demo3 ∧ inorder demo3 = Ok demo3_items demo3 ∧ 10 ∈ demo3_items.*1
  ∧ ∃ a s1 s2 l2 s3,
      _find_node 10 demo3 = Ok (Some a) demo3
      ∧ _splay (Some a) demo3 = Ok (Some a) s1
      ∧ root s1 = Some a
      ∧ delete_root (Some a) s1 = Ok tt s2
      ∧ delete 10 demo3 = Ok true s2
      ∧ inorder s2 = Ok l2 s2
      ∧ (10 ∉ l2.*1)
      ∧ find 10 s2 = Ok PyNone s3
      ∧ S (length l2) = length demo3_items
      ∧ (∀ n lp rp,
           mem s1 !! a = Some n → left n = Some lp → right n = Some rp →
           ∃ m nm nr,
             with_fuel (λ fuel, rightmost_loop fuel (Some lp)) s1 = Ok (Some m) s1
             ∧ root s2 = Some m
             ∧ mem s2 !! m = Some nm
             ∧ parent nm = None
             ∧ right nm = Some rp
             ∧ mem s2 !! rp = Some nr
             ∧ parent nr = Some m
             ∧ key nm < 10
             ∧ (∀ k', k' ∈ demo3_items.*1 → k' < 10 → k' ≤ key nm)).
Proof.
  split_and!; [exact demo3_reachable|exact demo3_inorder|exact demo3_has_10|].
  exact (C3_delete_present demo3 10 demo3_items demo3_reachable demo3_inorder demo3_has_10).
Defined.

Lemma C4_witness :
  reachable demo ∧ inorder demo = Ok demo_items demo ∧ (7 ∉ demo_items.*1)
  ∧ delete 7 demo = Ok false demo.
Proof.
  split_and!; [exact demo_reachable|exact demo_inorder|exact demo_lacks_7|].
  exact (C4_delete_absent demo 7 demo_items demo_reachable demo_inorder demo_lacks_7).
Defined.

Lemma C5_witness :
  reachable demo ∧ inorder demo = Ok demo_items demo
  ∧ (10 ∈ demo_items.*1 →
       ∃ v s' n, find 10 demo = Ok v s' ∧ root_node s' = Some n ∧ key n = 10)
  ∧ (∀ v, ∃ s' n, insert 10 v demo = Ok tt s' ∧ root_node s' = Some n ∧ key n = 10)
  ∧ (∀ s0, _splay None s0 = Ok None s0).
Proof.
  split_and!; [exact demo_reachable|exact demo_inorder|..];
    apply (C5_root_after_access demo 10 demo_items demo_reachable demo_inorder).
Defined.

Lemma C6_witness :
  reachable demo ∧ inorder demo = Ok demo_items demo ∧ demo_items ≠ []
  ∧ (7 ∉ demo_items.*1)
  ∧ ∃ a n s',
      _find_node 7 demo = Ok (Some a) demo
      ∧ in_tree demo a
      ∧ mem demo !! a = Some n
      ∧ ((7 < key n ∧ left n = None) ∨ (key n < 7 ∧ right n = None))
      ∧ find 7 demo = Ok PyNone s'
      ∧ root s' = Some a
      ∧ inorder s' = Ok demo_items s'.
Proof.
  split_and!; [exact demo_reachable|exact demo_inorder|exact demo_nonempty
              |exact demo_lacks_7|].
  exact (C6_find_miss demo 7 demo_items demo_reachable demo_inorder
           demo_nonempty demo_lacks_7).
Defined.

Lemma C8_witness :
  reachable demo
  ∧ parent_links demo
  ∧ ∀ o, ∃ s', run_op o demo = Some s' ∧ parent_links s'.
Proof.
  split; [exact demo_reachable|]. exact (C8_parent_links demo demo_reachable).
Defined.

Lemma C9_witness :
  reachable demo ∧ inorder demo = Ok demo_items demo ∧ root demo ≠ None
  ∧ ∃ kmin vmin s1 kmax vmax s2,
      minimum demo = Ok (Some (kmin, vmin)) s1
      ∧ (kmin, vmin) ∈ demo_items ∧ (∀ x, x ∈ demo_items.*1 → kmin ≤ x)
      ∧ maximum demo = Ok (Some (kmax, vmax)) s2
      ∧ (kmax, vmax) ∈ demo_items ∧ (∀ x, x ∈ demo_items.*1 → x ≤ kmax).
Proof.
  split_and!; [exact demo_reachable|exact demo_inorder|exact demo_root|].
  exact (proj2 (C9_empty_and_extrema demo demo_items demo_reachable demo_inorder)
           demo_root).
Defined.

Lemma C10_witness :
  reachable demo ∧ inorder demo = Ok demo_items demo
  ∧ (7 ∉ demo_items.*1 → ∃ s', find 7 demo = Ok PyNone s')
  ∧ (∃ s1 l1 s2,
       insert_default 7 demo = Ok tt s1
       ∧ inorder s1 = Ok l1 s1
       ∧ (7, PyNone) ∈ l1
       ∧ find 7 s1 = Ok PyNone s2).
Proof.
  split_and!; [exact demo_reachable|exact demo_inorder|..];
    apply (C10_none_is_ambiguous demo 7 demo_items demo_reachable demo_inorder).
Defined.

(** * Further properties of the methods *)

Lemma is_empty_contents s l :
  contents s l → is_empty s = Ok (bool_decide (l = [])) s.
Proof.
  intros Hc. unfold is_empty. step. unfold ret. f_equal.
  pose proof (contents_nil_root s l Hc) as Hn.
  destruct (root s) as [a|]; simpl.
  - rewrite bool_decide_eq_false_2; [done|]. intros E. by apply Hn in E.
  - rewrite bool_decide_eq_true_2; [done|]. by apply Hn.
Qed.

(** A second access to the node at the root finds it there: nothing is
    rotated and nothing is written. *)
Lemma splay_root s a n :
  mem s !! a = Some n → parent n = None → _splay (Some a) s = Ok (Some a) s.
Proof.
  intros Ha Hp. unfold _splay. cbn [truthy negb].
  unfold bind, with_fuel, fuel_of. cbn [splay_loop].
  unfold bind. rewrite (get_parent_ok _ _ _ Ha), Hp. reflexivity.
Qed.

Lemma find_at_root s a n :
  root s = Some a → mem s !! a = Some n → parent n = None →
  find (key n) s = Ok (value n) s.
Proof.
  intros Hr Ha Hp. unfold find. step. rewrite Hr. cbn [truthy negb]. step.
  rewrite Hr. unfold with_fuel, fuel_of. cbn [find_loop truthy negb].
  step. rewrite Z.eqb_refl.
  rewrite (bind_ok _ _ _ _ _ (splay_root s a n Ha Hp)).
  apply (get_value_ok _ _ _ Ha).
Qed.

Lemma state_eta s : mkState (mem s) (root s) = s.
Proof. by destruct s. Qed.

Lemma insert_at_root s a n :
  root s = Some a → mem s !! a = Some n → parent n = None →
  insert (key n) (value n) s = Ok tt s.
Proof.
  intros Hr Ha Hp. unfold insert. step. rewrite Hr. cbn [truthy negb]. step.
  rewrite Hr. unfold with_fuel, fuel_of. cbn [insert_loop].
  step. rewrite Z.eqb_refl. step.
  assert (mkState (<[a := mkNode (key n) (value n) (left n) (right n) (parent n)]> (mem s))
            (root s) = s) as ->.
  { rewrite insert_id; [apply state_eta|]. rewrite Ha. by destruct n. }
  rewrite (bind_ok _ _ _ _ _ (splay_root s a n Ha Hp)). reflexivity.
Qed.

Lemma minimum_at_root s a n :
  root s = Some a → mem s !! a = Some n → parent n = None → left n = None →
  minimum s = Ok (Some (key n, value n)) s.
Proof.
  intros Hr Ha Hp Hl. unfold minimum. step. rewrite Hr. cbn [truthy negb]. step.
  rewrite Hr.
  assert (with_fuel (λ fuel, leftmost_loop fuel (Some a)) s = Ok (Some a) s) as E.
  { unfold with_fuel, fuel_of. cbn [leftmost_loop]. step. by rewrite Hl. }
  rewrite (bind_ok _ _ _ _ _ E).
  rewrite (bind_ok _ _ _ _ _ (splay_root s a n Ha Hp)).
  repeat step. reflexivity.
Qed.

Lemma maximum_at_root s a n :
  root s = Some a → mem s !! a = Some n → parent n = None → right n = None →
  maximum s = Ok (Some (key n, value n)) s.
Proof.
  intros Hr Ha Hp Hl. unfold maximum. step. rewrite Hr. cbn [truthy negb]. step.
  rewrite Hr.
  assert (with_fuel (λ fuel, rightmost_loop fuel (Some a)) s = Ok (Some a) s) as E.
  { unfold with_fuel, fuel_of. cbn [rightmost_loop]. step. by rewrite Hl. }
  rewrite (bind_ok _ _ _ _ _ E).
  rewrite (bind_ok _ _ _ _ _ (splay_root s a n Ha Hp)).
  repeat step. reflexivity.
Qed.

Lemma contents_root s l a :
  contents s l → root s = Some a →
  ∃ n, mem s !! a = Some n ∧ parent n = None ∧ (key n, value n) ∈ l.
Proof.
  intros (t & H & <- & _) Hr. rewrite (repz_root _ _ H) in Hr.
  apply ptr_Some in Hr as (tl & k & v & tr & ->).
  eexists. split_and!; [apply (repz_root_node _ _ _ _ _ _ H)|done|].
  simpl. set_solver.
Qed.

Lemma elem_keys k v (l : list (Z * pyval)) : (k, v) ∈ l → k ∈ l.*1.
Proof. intros H. by apply (list_elem_of_fmap_2' fst l (k, v)). Qed.

Lemma remove_upsert k v l : k ∉ l.*1 → remove_key k (upsert k v l) = l.
Proof.
  induction l as [|[k' v'] l IH]; simpl; intros H.
  - by rewrite Z.eqb_refl.
  - apply not_elem_of_cons in H as (Hne & H).
    assert ((k =? k') = false) as E by (by apply Z.eqb_neq). rewrite E.
    destruct (k <? k'); simpl.
    + by rewrite Z.eqb_refl.
    + by rewrite E, IH.
Qed.

Lemma upsert_remove k v l :
  ascending l.*1 → (k, v) ∈ l → upsert k v (remove_key k l) = l.
Proof.
  induction l as [|[k' v'] l IH]; simpl; [set_solver|].
  rewrite ascending_cons. intros (Hl & Hk') Hin.
  apply elem_of_cons in Hin as [[= <- <-]|Hin].
  - rewrite Z.eqb_refl. destruct l as [|[k2 v2] l2]; [done|]. simpl.
    assert (k < k2) as Hlt by (apply Hk'; simpl; set_solver).
    assert ((k =? k2) = false) as -> by (apply Z.eqb_neq; lia).
    assert ((k <? k2) = true) as -> by (apply Z.ltb_lt; lia). done.
  - assert (k' < k) as Hlt by (apply Hk'; by eapply elem_keys).
    assert ((k =? k') = false) as E by (apply Z.eqb_neq; lia). rewrite E. simpl.
    rewrite E.
    assert ((k <? k') = false) as -> by (apply Z.ltb_ge; lia).
    by rewrite IH.
Qed.

Lemma upsert_perm k v l : k ∉ l.*1 → upsert k v l ≡ₚ (k, v) :: l.
Proof.
  induction l as [|[k' v'] l IH]; simpl; intros H; [done|].
  apply not_elem_of_cons in H as (Hne & H).
  assert ((k =? k') = false) as -> by (by apply Z.eqb_neq).
  destruct (k <? k'); [done|]. rewrite IH by done. apply perm_swap.
Qed.

Lemma keys_nil (l : list (Z * pyval)) : (∀ x, x ∉ l.*1) → l = [].
Proof. destruct l as [|[k v] l]; [done|]. intros H. exfalso. apply (H k). simpl. set_solver. Qed.

Lemma delete_all_items ks : ∀ l,
  ascending l.*1 → NoDup ks → (∀ x, x ∈ ks ↔ x ∈ l.*1) →
  foldl (λ l o, apply_op o l) l (ODelete <$> ks) = [].
Proof.
  induction ks as [|k ks IH]; intros l Ha Hnd Hks; simpl.
  - apply keys_nil. intros x Hx. apply Hks in Hx. set_solver.
  - apply NoDup_cons in Hnd as (Hk & Hnd). apply IH; [by apply remove_key_ascending|done|].
    intros x. rewrite remove_key_keys by done. rewrite <- Hks. split.
    + intros Hx. split; [set_solver|]. intros ->. done.
    + intros (Hx & Hne). set_solver.
Qed.

(** X1.  [is_empty()] on a reachable tree returns [True] exactly when the
    tree holds no key, and changes nothing. *)
Theorem X1_is_empty_iff_no_keys s l :
  reachable s →
  inorder s = Ok l s →
  is_empty s = Ok (bool_decide (l = [])) s.
Proof.
  intros Hr Hi. apply is_empty_contents. by apply reachable_inorder.
Qed.

(** X2.  In a reachable tree, [find(k)] for a stored pair [(k, v)] returns
    [v] and leaves [inorder()] as it was; a second [find(k)] right after
    returns [v] again and changes nothing at all, the node being at the
    root already. *)
Theorem X2_find_present_and_repeat s l k v :
  reachable s →
  inorder s = Ok l s →
  (k, v) ∈ l →
  ∃ s', find k s = Ok v s' ∧ inorder s' = Ok l s' ∧ find k s' = Ok v s'.
Proof.
  intros Hr Hi Hin. pose proof (reachable_inorder s l Hr Hi) as Hc.
  pose proof (contents_ascending _ _ Hc) as Ha.
  assert (l ≠ []) as Hl by (intros ->; set_solver).
  destruct (find_contents k s l Hc Hl) as (s' & a & n & Ef & Hc' & _ & Hrt & Hn & Hkey).
  rewrite (assoc_elem k v l Ha Hin) in Ef. simpl in Ef.
  destruct (contents_root s' l a Hc' Hrt) as (n' & Hn' & Hp & Hnl).
  rewrite Hn in Hn'. injection Hn' as <-.
  specialize (Hkey (elem_keys _ _ _ Hin)).
  pose proof (assoc_elem _ _ _ Ha Hnl) as Hv. rewrite Hkey in Hv.
  rewrite (assoc_elem k v l Ha Hin) in Hv. injection Hv as Hv.
  exists s'. split_and!; [done|by apply contents_inorder|].
  rewrite <- Hkey, Hv. by apply (find_at_root s' a n).
Qed.

(** X3.  In a reachable tree, repeating an [insert(k, v)] changes nothing:
    the second call finds [k] at the root, writes the value it already has
    and rotates nothing. *)
Theorem X3_insert_twice s k v :
  reachable s →
  ∃ s1, insert k v s = Ok tt s1 ∧ insert k v s1 = Ok tt s1.
Proof.
  intros Hr. destruct (reachable_contents s Hr) as (l & Hc).
  destruct (insert_contents k v s l Hc) as (s1 & a & Ei & _ & Hrt & (nl & nr & Ha1) & _).
  exists s1. split; [done|].
  apply (insert_at_root s1 a (mkNode k v nl nr None)); done.
Qed.

(** X4.  In a reachable tree without the key [k], [insert(k, v)] followed by
    [delete(k)] returns [True] and gives back the in-order contents the tree
    had before. *)
Theorem X4_insert_then_delete s l k v :
  reachable s →
  inorder s = Ok l s →
  k ∉ l.*1 →
  ∃ s1 s2,
    insert k v s = Ok tt s1 ∧ delete k s1 = Ok true s2 ∧ inorder s2 = Ok l s2.
Proof.
  intros Hr Hi Hk. pose proof (reachable_inorder s l Hr Hi) as Hc.
  destruct (insert_contents k v s l Hc) as (s1 & a & Ei & Hc1 & _).
  assert (k ∈ (upsert k v l).*1) as Hin by (apply upsert_keys; by left).
  destruct (delete_contents_present k s1 _ Hc1 Hin) as (s2 & Ed & Hc2).
  rewrite remove_upsert in Hc2 by done.
  exists s1, s2. split_and!; [done|done|by apply contents_inorder].
Qed.

(** X5.  In a reachable tree holding the pair [(k, v)], [delete(k)] followed
    by [insert(k, v)] gives back the in-order contents the tree had
    before. *)
Theorem X5_delete_then_insert s l k v :
  reachable s →
  inorder s = Ok l s →
  (k, v) ∈ l →
  ∃ s1 s2,
    delete k s = Ok true s1 ∧ insert k v s1 = Ok tt s2 ∧ inorder s2 = Ok l s2.
Proof.
  intros Hr Hi Hin. pose proof (reachable_inorder s l Hr Hi) as Hc.
  pose proof (contents_ascending _ _ Hc) as Ha.
  destruct (delete_contents_present k s l Hc (elem_keys _ _ _ Hin)) as (s1 & Ed & Hc1).
  destruct (insert_contents k v s1 _ Hc1) as (s2 & a & Ei & Hc2 & _).
  rewrite upsert_remove in Hc2 by done.
  exists s1, s2. split_and!; [done|done|by apply contents_inorder].
Qed.

(** X6.  Deleting every key of a reachable tree once, in any order, leaves
    the empty tree: the root is [None] again, [is_empty()] returns [True] and
    [inorder()] returns the empty list. *)
Theorem X6_delete_all_keys s l ks :
  reachable s →
  inorder s = Ok l s →
  NoDup ks →
  (∀ x, x ∈ ks ↔ x ∈ l.*1) →
  ∃ s', run (ODelete <$> ks) s = Some s'
        ∧ root s' = None
        ∧ is_empty s' = Ok true s'
        ∧ inorder s' = Ok [] s'.
Proof.
  intros Hr Hi Hnd Hks. pose proof (reachable_inorder s l Hr Hi) as Hc.
  destruct (run_contents (ODelete <$> ks) s l Hc) as (s' & E & Hc').
  rewrite delete_all_items in Hc' by (done || by eapply contents_ascending).
  exists s'. split_and!; [done| | |by apply contents_inorder].
  - by apply (contents_nil_root s' [] Hc').
  - by rewrite (is_empty_contents s' [] Hc').
Qed.

Lemma upsert_keys_perm k v l : k ∉ l.*1 → (upsert k v l).*1 ≡ₚ k :: l.*1.
Proof. intros H. by rewrite (upsert_perm k v l H). Qed.

Lemma insert_many_items kvs : ∀ l,
  NoDup (kvs.*1 ++ l.*1) →
  foldl (λ l o, apply_op o l) l ((λ kv, OInsert kv.1 kv.2) <$> kvs) ≡ₚ kvs ++ l.
Proof.
  induction kvs as [|[k v] kvs IH]; intros l Hnd; simpl; [done|].
  simpl in Hnd. apply NoDup_cons in Hnd as (Hk & Hnd).
  apply not_elem_of_app in Hk as (Hk1 & Hk2).
  rewrite IH.
  - rewrite (upsert_perm k v l Hk2). by rewrite Permutation_middle.
  - rewrite (upsert_keys_perm k v l Hk2). rewrite <- Permutation_middle.
    apply NoDup_cons. split; [|done]. by apply not_elem_of_app.
Qed.

Lemma find_result k s l :
  contents s l → ∃ s', find k s = Ok (default PyNone (assoc k l)) s'.
Proof.
  intros Hc. destruct l as [|x l].
  - exists s. by apply find_contents_empty.
  - destruct (find_contents k s _ Hc ltac:(done)) as (s' & ? & ? & Ef & _). eauto.
Qed.

Lemma read_op_items o l : (∀ k, ¬ touches k o) → apply_op o l = l.
Proof.
  destruct o as [k v|k|k| |]; simpl; intros H; try done.
  - by destruct (H k).
  - by destruct (H k).
Qed.

Lemma read_ops_items ops : ∀ l,
  Forall (λ o, ∀ k, ¬ touches k o) ops →
  foldl (λ l o, apply_op o l) l ops = l.
Proof.
  induction ops as [|o ops IH]; intros l H; simpl; [done|].
  inversion H as [|? ? Ho Hops]; subst.
  rewrite read_op_items by done. by apply IH.
Qed.

Lemma contents_root_min s l a n :
  contents s l → root s = Some a → mem s !! a = Some n →
  head l = Some (key n, value n) → left n = None.
Proof.
  intros (t & H & <- & Ha) Hr Hn Hh. rewrite (repz_root _ _ H) in Hr.
  apply ptr_Some in Hr as (L & k & v & R & ->).
  rewrite (repz_root_node _ _ _ _ _ _ H) in Hn. injection Hn as <-. simpl in *.
  destruct L as [|ll la lk lv lr]; [done|]. exfalso.
  rewrite fmap_app in Ha. apply ascending_app in Ha as (_ & _ & Hlt).
  assert (k ∈ (items (T ll la lk lv lr)).*1) as Hin.
  { destruct (items (T ll la lk lv lr)) as [|x xs] eqn:E.
    - by apply items_nonempty in E.
    - simpl in Hh. injection Hh as ->. simpl. set_solver. }
  specialize (Hlt k k Hin). assert (k < k) by (apply Hlt; simpl; set_solver). lia.
Qed.

Lemma contents_root_max s l a n :
  contents s l → root s = Some a → mem s !! a = Some n →
  last l = Some (key n, value n) → right n = None.
Proof.
  intros (t & H & <- & Ha) Hr Hn Hh. rewrite (repz_root _ _ H) in Hr.
  apply ptr_Some in Hr as (L & k & v & R & ->).
  rewrite (repz_root_node _ _ _ _ _ _ H) in Hn. injection Hn as <-. simpl in *.
  destruct R as [|rl ra rk rv rr]; [done|]. exfalso.
  rewrite fmap_app in Ha. apply ascending_app in Ha as (_ & Ha & _).
  simpl in Ha. apply ascending_cons in Ha as (_ & Hlt).
  assert (k ∈ (items (T rl ra rk rv rr)).*1) as Hin.
  { rewrite last_app, last_cons in Hh.
    destruct (last (items (T rl ra rk rv rr))) as [x|] eqn:E.
    - injection Hh as ->. apply last_elem in E. by eapply elem_keys.
    - apply last_None in E. by apply items_nonempty in E. }
  specialize (Hlt k Hin). lia.
Qed.

(** X7.  Inserting pairs with pairwise distinct keys, none of them in the
    tree yet, adds exactly those pairs: afterwards [inorder()] is the old
    contents together with the new pairs, arranged by ascending key. *)
Theorem X7_insert_many s l kvs :
  reachable s →
  inorder s = Ok l s →
  NoDup (kvs.*1 ++ l.*1) →
  ∃ s' l',
    run ((λ kv, OInsert kv.1 kv.2) <$> kvs) s = Some s'
    ∧ inorder s' = Ok l' s'
    ∧ l' ≡ₚ kvs ++ l
    ∧ ascending l'.*1.
Proof.
  intros Hr Hi Hnd. pose proof (reachable_inorder s l Hr Hi) as Hc.
  destruct (run_contents ((λ kv, OInsert kv.1 kv.2) <$> kvs) s l Hc) as (s' & E & Hc').
  eexists s', _. split_and!; [done|by apply contents_inorder| |by eapply contents_ascending].
  by apply insert_many_items.
Qed.

(** X8.  The tree behaves as an association list kept in key order: after
    any sequence of operations on the empty tree, [inorder()] is the list
    obtained by replaying the sequence on the empty list, where an insert
    puts or overwrites the pair at the key's place, a delete removes the
    key's pair, and [find], [minimum] and [maximum] change nothing. *)
Theorem X8_inorder_replays_updates (ops : list op) :
  ∃ s, run ops init = Some s
       ∧ inorder s = Ok (foldl (λ l o, apply_op o l) [] ops) s.
Proof.
  destruct (run_contents ops init [] contents_init) as (s & E & Hc).
  exists s. split; [done|]. by apply contents_inorder.
Qed.

(** X9.  [find], [minimum] and [maximum] restructure the tree but never
    change what it holds: after any sequence of these calls on a reachable
    tree, [inorder()] returns the same list as before. *)
Theorem X9_lookups_keep_contents s l ops :
  reachable s →
  inorder s = Ok l s →
  Forall (λ o, ∀ k, ¬ touches k o) ops →
  ∃ s', run ops s = Some s' ∧ inorder s' = Ok l s'.
Proof.
  intros Hr Hi Hops. pose proof (reachable_inorder s l Hr Hi) as Hc.
  destruct (run_contents ops s l Hc) as (s' & E & Hc').
  rewrite read_ops_items in Hc' by done.
  exists s'. split; [done|]. by apply contents_inorder.
Qed.

(** X10.  What [find(k)] returns depends on the operations on [k] alone: on
    a reachable tree, after any sequence of operations that neither insert
    nor delete [k], [find(k)] returns what it would have returned before. *)
Theorem X10_find_ignores_other_keys s k ops :
  reachable s →
  Forall (λ o, ¬ touches k o) ops →
  ∃ r s1 s2 s3,
    find k s = Ok r s1 ∧ run ops s = Some s2 ∧ find k s2 = Ok r s3.
Proof.
  intros Hr Hops. destruct (reachable_contents s Hr) as (l & Hc).
  destruct (find_result k s l Hc) as (s1 & E1).
  destruct (run_contents ops s l Hc) as (s2 & E2 & Hc2).
  destruct (find_result k s2 _ Hc2) as (s3 & E3).
  rewrite foldl_apply_op_assoc in E3 by done. eauto 10.
Qed.

(** X11.  On a reachable, non-empty tree [minimum()] returns the first pair
    of [inorder()] and leaves [inorder()] unchanged; afterwards the root
    holds that pair and has no left child, and a second [minimum()] returns
    the same pair and changes nothing. *)
Theorem X11_minimum_first_pair s l :
  reachable s →
  inorder s = Ok l s →
  l ≠ [] →
  ∃ k v s' n,
    minimum s = Ok (Some (k, v)) s'
    ∧ head l = Some (k, v)
    ∧ inorder s' = Ok l s'
    ∧ root_node s' = Some n ∧ key n = k ∧ value n = v ∧ left n = None
    ∧ minimum s' = Ok (Some (k, v)) s'.
Proof.
  intros Hr Hi Hl. pose proof (reachable_inorder s l Hr Hi) as Hc.
  destruct (minimum_contents s l Hc Hl)
    as (s' & a & k & v & E & Hc' & Hh & _ & Hrt & (nl & nr & Ha)).
  pose proof (contents_root_min s' l a _ Hc' Hrt Ha Hh) as Hnl. simpl in Hnl. subst nl.
  eexists k, v, s', _. split_and!; [done|done|by apply contents_inorder| | | | |].
  - unfold root_node. rewrite Hrt. exact Ha.
  - done.
  - done.
  - done.
  - by apply (minimum_at_root s' a (mkNode k v None nr None)).
Qed.

(** X12.  On a reachable, non-empty tree [maximum()] returns the last pair
    of [inorder()] and leaves [inorder()] unchanged; afterwards the root
    holds that pair and has no right child, and a second [maximum()] returns
    the same pair and changes nothing. *)
Theorem X12_maximum_last_pair s l :
  reachable s →
  inorder s = Ok l s →
  l ≠ [] →
  ∃ k v s' n,
    maximum s = Ok (Some (k, v)) s'
    ∧ last l = Some (k, v)
    ∧ inorder s' = Ok l s'
    ∧ root_node s' = Some n ∧ key n = k ∧ value n = v ∧ right n = None
    ∧ maximum s' = Ok (Some (k, v)) s'.
Proof.
  intros Hr Hi Hl. pose proof (reachable_inorder s l Hr Hi) as Hc.
  destruct (maximum_contents s l Hc Hl)
    as (s' & a & k & v & E & Hc' & Hh & _ & Hrt & (nl & nr & Ha)).
  pose proof (contents_root_max s' l a _ Hc' Hrt Ha Hh) as Hnr. simpl in Hnr. subst nr.
  eexists k, v, s', _. split_and!; [done|done|by apply contents_inorder| | | | |].
  - unfold root_node. rewrite Hrt. exact Ha.
  - done.
  - done.
  - done.
  - by apply (maximum_at_root s' a (mkNode k v nl None None)).
Qed.

(** X13.  [_inorder(node, result)] appends to the list it is given: called
    on the root of a reachable tree with a list [acc], it returns [acc]
    followed by the pairs of [inorder()], and changes nothing. *)
Theorem X13_inorder_appends s l acc :
  reachable s →
  inorder s = Ok l s →
  with_fuel (λ fuel, _inorder fuel (root s) acc) s = Ok (acc ++ l) s.
Proof.
  intros Hr Hi. destruct (reachable_inorder s l Hr Hi) as (t & H & <- & _).
  unfold with_fuel. rewrite (repz_root _ _ H).
  eapply _inorder_spec; [eapply fuel_height, H|apply H].
Qed.

(** * Rotations and splaying at an arbitrary node *)

Lemma repz_plug s c : ∀ t, repz s c t → repz s [] (plug c t).
Proof.
  induction c as [|f c IH]; intros t H; [done|].
  simpl. apply IH. by apply repz_fill.
Qed.

Lemma in_tree_zipper s t a :
  repz s [] t → in_tree s a →
  ∃ c l k v r, repz s c (T l a k v r) ∧ plug c (T l a k v r) = t.
Proof.
  intros H Hin. induction Hin as [a Hr|a n b _ IH Ha Hl|a n b _ IH Ha Hr].
  - rewrite (repz_root _ _ H) in Hr. apply ptr_Some in Hr as (l & k & v & r & ->).
    exists [], l, k, v, r. done.
  - destruct IH as (c & l & k & v & r & Hz & Hp).
    pose proof Hz as ((Ha' & _) & _). rewrite Ha in Ha'. injection Ha' as ->.
    simpl in Hl. apply ptr_Some in Hl as (ll & lk & lv & lr & ->).
    exists (FL a k v r :: c), ll, lk, lv, lr. split; [|done].
    by apply repz_down_l.
  - destruct IH as (c & l & k & v & r & Hz & Hp).
    pose proof Hz as ((Ha' & _) & _). rewrite Ha in Ha'. injection Ha' as ->.
    simpl in Hr. apply ptr_Some in Hr as (rl & rk & rv & rr & ->).
    exists (FR l a k v :: c), rl, rk, rv, rr. split; [|done].
    by apply repz_down_r.
Qed.

Lemma contents_plug s s' c t t' l :
  repz s [] (plug c t) → items (plug c t) = l → ascending l.*1 →
  repz s' c t' → items t' = items t →
  contents s' l.
Proof.
  intros _ Hi Ha H' Hit. exists (plug c t'). split_and!; [by apply repz_plug| |done].
  rewrite <- Hi. by apply items_plug_ext.
Qed.

Lemma ctx_root_cons f c h h' : ctx_root (f :: c) h = ctx_root (f :: c) h'.
Proof. done. Qed.

(** X14.  [_splay(node)] works on any node of a reachable tree, not only on
    the ones the public methods pass: it returns the node, which is then the
    root with parent [None] and its key and value untouched, [inorder()] is
    unchanged and the parent links are consistent. *)
Theorem X14_splay_any_node s l a :
  reachable s →
  inorder s = Ok l s →
  in_tree s a →
  ∃ n s' n',
    mem s !! a = Some n
    ∧ _splay (Some a) s = Ok (Some a) s'
    ∧ root s' = Some a
    ∧ mem s' !! a = Some n'
    ∧ key n' = key n ∧ value n' = value n ∧ parent n' = None
    ∧ inorder s' = Ok l s'
    ∧ parent_links s'.
Proof.
  intros Hr Hi Hin. destruct (reachable_inorder s l Hr Hi) as (t & H & Hl & Ha).
  destruct (in_tree_zipper s t a H Hin) as (c & tl & k & v & tr & Hz & Hp).
  destruct (splay_spec _ _ _ _ _ _ _ Hz) as (s' & E & R).
  pose proof Hz as ((Hn & _) & _).
  pose proof (splay_tree_items (c, T tl a k v tr)) as Hit. simpl in Hit.
  rewrite Hp, Hl in Hit.
  assert (contents s' l) as Hc' by (eexists; split_and!; [exact R|exact Hit|done]).
  unfold splay_tree in R. simpl in R.
  eexists _, s', _. split_and!; [exact Hn|exact E|apply (repz_root _ _ R)
    |apply (repz_root_node _ _ _ _ _ _ R)|done|done|done
    |by apply contents_inorder|by eapply contents_parent_links].
Qed.

(** X15.  [_rotate_right(x)] at any node [x] of a reachable tree that has a
    left child [y] returns [y] and lifts it into [x]'s place: [y] takes
    [x]'s parent (and the root reference if [x] was the root), [x] becomes
    [y]'s right child and takes [y]'s former right subtree as its left one;
    [inorder()] is unchanged and the parent links stay consistent. *)
Theorem X15_rotate_right_at_node s l x n y :
  reachable s →
  inorder s = Ok l s →
  in_tree s x →
  mem s !! x = Some n →
  left n = Some y →
  ∃ ny s' nx' ny',
    mem s !! y = Some ny
    ∧ _rotate_right (Some x) s = Ok (Some y) s'
    ∧ mem s' !! x = Some nx' ∧ mem s' !! y = Some ny'
    ∧ parent ny' = parent n ∧ left ny' = left ny ∧ right ny' = Some x
    ∧ parent nx' = Some y ∧ left nx' = right ny ∧ right nx' = right n
    ∧ key nx' = key n ∧ value nx' = value n
    ∧ key ny' = key ny ∧ value ny' = value ny
    ∧ (parent n = None → root s' = Some y)
    ∧ (parent n ≠ None → root s' = root s)
    ∧ inorder s' = Ok l s'
    ∧ parent_links s'.
Proof.
  intros Hr Hi Hin Hn Hy. destruct (reachable_inorder s l Hr Hi) as (t & H & Hl & Ha).
  destruct (in_tree_zipper s t x H Hin) as (c & tl & k & v & tr & Hz & Hp).
  pose proof Hz as ((Hn' & (Hl' & _)) & _ & Hrt & _).
  rewrite Hn in Hn'. injection Hn' as ->. simpl in Hy.
  apply ptr_Some in Hy as (A & ky & vy & B & ->). simpl in Hl'.
  destruct Hl' as (Hl' & _).
  destruct (rotate_right_spec _ _ _ _ _ _ _ _ _ _ _ Hz) as (s' & E & R).
  assert (contents s' l) as Hc'.
  { eapply (contents_plug s s' c); [rewrite Hp; exact H|by rewrite Hp|done|exact R|].
    simpl. by rewrite <- app_assoc. }
  pose proof R as ((Hy' & _ & (Hx' & _)) & _ & Hrt' & _).
  eexists _, s', _, _. split_and!; [exact Hl'|exact E|exact Hx'|exact Hy'|try done..].
  - simpl. intros Hc. destruct c; [|done]. exact Hrt'.
  - simpl. intros Hc. destruct c as [|f c]; [done|]. rewrite Hrt, Hrt'. done.
  - by apply contents_inorder.
  - by eapply contents_parent_links.
Qed.

(** X16.  [_rotate_left(x)] at any node [x] of a reachable tree that has a
    right child [y] returns [y] and lifts it into [x]'s place: [y] takes
    [x]'s parent (and the root reference if [x] was the root), [x] becomes
    [y]'s left child and takes [y]'s former left subtree as its right one;
    [inorder()] is unchanged and the parent links stay consistent. *)
Theorem X16_rotate_left_at_node s l x n y :
  reachable s →
  inorder s = Ok l s →
  in_tree s x →
  mem s !! x = Some n →
  right n = Some y →
  ∃ ny s' nx' ny',
    mem s !! y = Some ny
    ∧ _rotate_left (Some x) s = Ok (Some y) s'
    ∧ mem s' !! x = Some nx' ∧ mem s' !! y = Some ny'
    ∧ parent ny' = parent n ∧ right ny' = right ny ∧ left ny' = Some x
    ∧ parent nx' = Some y ∧ right nx' = left ny ∧ left nx' = left n
    ∧ key nx' = key n ∧ value nx' = value n
    ∧ key ny' = key ny ∧ value ny' = value ny
    ∧ (parent n = None → root s' = Some y)
    ∧ (parent n ≠ None → root s' = root s)
    ∧ inorder s' = Ok l s'
    ∧ parent_links s'.
Proof.
  intros Hr Hi Hin Hn Hy. destruct (reachable_inorder s l Hr Hi) as (t & H & Hl & Ha).
  destruct (in_tree_zipper s t x H Hin) as (c & tl & k & v & tr & Hz & Hp).
  pose proof Hz as ((Hn' & (_ & Hr')) & _ & Hrt & _).
  rewrite Hn in Hn'. injection Hn' as ->. simpl in Hy.
  apply ptr_Some in Hy as (B & ky & vy & C & ->). simpl in Hr'.
  destruct Hr' as (Hr' & _).
  destruct (rotate_left_spec _ _ _ _ _ _ _ _ _ _ _ Hz) as (s' & E & R).
  assert (contents s' l) as Hc'.
  { eapply (contents_plug s s' c); [rewrite Hp; exact H|by rewrite Hp|done|exact R|].
    simpl. by rewrite <- app_assoc. }
  pose proof R as ((Hy' & (Hx' & _) & _) & _ & Hrt' & _).
  eexists _, s', _, _. split_and!; [exact Hr'|exact E|exact Hx'|exact Hy'|try done..].
  - simpl. intros Hc. destruct c; [|done]. exact Hrt'.
  - simpl. intros Hc. destruct c as [|f c]; [done|]. rewrite Hrt, Hrt'. done.
  - by apply contents_inorder.
  - by eapply contents_parent_links.
Qed.

(** X17.  The rotations have a precondition they do not check:
    [_rotate_right] on a node without a left child, and [_rotate_left] on a
    node without a right child, raise [AttributeError] at the first
    attribute read on [None]. *)
Theorem X17_rotation_needs_child s x n :
  mem s !! x = Some n →
  (left n = None → _rotate_right (Some x) s = AttributeError)
  ∧ (right n = None → _rotate_left (Some x) s = AttributeError).
Proof.
  intros Hn. split; intros Hc.
  - unfold _rotate_right. step. rewrite Hc. reflexivity.
  - unfold _rotate_left. step. rewrite Hc. reflexivity.
Qed.

(** * A rotation and its mirror image cancel *)

Ltac same_store :=
  apply map_eq; intros ?i;
  repeat (rewrite lookup_insert; case_decide; [subst; by symmetry|]);
  reflexivity.

Lemma rotate_right_left s c A y ky vy B x kx vx C :
  repz s c (T (T A y ky vy B) x kx vx C) →
  ∃ s', _rotate_right (Some x) s = Ok (Some y) s'
        ∧ _rotate_left (Some y) s' = Ok (Some x) s.
Proof.
  destruct s as [h rt]. unfold repz.
  intros ((Hx & (Hy & HA & HB) & HC) & Hc & Hrt & Hnd).
  unfold _rotate_right.
  destruct B as [|Bl b kb vb Br]; destruct c as [|[p kp vp S|S p kp vp] c']; simpl in *.
  all: try destruct HB as (Hb & HBl & HBr).
  all: try destruct Hc as (Hp & HS & Hc).
  all: nd_split Hnd.
  all: repeat step; unfold ret; eexists; (split; [reflexivity|]).
  all: unfold _rotate_left; repeat step; unfold ret; f_equal; subst rt.
  all: f_equal; same_store.
Qed.

Lemma rotate_left_right s c A x kx vx B y ky vy C :
  repz s c (T A x kx vx (T B y ky vy C)) →
  ∃ s', _rotate_left (Some x) s = Ok (Some y) s'
        ∧ _rotate_right (Some y) s' = Ok (Some x) s.
Proof.
  destruct s as [h rt]. unfold repz.
  intros ((Hx & HA & (Hy & HB & HC)) & Hc & Hrt & Hnd).
  unfold _rotate_left.
  destruct B as [|Bl b kb vb Br]; destruct c as [|[p kp vp S|S p kp vp] c']; simpl in *.
  all: try destruct HB as (Hb & HBl & HBr).
  all: try destruct Hc as (Hp & HS & Hc).
  all: nd_split Hnd.
  all: repeat step; unfold ret; eexists; (split; [reflexivity|]).
  all: unfold _rotate_right; repeat step; unfold ret; f_equal; subst rt.
  all: f_equal; same_store.
Qed.

(** X18.  A left rotation undoes a right rotation: after [_rotate_right(x)]
    at a node [x] of a reachable tree with left child [y],
    [_rotate_left(y)] returns [x] and restores every field of every node and
    the root reference. *)
Theorem X18_rotate_right_then_left s x n y :
  reachable s →
  in_tree s x →
  mem s !! x = Some n →
  left n = Some y →
  ∃ s', _rotate_right (Some x) s = Ok (Some y) s'
        ∧ _rotate_left (Some y) s' = Ok (Some x) s.
Proof.
  intros Hr Hin Hn Hy. destruct (reachable_contents s Hr) as (l & t & H & _).
  destruct (in_tree_zipper s t x H Hin) as (c & tl & k & v & tr & Hz & Hp).
  pose proof Hz as ((Hn' & _) & _).
  rewrite Hn in Hn'. injection Hn' as ->. simpl in Hy.
  apply ptr_Some in Hy as (A & ky & vy & B & ->).
  by eapply rotate_right_left.
Qed.

(** X19.  A right rotation undoes a left rotation: after [_rotate_left(x)]
    at a node [x] of a reachable tree with right child [y],
    [_rotate_right(y)] returns [x] and restores every field of every node
    and the root reference. *)
Theorem X19_rotate_left_then_right s x n y :
  reachable s →
  in_tree s x →
  mem s !! x = Some n →
  right n = Some y →
  ∃ s', _rotate_left (Some x) s = Ok (Some y) s'
        ∧ _rotate_right (Some y) s' = Ok (Some x) s.
Proof.
  intros Hr Hin Hn Hy. destruct (reachable_contents s Hr) as (l & t & H & _).
  destruct (in_tree_zipper s t x H Hin) as (c & tl & k & v & tr & Hz & Hp).
  pose proof Hz as ((Hn' & _) & _).
  rewrite Hn in Hn'. injection Hn' as ->. simpl in Hy.
  apply ptr_Some in Hy as (B & ky & vy & C & ->).
  by eapply rotate_left_right.
Qed.

(** * The root after a find *)

Lemma descend_adjacent k t :
  ascending (keys t) → ∀ c dl a ka va dr,
  (descend k t c).2 = T dl a ka va dr →
  ka ∈ keys t
  ∧ ∀ x, x ∈ keys t → ¬ (ka < x < k) ∧ ¬ (k < x < ka).
Proof.
  induction t as [|l IHl b kb vb r IHr]; [done|].
  rewrite ascending_node. intros (Hl & Hr & Hlk & Hkr) c dl a ka va dr.
  rewrite keys_node.
  assert (∀ x, x ∈ keys l ++ kb :: keys r → x ∈ keys l ∨ x = kb ∨ x ∈ keys r) as Hsplit
    by (intros x; rewrite elem_of_app, elem_of_cons; tauto).
  assert (∀ x, x ∈ keys l → x ∈ keys l ++ kb :: keys r) as HinL by set_solver.
  assert (∀ x, x ∈ keys r → x ∈ keys l ++ kb :: keys r) as HinR by set_solver.
  assert (kb ∈ keys l ++ kb :: keys r) as Hinb by set_solver.
  simpl. destruct (k =? kb) eqn:E.
  - apply Z.eqb_eq in E as ->. simpl. intros [= -> -> -> -> ->].
    split; [done|]. intros x _. lia.
  - apply Z.eqb_neq in E. destruct (k <? kb) eqn:E'.
    + apply Z.ltb_lt in E'. destruct l as [|ll la lk lv lr].
      * simpl. intros [= <- <- <- <- <-]. split; [done|].
        intros x Hx. apply Hsplit in Hx as [Hx|[->|Hx]]; [by apply elem_of_nil in Hx|lia|].
        specialize (Hkr x Hx). lia.
      * intros Hd. destruct (IHl Hl _ _ _ _ _ _ Hd) as (Hin & Hadj).
        pose proof (Hlk ka Hin). split; [auto|].
        intros x Hx. apply Hsplit in Hx as [Hx|[->|Hx]]; [by apply Hadj|lia|].
        specialize (Hkr x Hx). lia.
    + apply Z.ltb_ge in E'. destruct r as [|rl ra rk rv rr].
      * simpl. intros [= <- <- <- <- <-]. split; [done|].
        intros x Hx. apply Hsplit in Hx as [Hx|[->|Hx]]; [|lia|by apply elem_of_nil in Hx].
        specialize (Hlk x Hx). lia.
      * intros Hd. destruct (IHr Hr _ _ _ _ _ _ Hd) as (Hin & Hadj).
        pose proof (Hkr ka Hin). split; [auto|].
        intros x Hx. apply Hsplit in Hx as [Hx|[->|Hx]]; [|lia|by apply Hadj].
        specialize (Hlk x Hx). lia.
Qed.

(** X20.  After [find(k)] on a reachable, non-empty tree, hit or miss, the
    key at the root is a stored key next to [k]: it is [k] itself if [k] is
    stored, and otherwise no stored key lies strictly between it and [k]
    (it is the largest key below [k] or the smallest key above it). *)
Theorem X20_find_leaves_neighbour_at_root s l k :
  reachable s →
  inorder s = Ok l s →
  l ≠ [] →
  ∃ r s' n,
    find k s = Ok r s'
    ∧ root_node s' = Some n
    ∧ key n ∈ l.*1
    ∧ (k ∈ l.*1 → key n = k)
    ∧ ∀ x, x ∈ l.*1 → ¬ (key n < x < k) ∧ ¬ (k < x < key n).
Proof.
  intros Hr Hi Hl. destruct (reachable_inorder s l Hr Hi) as (t & H & Hit & Ha).
  assert (t ≠ Leaf) as Ht by (intros ->; simpl in Hit; by subst).
  destruct (find_spec k s t Ht H) as (s' & E & R).
  pose proof (descend_nonleaf k t [] Ht) as Hd.
  pose proof (hit_assoc k t ltac:(unfold keys; by rewrite Hit)) as Hh.
  pose proof (descend_adjacent k t ltac:(unfold keys; by rewrite Hit) []) as Hadj.
  unfold splay_tree in R.
  destruct (descend k t []).2 as [|dl a ka va dr]; [done|].
  destruct (Hadj dl a ka va dr eq_refl) as (Hin & Hx).
  unfold keys in *. rewrite Hit in *.
  eexists _, s', _. split_and!; [exact E| | | |].
  - unfold root_node. rewrite (repz_root _ _ R). apply (repz_root_node _ _ _ _ _ _ R).
  - exact Hin.
  - simpl. intros Hk. apply assoc_is_Some in Hk as (v & Hv). rewrite Hv in Hh.
    apply hit_Some in Hh as (? & ? & ? & [= _ _ -> _ _]). done.
  - exact Hx.
Qed.

(** * Node objects keep their pairs *)

Lemma cells_plug_ext c : ∀ t1 t2, cells t1 = cells t2 → cells (plug c t1) = cells (plug c t2).
Proof.
  induction c as [|[a k v r|l a k v] c IH]; intros t1 t2 E; simpl; [done| |].
  all: apply IH; simpl; by rewrite E.
Qed.

Lemma splay_z_cells c : ∀ l a k v r,
  cells (T (splay_z c l r).1 a k v (splay_z c l r).2) = cells (plug c (T l a k v r)).
Proof.
  induction c as [|f|f g c IH] using list_ind2; intros l a k v r.
  - done.
  - destruct f; simpl; rewrite <- ?app_assoc; done.
  - destruct f, g; cbn [splay_z plug fill]; rewrite IH; apply cells_plug_ext; simpl;
      rewrite <- ?app_assoc; simpl; rewrite <- ?app_assoc; done.
Qed.

Lemma splay_tree_cells z : cells (splay_tree z) = cells (plug z.1 z.2).
Proof. destruct z as [c [|l a k v r]]; [done|]. apply splay_z_cells. Qed.

Lemma cells_addrs t : (cells t).*1 = addrs t.
Proof.
  induction t as [|l IHl a k v r IHr]; [done|].
  cbn [cells addrs]. rewrite fmap_app, fmap_cons, IHl, IHr. done.
Qed.

Lemma cells_items t : (cells t).*2 = items t.
Proof.
  induction t as [|l IHl a k v r IHr]; [done|].
  cbn [cells items]. rewrite fmap_app, fmap_cons, IHl, IHr. done.
Qed.

Lemma rightmost_splay_cells L ml m km vm x :
  (rightmost L []).2 = T ml m km vm x →
  x = Leaf
  ∧ cells (splay_z (rightmost L []).1 ml Leaf).1 ++ [(m, (km, vm))] = cells L.
Proof.
  intros Es.
  assert (L ≠ Leaf) as HL by (intros ->; done).
  destruct (rightmost_shape L [] HL) as (ml' & m' & km' & vm' & Es').
  rewrite Es in Es'. injection Es' as -> -> -> -> ->. split; [done|].
  pose proof (rightmost_plug L []) as Hp.
  pose proof (rightmost_spine L [] ltac:(constructor)) as Hs.
  destruct (rightmost L []) as [cL tL]. simpl in *. subst tL.
  pose proof (splay_z_cells cL ml' m' km' vm' Leaf) as Hi.
  rewrite Hp in Hi. rewrite splay_z_spine_snd in Hi by done.
  rewrite <- Hi. done.
Qed.

Lemma join_cells L R : cells (join L R) = cells L ++ cells R.
Proof.
  destruct L as [|ll la lk lv lr]; [done|].
  destruct R as [|rl ra rk rv rr]; [simpl; by rewrite app_nil_r|].
  unfold join.
  destruct (rightmost (T ll la lk lv lr) []).2 as [|ml m km vm x] eqn:Es.
  - destruct (rightmost_shape (T ll la lk lv lr) [] ltac:(done)) as (? & ? & ? & ? & E).
    rewrite E in Es. done.
  - apply rightmost_splay_cells in Es as (-> & Hi).
    rewrite <- Hi.
    change (cells (T ?l m km vm ?R)) with (cells l ++ (m, (km, vm)) :: cells R).
    rewrite <- app_assoc. done.
Qed.

Lemma repz_unplug s c : ∀ t, repz s [] (plug c t) → repz s c t.
Proof.
  induction c as [|f c IH]; intros t H; [done|].
  simpl in H. apply repz_fill. by apply IH.
Qed.

Lemma plug_app c f : ∀ t, plug (c ++ [f]) t = fill f (plug c t).
Proof. induction c as [|g c IH]; intros t; [done|]. simpl. apply IH. Qed.

Lemma cells_zipper t a k v :
  (a, (k, v)) ∈ cells t → ∃ c l r, plug c (T l a k v r) = t.
Proof.
  induction t as [|l IHl b kb vb r IHr]; simpl; [by intros ?%elem_of_nil|].
  intros Hin. apply elem_of_app in Hin as [Hin|Hin].
  - destruct (IHl Hin) as (c & l' & r' & <-).
    exists (c ++ [FL b kb vb r]), l', r'. apply plug_app.
  - apply elem_of_cons in Hin as [[= -> -> ->]|Hin].
    + by exists [], l, r.
    + destruct (IHr Hin) as (c & l' & r' & <-).
      exists (c ++ [FR l b kb vb]), l', r'. apply plug_app.
Qed.

Lemma cells_plug_mono c : ∀ t x, x ∈ cells t → x ∈ cells (plug c t).
Proof.
  induction c as [|f c IH]; intros t x Hx; [done|].
  simpl. apply IH. destruct f; simpl; rewrite elem_of_app, elem_of_cons; tauto.
Qed.

Lemma cells_plug_focus c l a k v r : (a, (k, v)) ∈ cells (plug c (T l a k v r)).
Proof.
  apply cells_plug_mono. simpl. rewrite elem_of_app, elem_of_cons. tauto.
Qed.

(** A node is in the tree with pair [(k, v)] exactly when it is listed. *)
Lemma cells_in_tree s t a k v :
  repz s [] t →
  (a, (k, v)) ∈ cells t
  ↔ in_tree s a ∧ ∃ n, mem s !! a = Some n ∧ key n = k ∧ value n = v.
Proof.
  intros H. split.
  - intros Hin. destruct (cells_zipper t a k v Hin) as (c & l & r & Hp).
    rewrite <- Hp in H. apply repz_unplug in H.
    split; [by eapply repz_in_tree|].
    destruct H as ((Hn & _) & _). eauto.
  - intros (Hin & n & Hn & <- & <-).
    destruct (in_tree_zipper s t a H Hin) as (c & l & k & v & r & Hz & <-).
    destruct Hz as ((Hn' & _) & _). rewrite Hn in Hn'. injection Hn' as ->.
    simpl. apply cells_plug_focus.
Qed.

(** Textbook insertion keeps every node holding another key. *)
Lemma tins_cells k v n t b kb vb :
  kb ≠ k → (b, (kb, vb)) ∈ cells t → (b, (kb, vb)) ∈ cells (tins k v n t).
Proof.
  intros Hne. induction t as [|l IHl a ka va r IHr]; simpl; [by intros ?%elem_of_nil|].
  rewrite elem_of_app, elem_of_cons. intros Hin. destruct (k =? ka) eqn:E.
  - apply Z.eqb_eq in E as ->. simpl. rewrite elem_of_app, elem_of_cons.
    destruct Hin as [?|[[= -> -> ->]|?]]; [tauto|done|tauto].
  - destruct (k <? ka); simpl; rewrite elem_of_app, elem_of_cons; tauto.
Qed.

Lemma in_tree_addrs s t b : repz s [] t → (in_tree s b ↔ b ∈ addrs t).
Proof.
  intros H. split.
  - intros Hin. destruct (in_tree_zipper s t b H Hin) as (c & l & k & v & r & _ & <-).
    rewrite <- cells_addrs.
    apply (list_elem_of_fmap_2' fst _ (b, (k, v))); [apply cells_plug_focus|done].
  - rewrite <- cells_addrs. intros Hin.
    apply list_elem_of_fmap_1 in Hin as ([b' [k v]] & -> & Hin).
    by apply (cells_in_tree s t b' k v H) in Hin as (Hin & _).
Qed.

Lemma run_op_cells o s s' t :
  repz s [] t → ascending (keys t) → run_op o s = Some s' →
  ∃ t', repz s' [] t'
        ∧ ∀ b kb vb, ¬ touches kb o →
                     (b, (kb, vb)) ∈ cells t → (b, (kb, vb)) ∈ cells t'.
Proof.
  intros H Ha. destruct o as [k v|k|k| |]; simpl; unfold exec.
  - destruct (insert_spec k v s t H) as (s1 & E & R). rewrite E. intros [= <-].
    eexists. split; [exact R|]. intros b kb vb Hne Hin.
    rewrite splay_tree_cells, insert_desc_plug. simpl.
    apply tins_cells; [|done]. intros ->. by apply Hne.
  - destruct t as [|tl ta tk tv tr].
    + rewrite (find_spec_empty k s H). intros [= <-]. eexists; split; [exact H|auto].
    + destruct (find_spec k s (T tl ta tk tv tr) ltac:(done) H) as (s1 & E & R). rewrite E. intros [= <-].
      eexists. split; [exact R|]. intros b kb vb _ Hin.
      by rewrite splay_tree_cells, descend_plug.
  - pose proof (hit_assoc k t Ha) as Hh.
    destruct (hit k (descend k t []).2) as [v|] eqn:Eh.
    + apply hit_Some in Eh as (dl & a & dr & Hd).
      destruct (delete_spec_present k s t dl a v dr H Hd) as (s1 & E & R).
      rewrite E. intros [= <-]. eexists. split; [exact R|].
      intros b kb vb Hne Hin.
      pose proof (splay_tree_cells (descend k t [])) as Hc.
      rewrite descend_plug in Hc. simpl in Hc.
      unfold splay_tree in *. rewrite Hd in *. simpl in Hc. simpl unlink.
      rewrite join_cells. rewrite <- Hc in Hin.
      rewrite elem_of_app, elem_of_cons in Hin. rewrite elem_of_app.
      destruct Hin as [?|[[= -> -> ->]|?]]; [tauto| |tauto]. by destruct Hne.
    + rewrite (delete_spec_absent k s t H).
      * intros [= <-]. eexists; split; [exact H|auto].
      * destruct (descend k t []).2 as [|dl a ka va dr]; [done|].
        simpl in Eh. intros ->. by rewrite Z.eqb_refl in Eh.
  - destruct t as [|tl ta tk tv tr].
    + rewrite (minimum_spec_empty s H). intros [= <-]. eexists; split; [exact H|auto].
    + destruct (minimum_spec s (T tl ta tk tv tr) ltac:(done) H) as (s1 & E & R). rewrite E. intros [= <-].
      eexists. split; [exact R|]. intros b kb vb _ Hin.
      by rewrite splay_tree_cells, leftmost_plug.
  - destruct t as [|tl ta tk tv tr].
    + rewrite (maximum_spec_empty s H). intros [= <-]. eexists; split; [exact H|auto].
    + destruct (maximum_spec s (T tl ta tk tv tr) ltac:(done) H) as (s1 & E & R). rewrite E. intros [= <-].
      eexists. split; [exact R|]. intros b kb vb _ Hin.
      by rewrite splay_tree_cells, rightmost_plug.
Qed.

(** X21.  No operation moves a pair to another node object or drops a node
    it was not asked to: a node of a reachable tree is still a node of the
    tree after any operation other than an insert or delete of its own key,
    and it holds the same key and the same value. *)
Theorem X21_nodes_keep_their_pairs o s s' b n :
  reachable s →
  run_op o s = Some s' →
  in_tree s b →
  mem s !! b = Some n →
  ¬ touches (key n) o →
  in_tree s' b
  ∧ ∃ n', mem s' !! b = Some n' ∧ key n' = key n ∧ value n' = value n.
Proof.
  intros Hr E Hin Hn Ht. destruct (reachable_contents s Hr) as (l & t & H & <- & Ha).
  destruct (run_op_cells o s s' t H Ha E) as (t' & H' & Hcells).
  apply (cells_in_tree s' t' b (key n) (value n) H').
  apply Hcells; [done|].
  apply (cells_in_tree s t b (key n) (value n) H). eauto.
Qed.

(** X22.  A successful [delete(k)] unlinks exactly the node that held [k]:
    that node is no longer reached from the root, every other node of the
    tree still is, and no node is added. *)
Theorem X22_delete_unlinks_one_node s l k :
  reachable s →
  inorder s = Ok l s →
  k ∈ l.*1 →
  ∃ a s',
    _find_node k s = Ok (Some a) s
    ∧ delete k s = Ok true s'
    ∧ in_tree s a
    ∧ ∀ b, in_tree s' b ↔ in_tree s b ∧ b ≠ a.
Proof.
  intros Hr Hi Hk. destruct (reachable_inorder s l Hr Hi) as (t & H & <- & Ha).
  pose proof (hit_assoc k t Ha) as Hh.
  apply assoc_is_Some in Hk as (v & Hv). rewrite Hv in Hh.
  apply hit_Some in Hh as (dl & a & dr & Hd).
  destruct (delete_steps k s t dl a v dr H Hd) as (s1 & s2 & En & Es & R1 & Er & R2 & Ed).
  pose proof (splay_tree_addrs (descend k t [])) as Hc.
  rewrite descend_plug in Hc. simpl in Hc.
  unfold splay_tree in *. rewrite Hd in *. simpl in Hc. simpl unlink in R2.
  set (L := (splay_z (descend k t []).1 dl dr).1) in *.
  set (R := (splay_z (descend k t []).1 dl dr).2) in *.
  pose proof R1 as (_ & _ & _ & Hnd). simpl in Hnd. rewrite app_nil_r in Hnd.
  assert (addrs (join L R) = addrs L ++ addrs R) as Hj.
  { rewrite <- !cells_addrs, join_cells. by rewrite fmap_app. }
  apply NoDup_app in Hnd as (_ & HLR & HaR). apply NoDup_cons in HaR as (HaR & _).
  assert (a ∉ addrs L) as HaL.
  { intros Hin. apply (HLR a Hin). rewrite elem_of_cons. by left. }
  exists a, s2. split_and!; [done|done| |].
  - apply (in_tree_addrs s t a H). rewrite <- Hc. rewrite elem_of_app, elem_of_cons. tauto.
  - intros b. rewrite (in_tree_addrs s2 _ b R2), (in_tree_addrs s t b H), Hj, <- Hc.
    rewrite !elem_of_app, elem_of_cons. split.
    + intros [Hb|Hb]; (split; [tauto|]); intros ->; done.
    + intros ([?|[?|?]] & Hne); tauto.
Qed.

(** * The targets of the splay *)

Lemma remove_key_elem k l x :
  ascending l.*1 → x ∈ remove_key k l ↔ x ∈ l ∧ x.1 ≠ k.
Proof.
  induction l as [|[k' v'] l IH]; simpl.
  - rewrite elem_of_nil. tauto.
  - rewrite ascending_cons. intros (Hl & Hk').
    destruct (k =? k') eqn:E.
    + apply Z.eqb_eq in E as <-. rewrite elem_of_cons. split.
      * intros Hin. split; [tauto|]. intros Hx.
        assert (x.1 ∈ l.*1) as Hin' by (by apply list_elem_of_fmap_2).
        specialize (Hk' _ Hin'). lia.
      * intros ([->|Hin] & Hne); [done|done].
    + apply Z.eqb_neq in E. rewrite !elem_of_cons, (IH Hl). split.
      * intros [->|(? & ?)]; [split; [tauto|simpl; congruence]|tauto].
      * intros ([->|?] & ?); tauto.
Qed.

Lemma delete_contents_unlinks k s l :
  contents s l → k ∈ l.*1 →
  ∃ a n s1 s2,
    _find_node k s = Ok (Some a) s
    ∧ in_tree s a
    ∧ mem s !! a = Some n ∧ key n = k
    ∧ _splay (Some a) s = Ok (Some a) s1
    ∧ root s1 = Some a
    ∧ delete_root (Some a) s1 = Ok tt s2
    ∧ delete k s = Ok true s2
    ∧ contents s2 (remove_key k l)
    ∧ (∀ b, in_tree s2 b ↔ in_tree s b ∧ b ≠ a).
Proof.
  intros (t & H & <- & Ha) Hk.
  pose proof (hit_assoc k t Ha) as Hh.
  apply assoc_is_Some in Hk as (v & Hv). rewrite Hv in Hh.
  apply hit_Some in Hh as (dl & a & dr & Hd).
  destruct (delete_steps k s t dl a v dr H Hd) as (s1 & s2 & En & Es & R1 & Er & R2 & Ed).
  pose proof (unlink_items k t dl a v dr Ha Hd) as Hu.
  pose proof (descend_repz k s t [] H) as Hz. rewrite Hd in Hz.
  pose proof Hz as ((Hn & _) & _).
  pose proof (splay_tree_addrs (descend k t [])) as Hc.
  rewrite descend_plug in Hc. simpl in Hc.
  unfold splay_tree in *. rewrite Hd in *. simpl in Hc. simpl unlink in R2, Hu.
  set (L := (splay_z (descend k t []).1 dl dr).1) in *.
  set (R := (splay_z (descend k t []).1 dl dr).2) in *.
  pose proof R1 as (_ & _ & _ & Hnd). simpl in Hnd. rewrite app_nil_r in Hnd.
  assert (addrs (join L R) = addrs L ++ addrs R) as Hj.
  { rewrite <- !cells_addrs, join_cells. by rewrite fmap_app. }
  apply NoDup_app in Hnd as (_ & HLR & HaR). apply NoDup_cons in HaR as (HaR & _).
  assert (a ∉ addrs L) as HaL.
  { intros Hin. apply (HLR a Hin). rewrite elem_of_cons. by left. }
  eexists a, _, s1, s2. split_and!; [done| |exact Hn|done|done| |done|done| |].
  - apply (in_tree_addrs s t a H). rewrite <- Hc. rewrite elem_of_app, elem_of_cons. tauto.
  - apply (repz_root _ _ R1).
  - eexists. split_and!; [exact R2|exact Hu|by apply remove_key_ascending].
  - intros b. rewrite (in_tree_addrs s2 _ b R2), (in_tree_addrs s t b H), Hj, <- Hc.
    rewrite !elem_of_app, elem_of_cons. split.
    + intros [Hb|Hb]; (split; [tauto|]); intros ->; done.
    + intros ([?|[?|?]] & Hne); tauto.
Qed.

(** C7, as the code has it.  On a reachable, non-empty tree: [find(k)]
    leaves at the root the node its descent ends at (the node holding [k],
    or on a miss the last node visited); [insert(k, v)] leaves at the root
    the node holding [k] (the existing one, or a new one); [minimum()] and
    [maximum()] leave at the root the node their walk ends at; [delete(k)]
    with [k] present splays the node holding [k] to the root and then
    unlinks it: that node, a node of the tree before, is not reached from
    the root afterwards while every other node still is, and [inorder()]
    then lists the pairs of the other keys and no pair for [k]; and
    [delete(k)] with [k] absent returns [False] without splaying: the
    state is unchanged. *)
Theorem C7_splay_targets s l :
  reachable s →
  inorder s = Ok l s →
  l ≠ [] →
  (∀ k, ∃ a v s', _find_node k s = Ok (Some a) s
                  ∧ find k s = Ok v s' ∧ root s' = Some a)
  ∧ (∀ k v, ∃ a n s',
       insert k v s = Ok tt s' ∧ root s' = Some a
       ∧ mem s' !! a = Some n ∧ key n = k ∧ value n = v
       ∧ (k ∈ l.*1 → _find_node k s = Ok (Some a) s)
       ∧ (k ∉ l.*1 → mem s !! a = None))
  ∧ (∃ a r s', with_fuel (λ fuel, leftmost_loop fuel (root s)) s = Ok (Some a) s
               ∧ minimum s = Ok r s' ∧ root s' = Some a)
  ∧ (∃ a r s', with_fuel (λ fuel, rightmost_loop fuel (root s)) s = Ok (Some a) s
               ∧ maximum s = Ok r s' ∧ root s' = Some a)
  ∧ (∀ k, k ∈ l.*1 →
       ∃ a n s1 s2 l2,
         _find_node k s = Ok (Some a) s
         ∧ in_tree s a
         ∧ mem s !! a = Some n ∧ key n = k
         ∧ _splay (Some a) s = Ok (Some a) s1 ∧ root s1 = Some a
         ∧ delete_root (Some a) s1 = Ok tt s2
         ∧ delete k s = Ok true s2
         ∧ ¬ in_tree s2 a
         ∧ root s2 ≠ Some a
         ∧ (∀ b, in_tree s2 b ↔ in_tree s b ∧ b ≠ a)
         ∧ inorder s2 = Ok l2 s2
         ∧ (k ∉ l2.*1)
         ∧ (∀ x, x ∈ l2 ↔ x ∈ l ∧ x.1 ≠ k)
         ∧ S (length l2) = length l)
  ∧ (∀ k, k ∉ l.*1 → delete k s = Ok false s).
Proof.
  intros Hr Hi Hl. pose proof (reachable_inorder s l Hr Hi) as Hc. split_and!.
  - intros k.
    destruct (find_contents k s l Hc Hl) as (s' & a & n & Ef & _ & En & Hrt & _).
    eauto 10.
  - intros k v.
    destruct (insert_contents k v s l Hc)
      as (s1 & a & Ei & _ & Hrt & (nl & nr & Ha1) & Hin & Hnin).
    eexists a, _, s1. split_and!; [done|done|exact Ha1|done|done|done|].
    intros Hk. rewrite (Hnin Hk). apply not_elem_of_dom, is_fresh.
  - destruct (minimum_contents s l Hc Hl) as (s1 & a & k & v & E & _ & _ & El & Hrt & _).
    eauto 10.
  - destruct (maximum_contents s l Hc Hl) as (s1 & a & k & v & E & _ & _ & El & Hrt & _).
    eauto 10.
  - intros k Hk.
    destruct (delete_contents_unlinks k s l Hc Hk)
      as (a & n & s1 & s2 & En & Hin & Hn & Hkn & Es & Hrt & Er & Ed & Hc2 & Hiff).
    pose proof (contents_ascending _ _ Hc) as Hasc.
    assert (¬ in_tree s2 a) as Hout.
    { intros Hin2. apply Hiff in Hin2 as (_ & Hne). done. }
    exists a, n, s1, s2, (remove_key k l).
    split_and!; try done.
    + intros Hrt2. apply Hout. by apply in_tree_root.
    + by apply contents_inorder.
    + intros Hin2. apply remove_key_keys in Hin2 as (_ & Hne); done.
    + intros x. by apply remove_key_elem.
    + by apply remove_key_length.
  - intros k Hk. by eapply delete_contents_absent.
Qed.

Lemma C7_witness :
  reachable demo ∧ inorder demo = Ok demo_items demo ∧ demo_items ≠ []
  ∧ (∀ k, k ∈ demo_items.*1 →
       ∃ a n s1 s2 l2,
         _find_node k demo = Ok (Some a) demo
         ∧ in_tree demo a
         ∧ mem demo !! a = Some n ∧ key n = k
         ∧ _splay (Some a) demo = Ok (Some a) s1 ∧ root s1 = Some a
         ∧ delete_root (Some a) s1 = Ok tt s2
         ∧ delete k demo = Ok true s2
         ∧ ¬ in_tree s2 a
         ∧ root s2 ≠ Some a
         ∧ (∀ b, in_tree s2 b ↔ in_tree demo b ∧ b ≠ a)
         ∧ inorder s2 = Ok l2 s2
         ∧ (k ∉ l2.*1)
         ∧ (∀ x, x ∈ l2 ↔ x ∈ demo_items ∧ x.1 ≠ k)
         ∧ S (length l2) = length demo_items)
  ∧ (∀ k, k ∉ demo_items.*1 → delete k demo = Ok false demo).
Proof.
  split_and!; [exact demo_reachable|exact demo_inorder|exact demo_nonempty|..];
    apply (C7_splay_targets demo demo_items demo_reachable demo_inorder demo_nonempty).
Defined.

(** * Node allocation *)

Lemma no_alloc_ret {A} (a : A) : no_alloc (ret a).
Proof. intros s b s' [= _ <-]. done. Qed.

Lemma no_alloc_out_of_fuel {A} : no_alloc (@out_of_fuel A).
Proof. intros s b s' E. discriminate. Qed.

Lemma no_alloc_bind {A B} (m : M A) (f : A → M B) :
  no_alloc m → (∀ a, no_alloc (f a)) → no_alloc (bind m f).
Proof.
  intros Hm Hf s b s' E. unfold bind in E.
  destruct (m s) as [a s1| |] eqn:Em; [|done..].
  rewrite (Hf a _ _ _ E). by eapply Hm.
Qed.

Lemma no_alloc_deref p : no_alloc (deref p).
Proof.
  intros s n s' E. unfold deref in E. destruct p as [a|]; [|done].
  destruct (mem s !! a); [|done]. by injection E as _ <-.
Qed.

Lemma no_alloc_get_root : no_alloc get_root.
Proof. intros s b s' [= _ <-]. done. Qed.

Lemma no_alloc_set_root q : no_alloc (set_root q).
Proof. intros s b s' [= _ <-]. done. Qed.

Lemma no_alloc_update p (f : Node → Node) :
  no_alloc (bind (deref p) (λ n, store p (f n))).
Proof.
  intros s b s' E. unfold bind, deref, store in E. destruct p as [a|]; [|done].
  destruct (mem s !! a) as [n|] eqn:Ea; [|done]. injection E as _ <-. simpl.
  apply dom_insert_lookup_L. eauto.
Qed.

Lemma no_alloc_with_fuel {A} (f : nat → M A) :
  (∀ fuel, no_alloc (f fuel)) → no_alloc (with_fuel f).
Proof. intros H s a s' E. by eapply H. Qed.

Ltac na :=
  repeat first
    [ assumption
    | solve [auto]
    | apply no_alloc_ret | apply no_alloc_out_of_fuel
    | apply no_alloc_get_root | apply no_alloc_set_root
    | apply no_alloc_update
    | apply no_alloc_bind; [|intros ?]
    | apply no_alloc_with_fuel; intros ?
    | progress unfold get_key, get_value, get_left, get_right, get_parent,
        set_value, set_left, set_right, set_parent
    | apply no_alloc_deref
    | match goal with
      | |- no_alloc (if ?b then _ else _) => destruct b
      end ].

Lemma no_alloc_rotate_right x : no_alloc (_rotate_right x).
Proof. unfold _rotate_right. na. Qed.

Lemma no_alloc_rotate_left x : no_alloc (_rotate_left x).
Proof. unfold _rotate_left. na. Qed.

Lemma no_alloc_splay_step node p : no_alloc (splay_step node p).
Proof.
  pose proof no_alloc_rotate_right. pose proof no_alloc_rotate_left.
  unfold splay_step. na.
Qed.

Lemma no_alloc_splay_loop fuel : ∀ node, no_alloc (splay_loop fuel node).
Proof.
  pose proof no_alloc_splay_step.
  induction fuel as [|fuel IH]; intros node; simpl; na.
Qed.

Lemma no_alloc_splay node : no_alloc (_splay node).
Proof. pose proof no_alloc_splay_loop. unfold _splay. na. Qed.

Lemma no_alloc_find_loop fuel k : ∀ cur, no_alloc (find_loop fuel k cur).
Proof.
  pose proof no_alloc_splay.
  induction fuel as [|fuel IH]; intros cur; simpl; na.
Qed.

Lemma no_alloc_find k : no_alloc (find k).
Proof. pose proof (λ f, no_alloc_find_loop f k). unfold find. na. Qed.

Lemma no_alloc_find_node_loop fuel k : ∀ cur, no_alloc (find_node_loop fuel k cur).
Proof. induction fuel as [|fuel IH]; intros cur; simpl; na. Qed.

Lemma no_alloc_find_node k : no_alloc (_find_node k).
Proof. pose proof (λ f, no_alloc_find_node_loop f k). unfold _find_node. na. Qed.

Lemma no_alloc_leftmost_loop fuel : ∀ cur, no_alloc (leftmost_loop fuel cur).
Proof. induction fuel as [|fuel IH]; intros cur; simpl; na. Qed.

Lemma no_alloc_rightmost_loop fuel : ∀ cur, no_alloc (rightmost_loop fuel cur).
Proof. induction fuel as [|fuel IH]; intros cur; simpl; na. Qed.

Lemma no_alloc_delete_root node : no_alloc (delete_root node).
Proof.
  pose proof no_alloc_splay. pose proof no_alloc_rightmost_loop.
  unfold delete_root. na.
Qed.

Lemma no_alloc_delete k : no_alloc (delete k).
Proof.
  pose proof no_alloc_splay. pose proof no_alloc_delete_root.
  pose proof (no_alloc_find_node k).
  unfold delete. na.
Qed.

Lemma no_alloc_minimum : no_alloc minimum.
Proof.
  pose proof no_alloc_splay. pose proof no_alloc_leftmost_loop.
  unfold minimum. na.
Qed.

Lemma no_alloc_maximum : no_alloc maximum.
Proof.
  pose proof no_alloc_splay. pose proof no_alloc_rightmost_loop.
  unfold maximum. na.
Qed.

Lemma insert_loop_alloc k v s t : ∀ c fuel s',
  t ≠ Leaf →
  (height t < fuel)%nat →
  repz s c t →
  insert_loop fuel k v (ptr t) s = Ok tt s' →
  dom (mem s')
  = match hit k (descend k t c).2 with
    | Some _ => dom (mem s)
    | None => {[fresh (dom (mem s))]} ∪ dom (mem s)
    end.
Proof.
  pose proof no_alloc_splay as Hsplay.
  induction t as [|l IHl a ka va r IHr]; intros c fuel s' Hne Hfuel Hrep; [done|].
  destruct fuel as [|fuel]; [simpl in Hfuel; lia|]. simpl in Hfuel.
  pose proof Hrep as ((Ha & Hl & Hr) & _ & _ & Hnd).
  cbn [insert_loop ptr truthy negb descend]. step.
  destruct (k =? ka) eqn:Ek.
  - step. intros E. simpl. rewrite Ek.
    assert (no_alloc (_splay (Some a);;; ret tt)) as Hna by na.
    rewrite (Hna _ _ _ E). simpl. apply dom_insert_lookup_L. eauto.
  - destruct (k <? ka).
    + step. destruct l as [|ll la lk lv lr].
      * cbn [truthy negb ptr hit snd]. rewrite Ek.
        pose proof (fresh_not_in _ _ _ Hrep) as Hfr. simpl in Hfr.
        set (n := fresh (dom (mem s))) in *. nd_split Hfr.
        step. fold n. repeat step. intros E.
        assert (no_alloc (_splay (Some n);;; ret tt)) as Hna by na.
        rewrite (Hna _ _ _ E). simpl.
        rewrite !dom_insert_L. apply set_eq. intros x.
        assert (a ∈ dom (mem s)) as Hin by (apply elem_of_dom; eauto).
        rewrite !elem_of_union, !elem_of_singleton. clear -Hin.
        intuition (subst; auto).
      * cbn [truthy negb ptr]. change (Some la) with (ptr (T ll la lk lv lr)).
        apply IHl; [done|lia|]. apply repz_down_l, Hrep.
    + step. destruct r as [|rl ra rk rv rr].
      * cbn [truthy negb ptr hit snd]. rewrite Ek.
        pose proof (fresh_not_in _ _ _ Hrep) as Hfr. simpl in Hfr.
        set (n := fresh (dom (mem s))) in *. nd_split Hfr.
        step. fold n. repeat step. intros E.
        assert (no_alloc (_splay (Some n);;; ret tt)) as Hna by na.
        rewrite (Hna _ _ _ E). simpl.
        rewrite !dom_insert_L. apply set_eq. intros x.
        assert (a ∈ dom (mem s)) as Hin by (apply elem_of_dom; eauto).
        rewrite !elem_of_union, !elem_of_singleton. clear -Hin.
        intuition (subst; auto).
      * cbn [truthy negb ptr]. change (Some ra) with (ptr (T rl ra rk rv rr)).
        apply IHr; [done|lia|]. apply repz_down_r, Hrep.
Qed.

Lemma insert_alloc k v s l s' :
  contents s l → insert k v s = Ok tt s' →
  dom (mem s')
  = if bool_decide (k ∈ l.*1) then dom (mem s)
    else {[fresh (dom (mem s))]} ∪ dom (mem s).
Proof.
  intros (t & H & <- & Ha). pose proof (hit_assoc k t Ha) as Hh.
  unfold insert. step. rewrite (repz_root _ _ H).
  destruct t as [|tl a ka va tr]; cbn [ptr truthy negb].
  - step. intros [= <-]. rewrite bool_decide_eq_false_2 by apply not_elem_of_nil.
    apply dom_insert_L.
  - step. rewrite (repz_root _ _ H). unfold with_fuel. intros E.
    rewrite (insert_loop_alloc k v s (T tl a ka va tr) [] _ s' ltac:(done) (fuel_height _ _ _ H) H E).
    rewrite Hh. destruct (assoc k (items (T tl a ka va tr))) as [v'|] eqn:Ea.
    + rewrite bool_decide_eq_true_2; [done|]. apply assoc_is_Some. eauto.
    + rewrite bool_decide_eq_false_2; [done|]. intros Hin.
      apply assoc_is_Some in Hin as (? & Hin). congruence.
Qed.

(** X23.  No operation other than [insert] creates a node object: after
    [find], [delete], [minimum] or [maximum], on any store whatever, the
    set of node objects is the one before the call. *)
Theorem X23_only_insert_allocates o s s' :
  run_op o s = Some s' →
  (∀ k v, o ≠ OInsert k v) →
  dom (mem s') = dom (mem s).
Proof.
  intros E Ho. destruct o as [k v|k|k| |]; simpl in E; unfold exec in E.
  - by destruct (Ho k v).
  - destruct (find k s) as [r s1| |] eqn:E1; [|done..]. injection E as <-.
    by eapply no_alloc_find.
  - destruct (delete k s) as [r s1| |] eqn:E1; [|done..]. injection E as <-.
    by eapply no_alloc_delete.
  - destruct (minimum s) as [r s1| |] eqn:E1; [|done..]. injection E as <-.
    by eapply no_alloc_minimum.
  - destruct (maximum s) as [r s1| |] eqn:E1; [|done..]. injection E as <-.
    by eapply no_alloc_maximum.
Qed.

(** X24.  [insert(k, v)] creates exactly one node object when [k] is not
    stored, and none when it overwrites the value of a stored key. *)
Theorem X24_insert_allocates_for_new_keys s l k v :
  reachable s →
  inorder s = Ok l s →
  ∃ s', insert k v s = Ok tt s'
    ∧ (k ∈ l.*1 → dom (mem s') = dom (mem s))
    ∧ (k ∉ l.*1 →
         ∃ a, a ∉ dom (mem s) ∧ dom (mem s') = {[a]} ∪ dom (mem s)).
Proof.
  intros Hr Hi. pose proof (reachable_inorder s l Hr Hi) as Hc.
  destruct (insert_contents k v s l Hc) as (s' & a & E & _).
  exists s'. split; [exact E|]. rewrite (insert_alloc k v s l s' Hc E).
  split; intros Hk.
  - by rewrite bool_decide_eq_true_2.
  - rewrite bool_decide_eq_false_2 by done.
    exists (fresh (dom (mem s))). split; [apply is_fresh|done].
Qed.

(** * The further properties on the concrete trees *)

Lemma demo_has_ten : (10, PyStr "ten") ∈ demo_items.
Proof. unfold demo_items. rewrite !elem_of_cons. auto. Qed.

Lemma demo_node_5 :
  mem demo !! 1%nat = Some (mkNode 5 (PyStr "five") None (Some 0%nat) None).
Proof. vm_compute. reflexivity. Qed.

Lemma demo_node_10 :
  mem demo !! 0%nat = Some (mkNode 10 (PyStr "ten") None None (Some 1%nat)).
Proof. vm_compute. reflexivity. Qed.

Lemma demo_in_tree_10 : in_tree demo 0%nat.
Proof.
  apply (in_tree_right demo 1%nat _ 0%nat (in_tree_root demo _ demo_root_is_5)
           demo_node_5).
  reflexivity.
Qed.

Lemma demo3_node_10 :
  mem demo3 !! 0%nat
  = Some (mkNode 10 (PyStr "ten") (Some 1%nat) (Some 2%nat) None).
Proof. vm_compute. reflexivity. Qed.

Lemma demo3_in_tree_10 : in_tree demo3 0%nat.
Proof. apply in_tree_root. vm_compute. reflexivity. Qed.

Lemma demo_keys_listed : ∀ x, x ∈ [10; 5] ↔ x ∈ demo_items.*1.
Proof. intros x. simpl. rewrite !elem_of_cons, !elem_of_nil. tauto. Qed.

Lemma demo_new_keys :
  NoDup ([(7, PyStr "seven"); (1, PyStr "one")].*1 ++ demo_items.*1).
Proof. compute_done. Qed.

Lemma lookups_touch_nothing :
  Forall (λ o, ∀ k, ¬ touches k o) [OFind 7; OMinimum; OMaximum; OFind 10].
Proof. repeat constructor; intros k []. Qed.

Lemma updates_off_10 :
  Forall (λ o, ¬ touches 10 o)
    [OInsert 7 (PyStr "seven"); ODelete 5; OMaximum].
Proof. repeat constructor; simpl; try tauto; discriminate. Qed.

Lemma demo_delete_5 :
  run_op (ODelete 5) demo = Some (default init (run_op (ODelete 5) demo)).
Proof. vm_compute. reflexivity. Qed.

Lemma X1_witness :
  reachable demo ∧ inorder demo = Ok demo_items demo
  ∧ is_empty demo = Ok (bool_decide (demo_items = [])) demo.
Proof.
  split_and!; [exact demo_reachable|exact demo_inorder|].
  exact (X1_is_empty_iff_no_keys demo demo_items demo_reachable demo_inorder).
Defined.

Lemma X2_witness :
  reachable demo ∧ inorder demo = Ok demo_items demo
  ∧ (10, PyStr "ten") ∈ demo_items
  ∧ ∃ s', find 10 demo = Ok (PyStr "ten") s'
          ∧ inorder s' = Ok demo_items s'
          ∧ find 10 s' = Ok (PyStr "ten") s'.
Proof.
  split_and!; [exact demo_reachable|exact demo_inorder|exact demo_has_ten|].
  exact (X2_find_present_and_repeat demo demo_items 10 (PyStr "ten")
           demo_reachable demo_inorder demo_has_ten).
Defined.

Lemma X3_witness :
  reachable demo
  ∧ ∃ s1, insert 7 (PyStr "seven") demo = Ok tt s1
          ∧ insert 7 (PyStr "seven") s1 = Ok tt s1.
Proof.
  split; [exact demo_reachable|].
  exact (X3_insert_twice demo 7 (PyStr "seven") demo_reachable).
Defined.

Lemma X4_witness :
  reachable demo ∧ inorder demo = Ok demo_items demo ∧ (7 ∉ demo_items.*1)
  ∧ ∃ s1 s2,
      insert 7 (PyStr "seven") demo = Ok tt s1
      ∧ delete 7 s1 = Ok true s2
      ∧ inorder s2 = Ok demo_items s2.
Proof.
  split_and!; [exact demo_reachable|exact demo_inorder|exact demo_lacks_7|].
  exact (X4_insert_then_delete demo demo_items 7 (PyStr "seven")
           demo_reachable demo_inorder demo_lacks_7).
Defined.

Lemma X5_witness :
  reachable demo ∧ inorder demo = Ok demo_items demo
  ∧ (10, PyStr "ten") ∈ demo_items
  ∧ ∃ s1 s2,
      delete 10 demo = Ok true s1
      ∧ insert 10 (PyStr "ten") s1 = Ok tt s2
      ∧ inorder s2 = Ok demo_items s2.
Proof.
  split_and!; [exact demo_reachable|exact demo_inorder|exact demo_has_ten|].
  exact (X5_delete_then_insert demo demo_items 10 (PyStr "ten")
           demo_reachable demo_inorder demo_has_ten).
Defined.

Lemma X6_witness :
  reachable demo ∧ inorder demo = Ok demo_items demo ∧ NoDup [10; 5]
  ∧ (∀ x, x ∈ [10; 5] ↔ x ∈ demo_items.*1)
  ∧ ∃ s', run (ODelete <$> [10; 5]) demo = Some s'
          ∧ root s' = None
          ∧ is_empty s' = Ok true s'
          ∧ inorder s' = Ok [] s'.
Proof.
  assert (NoDup [10; 5]) as Hnd by compute_done.
  split_and!; [exact demo_reachable|exact demo_inorder|exact Hnd
              |exact demo_keys_listed|].
  exact (X6_delete_all_keys demo demo_items [10; 5] demo_reachable demo_inorder
           Hnd demo_keys_listed).
Defined.

Lemma X7_witness :
  reachable demo ∧ inorder demo = Ok demo_items demo
  ∧ NoDup ([(7, PyStr "seven"); (1, PyStr "one")].*1 ++ demo_items.*1)
  ∧ ∃ s' l',
      run ((λ kv, OInsert kv.1 kv.2) <$> [(7, PyStr "seven"); (1, PyStr "one")])
        demo = Some s'
      ∧ inorder s' = Ok l' s'
      ∧ l' ≡ₚ [(7, PyStr "seven"); (1, PyStr "one")] ++ demo_items
      ∧ ascending l'.*1.
Proof.
  split_and!; [exact demo_reachable|exact demo_inorder|exact demo_new_keys|].
  exact (X7_insert_many demo demo_items [(7, PyStr "seven"); (1, PyStr "one")]
           demo_reachable demo_inorder demo_new_keys).
Defined.

Lemma X9_witness :
  reachable demo ∧ inorder demo = Ok demo_items demo
  ∧ Forall (λ o, ∀ k, ¬ touches k o) [OFind 7; OMinimum; OMaximum; OFind 10]
  ∧ ∃ s', run [OFind 7; OMinimum; OMaximum; OFind 10] demo = Some s'
          ∧ inorder s' = Ok demo_items s'.
Proof.
  split_and!; [exact demo_reachable|exact demo_inorder
              |exact lookups_touch_nothing|].
  exact (X9_lookups_keep_contents demo demo_items _ demo_reachable demo_inorder
           lookups_touch_nothing).
Defined.

Lemma X10_witness :
  reachable demo
  ∧ Forall (λ o, ¬ touches 10 o)
      [OInsert 7 (PyStr "seven"); ODelete 5; OMaximum]
  ∧ ∃ r s1 s2 s3,
      find 10 demo = Ok r s1
      ∧ run [OInsert 7 (PyStr "seven"); ODelete 5; OMaximum] demo = Some s2
      ∧ find 10 s2 = Ok r s3.
Proof.
  split_and!; [exact demo_reachable|exact updates_off_10|].
  exact (X10_find_ignores_other_keys demo 10 _ demo_reachable updates_off_10).
Defined.

Lemma X11_witness :
  reachable demo3 ∧ inorder demo3 = Ok demo3_items demo3 ∧ demo3_items ≠ []
  ∧ ∃ k v s' n,
      minimum demo3 = Ok (Some (k, v)) s'
      ∧ head demo3_items = Some (k, v)
      ∧ inorder s' = Ok demo3_items s'
      ∧ root_node s' = Some n ∧ key n = k ∧ value n = v ∧ left n = None
      ∧ minimum s' = Ok (Some (k, v)) s'.
Proof.
  assert (demo3_items ≠ []) as Hne by discriminate.
  split_and!; [exact demo3_reachable|exact demo3_inorder|exact Hne|].
  exact (X11_minimum_first_pair demo3 demo3_items demo3_reachable demo3_inorder
           Hne).
Defined.

Lemma X12_witness :
  reachable demo3 ∧ inorder demo3 = Ok demo3_items demo3 ∧ demo3_items ≠ []
  ∧ ∃ k v s' n,
      maximum demo3 = Ok (Some (k, v)) s'
      ∧ last demo3_items = Some (k, v)
      ∧ inorder s' = Ok demo3_items s'
      ∧ root_node s' = Some n ∧ key n = k ∧ value n = v ∧ right n = None
      ∧ maximum s' = Ok (Some (k, v)) s'.
Proof.
  assert (demo3_items ≠ []) as Hne by discriminate.
  split_and!; [exact demo3_reachable|exact demo3_inorder|exact Hne|].
  exact (X12_maximum_last_pair demo3 demo3_items demo3_reachable demo3_inorder
           Hne).
Defined.

Lemma X13_witness :
  reachable demo ∧ inorder demo = Ok demo_items demo
  ∧ with_fuel (λ fuel, _inorder fuel (root demo) [(1, PyStr "one")]) demo
    = Ok ([(1, PyStr "one")] ++ demo_items) demo.
Proof.
  split_and!; [exact demo_reachable|exact demo_inorder|].
  exact (X13_inorder_appends demo demo_items [(1, PyStr "one")] demo_reachable
           demo_inorder).
Defined.

Lemma X14_witness :
  reachable demo ∧ inorder demo = Ok demo_items demo ∧ in_tree demo 0%nat
  ∧ ∃ n s' n',
      mem demo !! 0%nat = Some n
      ∧ _splay (Some 0%nat) demo = Ok (Some 0%nat) s'
      ∧ root s' = Some 0%nat
      ∧ mem s' !! 0%nat = Some n'
      ∧ key n' = key n ∧ value n' = value n ∧ parent n' = None
      ∧ inorder s' = Ok demo_items s'
      ∧ parent_links s'.
Proof.
  split_and!; [exact demo_reachable|exact demo_inorder|exact demo_in_tree_10|].
  exact (X14_splay_any_node demo demo_items 0%nat demo_reachable demo_inorder
           demo_in_tree_10).
Defined.

Lemma X15_witness :
  reachable demo3 ∧ inorder demo3 = Ok demo3_items demo3 ∧ in_tree demo3 0%nat
  ∧ mem demo3 !! 0%nat
    = Some (mkNode 10 (PyStr "ten") (Some 1%nat) (Some 2%nat) None)
  ∧ ∃ ny s' nx' ny',
      mem demo3 !! 1%nat = Some ny
      ∧ _rotate_right (Some 0%nat) demo3 = Ok (Some 1%nat) s'
      ∧ mem s' !! 0%nat = Some nx' ∧ mem s' !! 1%nat = Some ny'
      ∧ parent ny' = None ∧ left ny' = left ny ∧ right ny' = Some 0%nat
      ∧ parent nx' = Some 1%nat ∧ left nx' = right ny
      ∧ right nx' = Some 2%nat
      ∧ key nx' = 10 ∧ value nx' = PyStr "ten"
      ∧ key ny' = key ny ∧ value ny' = value ny
      ∧ (@None nat = None → root s' = Some 1%nat)
      ∧ (@None nat ≠ None → root s' = root demo3)
      ∧ inorder s' = Ok demo3_items s'
      ∧ parent_links s'.
Proof.
  split_and!; [exact demo3_reachable|exact demo3_inorder|exact demo3_in_tree_10
              |exact demo3_node_10|].
  exact (X15_rotate_right_at_node demo3 demo3_items 0%nat _ 1%nat
           demo3_reachable demo3_inorder demo3_in_tree_10 demo3_node_10 eq_refl).
Defined.

Lemma X16_witness :
  reachable demo3 ∧ inorder demo3 = Ok demo3_items demo3 ∧ in_tree demo3 0%nat
  ∧ mem demo3 !! 0%nat
    = Some (mkNode 10 (PyStr "ten") (Some 1%nat) (Some 2%nat) None)
  ∧ ∃ ny s' nx' ny',
      mem demo3 !! 2%nat = Some ny
      ∧ _rotate_left (Some 0%nat) demo3 = Ok (Some 2%nat) s'
      ∧ mem s' !! 0%nat = Some nx' ∧ mem s' !! 2%nat = Some ny'
      ∧ parent ny' = None ∧ right ny' = right ny ∧ left ny' = Some 0%nat
      ∧ parent nx' = Some 2%nat ∧ right nx' = left ny
      ∧ left nx' = Some 1%nat
      ∧ key nx' = 10 ∧ value nx' = PyStr "ten"
      ∧ key ny' = key ny ∧ value ny' = value ny
      ∧ (@None nat = None → root s' = Some 2%nat)
      ∧ (@None nat ≠ None → root s' = root demo3)
      ∧ inorder s' = Ok demo3_items s'
      ∧ parent_links s'.
Proof.
  split_and!; [exact demo3_reachable|exact demo3_inorder|exact demo3_in_tree_10
              |exact demo3_node_10|].
  exact (X16_rotate_left_at_node demo3 demo3_items 0%nat _ 2%nat
           demo3_reachable demo3_inorder demo3_in_tree_10 demo3_node_10 eq_refl).
Defined.

Lemma X17_witness :
  mem demo !! 0%nat = Some (mkNode 10 (PyStr "ten") None None (Some 1%nat))
  ∧ _rotate_right (Some 0%nat) demo = AttributeError
  ∧ _rotate_left (Some 0%nat) demo = AttributeError.
Proof.
  split; [exact demo_node_10|].
  pose proof (X17_rotation_needs_child demo 0%nat _ demo_node_10) as [Hl Hr].
  split; [exact (Hl eq_refl)|exact (Hr eq_refl)].
Defined.

Lemma X18_witness :
  reachable demo3 ∧ in_tree demo3 0%nat
  ∧ mem demo3 !! 0%nat
    = Some (mkNode 10 (PyStr "ten") (Some 1%nat) (Some 2%nat) None)
  ∧ ∃ s', _rotate_right (Some 0%nat) demo3 = Ok (Some 1%nat) s'
          ∧ _rotate_left (Some 1%nat) s' = Ok (Some 0%nat) demo3.
Proof.
  split_and!; [exact demo3_reachable|exact demo3_in_tree_10|exact demo3_node_10|].
  exact (X18_rotate_right_then_left demo3 0%nat _ 1%nat demo3_reachable
           demo3_in_tree_10 demo3_node_10 eq_refl).
Defined.

Lemma X19_witness :
  reachable demo3 ∧ in_tree demo3 0%nat
  ∧ mem demo3 !! 0%nat
    = Some (mkNode 10 (PyStr "ten") (Some 1%nat) (Some 2%nat) None)
  ∧ ∃ s', _rotate_left (Some 0%nat) demo3 = Ok (Some 2%nat) s'
          ∧ _rotate_right (Some 2%nat) s' = Ok (Some 0%nat) demo3.
Proof.
  split_and!; [exact demo3_reachable|exact demo3_in_tree_10|exact demo3_node_10|].
  exact (X19_rotate_left_then_right demo3 0%nat _ 2%nat demo3_reachable
           demo3_in_tree_10 demo3_node_10 eq_refl).
Defined.

Lemma X20_witness :
  reachable demo ∧ inorder demo = Ok demo_items demo ∧ demo_items ≠ []
  ∧ ∃ r s' n,
      find 7 demo = Ok r s'
      ∧ root_node s' = Some n
      ∧ key n ∈ demo_items.*1
      ∧ (7 ∈ demo_items.*1 → key n = 7)
      ∧ ∀ x, x ∈ demo_items.*1 → ¬ (key n < x < 7) ∧ ¬ (7 < x < key n).
Proof.
  split_and!; [exact demo_reachable|exact demo_inorder|exact demo_nonempty|].
  exact (X20_find_leaves_neighbour_at_root demo demo_items 7 demo_reachable
           demo_inorder demo_nonempty).
Defined.

Lemma X21_witness :
  reachable demo
  ∧ run_op (ODelete 5) demo = Some (default init (run_op (ODelete 5) demo))
  ∧ in_tree demo 0%nat
  ∧ mem demo !! 0%nat = Some (mkNode 10 (PyStr "ten") None None (Some 1%nat))
  ∧ ¬ touches 10 (ODelete 5)
  ∧ in_tree (default init (run_op (ODelete 5) demo)) 0%nat
  ∧ ∃ n', mem (default init (run_op (ODelete 5) demo)) !! 0%nat = Some n'
          ∧ key n' = 10 ∧ value n' = PyStr "ten".
Proof.
  assert (¬ touches 10 (ODelete 5)) as Ht by (simpl; lia).
  split_and!; [exact demo_reachable|exact demo_delete_5|exact demo_in_tree_10
              |exact demo_node_10|exact Ht|..];
    apply (X21_nodes_keep_their_pairs (ODelete 5) demo _ 0%nat _ demo_reachable
             demo_delete_5 demo_in_tree_10 demo_node_10 Ht).
Defined.

Lemma X22_witness :
  reachable demo ∧ inorder demo = Ok demo_items demo ∧ 10 ∈ demo_items.*1
  ∧ ∃ a s',
      _find_node 10 demo = Ok (Some a) demo
      ∧ delete 10 demo = Ok true s'
      ∧ in_tree demo a
      ∧ ∀ b, in_tree s' b ↔ in_tree demo b ∧ b ≠ a.
Proof.
  split_and!; [exact demo_reachable|exact demo_inorder|exact demo_has_10|].
  exact (X22_delete_unlinks_one_node demo demo_items 10 demo_reachable
           demo_inorder demo_has_10).
Defined.

Lemma X23_witness :
  run_op (ODelete 5) demo = Some (default init (run_op (ODelete 5) demo))
  ∧ (∀ k v, ODelete 5 ≠ OInsert k v)
  ∧ dom (mem (default init (run_op (ODelete 5) demo))) = dom (mem demo).
Proof.
  assert (∀ k v, ODelete 5 ≠ OInsert k v) as Ho by discriminate.
  split_and!; [exact demo_delete_5|exact Ho|].
  exact (X23_only_insert_allocates (ODelete 5) demo _ demo_delete_5 Ho).
Defined.

Lemma X24_witness :
  reachable demo ∧ inorder demo = Ok demo_items demo
  ∧ ∃ s', insert 7 (PyStr "seven") demo = Ok tt s'
      ∧ (7 ∈ demo_items.*1 → dom (mem s') = dom (mem demo))
      ∧ (7 ∉ demo_items.*1 →
           ∃ a, a ∉ dom (mem demo) ∧ dom (mem s') = {[a]} ∪ dom (mem demo)).
Proof.
  split_and!; [exact demo_reachable|exact demo_inorder|].
  exact (X24_insert_allocates_for_new_keys demo demo_items 7 (PyStr "seven")
           demo_reachable demo_inorder).
Defined.
